(** * ShipFlow: the transfer engine and the deploy pipeline, verified against the code

    A shallow embedding of the TypeScript sources of the three services

    - Upload service:  [src/utils/s3Uploader.ts] ([S3DirectoryUploader]) and
      [src/controllers/upload.ts] ([uploadController]);
    - Deploy service:  [src/aws.ts] ([S3DirectoryDownloader],
      [S3DirectoryUploader], [downloadS3Folder], [uploadDistFolder]) and
      [src/index.ts] ([main], [buildProject]);
    - Request service: [src/controllers/serve.ts] ([serveFileController]).

    Conventions of the embedding.

    - JavaScript numbers used as counters and millisecond clocks are [Z].
    - A rejected promise / thrown exception is the [Err] branch of [result];
      an [Error] is represented by its message.
    - The object store, the status hash and the local files written by a
      download are finite maps ([gmap]).
    - Asynchrony is made explicit with a logical clock: every call on the
      storage transport started at tick [t] settles at a strictly later tick
      chosen by the transport ([latency]).  A function modelling an [async]
      function takes its start tick and returns the transport calls it
      caused together with the tick at which, and the value with which, its
      promise settles.  The synchronous parts of the code take no time.
    - A promise that is rejected while no handler is attached to it ends
      the Node process (the default since Node 15).  Where the code leaves
      such promises, a function of its own tells whether a run meets one
      ([Downloader.unhandledRejection]), and the worker loop ends with it. *)

From Stdlib Require Import ZArith List Strings.String Strings.Ascii Strings.Byte Lia Bool QArith_base.
From stdpp Require Import base gmap strings list pretty.

Open Scope string_scope.
Open Scope list_scope.
Open Scope Z_scope.

(* ===================================================================== *)
(** * Part I.  The model                                                  *)
(* ===================================================================== *)

(** ** Results of fallible computations *)

(** A JavaScript [Error], identified by its [message]. *)
Definition Error := string.

Inductive result (A : Type) : Type :=
| Ok (a : A)
| Err (e : Error).
Arguments Ok {A} a.
Arguments Err {A} e.

Definition is_ok {A} (r : result A) : bool :=
  match r with Ok _ => true | Err _ => false end.

Definition error_of {A} (r : result A) : option Error :=
  match r with Ok _ => None | Err e => Some e end.

(** ** JavaScript strings *)

Module Js.

(** [s.slice(n)] for [0 <= n]. *)
Fixpoint slice (n : nat) (s : string) : string :=
  match n, s with
  | O, _ => s
  | S _, EmptyString => EmptyString
  | S n', String _ s' => slice n' s'
  end.

(** [s.startsWith(p)]. *)
Definition startsWith (p s : string) : bool := String.prefix p s.

(** [s.endsWith("/")] and the like, for a one-character suffix. *)
Fixpoint endsWithChar (c : ascii) (s : string) : bool :=
  match s with
  | EmptyString => false
  | String a EmptyString => Ascii.eqb a c
  | String _ s' => endsWithChar c s'
  end.

(** Truthiness of a string: every string but the empty one. *)
Definition truthy (s : string) : bool := negb (String.eqb s "").

(** [s.split(sep)] for a one-character separator. *)
Fixpoint split (sep : ascii) (s : string) : list string :=
  match s with
  | EmptyString => [EmptyString]
  | String c s' =>
      if Ascii.eqb c sep then EmptyString :: split sep s'
      else match split sep s' with
           | [] => [String c EmptyString]
           | seg :: rest => String c seg :: rest
           end
  end.

(** [s.replace(/[..]/g, by)]: every character satisfying [p] becomes [by]. *)
Fixpoint replaceAll (p : ascii -> bool) (by_ : ascii) (s : string) : string :=
  match s with
  | EmptyString => EmptyString
  | String c s' => String (if p c then by_ else c) (replaceAll p by_ s')
  end.

End Js.

(** ** Node's [path.posix] *)

Module Path.

Definition slash : ascii := "/"%char.

(** One segment of [normalizeString]; [res] is the stack of kept
    segments, last one first. *)
Definition normalizeStep (allowAboveRoot : bool) (res : list string) (seg : string)
  : list string :=
  if String.eqb seg "" || String.eqb seg "." then res
  else if String.eqb seg ".." then
    match res with
    | top :: rest =>
        if String.eqb top ".."
        then (if allowAboveRoot then ".." :: res else res)
        else rest
    | [] => if allowAboveRoot then [".."] else []
    end
  else seg :: res.

Definition normalizeSegments (allowAboveRoot : bool) (segs : list string) : list string :=
  rev (fold_left (normalizeStep allowAboveRoot) segs []).

Definition normalizeString (path : string) (allowAboveRoot : bool) : string :=
  String.concat "/" (normalizeSegments allowAboveRoot (Js.split slash path)).

(** [path.posix.normalize]. *)
Definition normalize (path : string) : string :=
  if String.eqb path "" then "."
  else
    let isAbsolute := Js.startsWith "/" path in
    let trailingSeparator := Js.endsWithChar slash path in
    let p := normalizeString path (negb isAbsolute) in
    if String.eqb p "" then
      (if isAbsolute then "/" else if trailingSeparator then "./" else ".")
    else
      let p' := if trailingSeparator then p +:+ "/" else p in
      if isAbsolute then "/" +:+ p' else p'.

(** [path.posix.join(a, b)]: the non-empty arguments joined with ["/"],
    then normalised. *)
Definition join (a b : string) : string :=
  let joined :=
    if String.eqb a "" then b
    else if String.eqb b "" then a
    else a +:+ "/" +:+ b in
  if String.eqb joined "" then "." else normalize joined.

End Path.

(** ** Local directory trees *)

(** What [readdir(dir, { withFileTypes: true })] and [stat] report: a
    directory is the list of its entries; the size of a file is the length
    of its content. *)
#[warnings="-register-all"] Inductive Dirent : Type :=
| File (name : string) (content : list byte)
| Directory (name : string) (entries : list Dirent).

Definition dirent_name (e : Dirent) : string :=
  match e with File n _ | Directory n _ => n end.

Definition isDirectory (e : Dirent) : bool :=
  match e with File _ _ => false | Directory _ _ => true end.

Definition fileSize (content : list byte) : Z := Z.of_nat (length content).

(** ** The storage transport, instrumented *)

(** One call of [uploadFile] / [downloadFile]: the object key, the local
    path, the bytes, the ticks at which it was started and at which it
    settled, and the error it settled with, if any.  The transfer is in
    flight during [tr_start <= tick < tr_end]. *)
Record Transfer : Type := mkTransfer {
  tr_key : string;
  tr_path : string;
  tr_body : list byte;
  tr_start : nat;
  tr_end : nat;
  tr_error : option Error
}.

(** An [async] function: started at a tick, it causes transfers and
    settles at a tick with a value or an error. *)
Definition Async (A : Type) : Type := nat -> list Transfer * (nat * result A).

Definition settled_result (e : option Error) : result unit :=
  match e with None => Ok tt | Some err => Err err end.

(** [Promise.all(ps)] awaited from tick [t]: rejected as soon as one member
    is, with that member's error (the first in array order among members
    rejected at the same tick); fulfilled once all members are. *)
Fixpoint firstRejection (ps : list (nat * result unit)) : option (nat * Error) :=
  match ps with
  | [] => None
  | (t, Ok _) :: rest => firstRejection rest
  | (t, Err e) :: rest =>
      match firstRejection rest with
      | Some (t', e') => if (t' <? t)%nat then Some (t', e') else Some (t, e)
      | None => Some (t, e)
      end
  end.

Definition promiseAll (ps : list (nat * result unit)) (t : nat) : nat * result unit :=
  match firstRejection ps with
  | Some (t', e) => (Nat.max t t', Err e)
  | None => (fold_right Nat.max t (map fst ps), Ok tt)
  end.

(** Number of transfers in flight at a tick, and its maximum over a run
    (the count only rises when a transfer starts). *)
Definition inFlightAt (tick : nat) (tr : Transfer) : bool :=
  (tr_start tr <=? tick)%nat && (tick <? tr_end tr)%nat.

Definition inFlight (trs : list Transfer) (tick : nat) : nat :=
  length (filter (fun tr => inFlightAt tick tr = true) trs).

Definition highWaterMark (trs : list Transfer) : nat :=
  fold_right Nat.max 0%nat (map (fun tr => inFlight trs (tr_start tr)) trs).

(** The object store after the successful uploads of a run. *)
Definition applyPut (bucket : gmap string (list byte)) (tr : Transfer)
  : gmap string (list byte) :=
  match tr_error tr with
  | None => <[tr_key tr := tr_body tr]> bucket
  | Some _ => bucket
  end.

Definition applyPuts (trs : list Transfer) (bucket : gmap string (list byte))
  : gmap string (list byte) :=
  fold_left applyPut trs bucket.

(** The local files after the successful downloads of a run. *)
Definition applyWrite (files : gmap string (list byte)) (tr : Transfer)
  : gmap string (list byte) :=
  match tr_error tr with
  | None => <[tr_path tr := tr_body tr]> files
  | Some _ => files
  end.

Definition applyWrites (trs : list Transfer) (files : gmap string (list byte))
  : gmap string (list byte) :=
  fold_left applyWrite trs files.

(** Objects as [listObjectsV2] reports them; the SDK types every field as
    optional. *)
Record S3Object : Type := mkObject {
  Key : option string;
  Size : option Z
}.

Record ListObjectsV2Output : Type := mkListing {
  Contents : option (list S3Object);
  IsTruncated : bool;
  NextContinuationToken : option string
}.

(** A fake object store.  [s3_list prefix] is the sequence of replies to
    the successive [listObjectsV2] calls for [prefix] (the first call, then
    one per continuation token); [s3_body] is the stored object;
    [s3_fail] injects the failure of the transfer of a key; a transfer takes
    [1 + s3_latency key] ticks and a listing call [1 + s3_listLatency]. *)
Record S3 : Type := mkS3 {
  s3_list : string -> list (result ListObjectsV2Output);
  s3_body : string -> option (list byte);
  s3_fail : string -> option Error;
  s3_latency : string -> nat;
  s3_listLatency : nat
}.

(** The fake that serves a given bucket: a listing call returns the
    objects under the prefix, [pageSize] at a time. *)
Definition objectsUnder (objects : gmap string (list byte)) (prefix : string)
  : list S3Object :=
  map (fun kv => mkObject (Some (fst kv)) (Some (fileSize (snd kv))))
      (filter (fun kv => Js.startsWith prefix (fst kv) = true) (map_to_list objects)).

Fixpoint paginate (fuel pageSize : nat) (objs : list S3Object)
  : list (result ListObjectsV2Output) :=
  match fuel with
  | O => [Ok (mkListing (Some objs) false None)]
  | S fuel' =>
      if (length objs <=? pageSize)%nat
      then [Ok (mkListing (Some objs) false None)]
      else Ok (mkListing (Some (take pageSize objs)) true (Some "next"))
           :: paginate fuel' pageSize (drop pageSize objs)
  end.

Definition serving (pageSize : nat) (objects : gmap string (list byte))
    (fail : string -> option Error) (latency : string -> nat) (listLatency : nat) : S3 :=
  mkS3 (fun prefix =>
          let objs := objectsUnder objects prefix in
          paginate (length objs) pageSize objs)
       (fun key => objects !! key) fail latency listLatency.

(* --------------------------------------------------------------------- *)
(** ** Upload service: [S3DirectoryUploader] ([src/utils/s3Uploader.ts])  *)
(* --------------------------------------------------------------------- *)

Module Uploader.

Record UploadStats : Type := mkStats {
  totalFiles : Z;
  filesUploaded : Z;
  totalBytes : Z;
  bytesUploaded : Z;
  startTime : Z;
  lastLogTime : Z
}.

Definition initialStats : UploadStats := mkStats 0 0 0 0 0 0.

Definition logIntervalMs : Z := 2000.

Definition concurrencyLimit : nat := 5.

(** The arguments of [Logger.upload.progress]. *)
Record Progress : Type := mkProgress {
  p_filesUploaded : Z;
  p_totalFiles : Z;
  p_bytesUploaded : Z;
  p_totalBytes : Z;
  p_elapsedSeconds : Q
}.

(** [logProgress()], with [now] the value of [Date.now()]. *)
Definition logProgress (now : Z) (stats : UploadStats) : option Progress * UploadStats :=
  if now - lastLogTime stats >=? logIntervalMs then
    let elapsedSeconds := Qmake (now - startTime stats) 1000 in
    (Some (mkProgress (filesUploaded stats) (totalFiles stats)
                      (bytesUploaded stats) (totalBytes stats) elapsedSeconds),
     mkStats (totalFiles stats) (filesUploaded stats) (totalBytes stats)
             (bytesUploaded stats) (startTime stats) now)
  else (None, stats).

(** The end of [uploadFile], once [PutObject] has succeeded: the counters
    are updated and the progress is reported. *)
Definition fileUploaded (now fileSize : Z) (stats : UploadStats)
  : option Progress * UploadStats :=
  logProgress now
    (mkStats (totalFiles stats) (filesUploaded stats + 1) (totalBytes stats)
             (bytesUploaded stats + fileSize) (startTime stats) (lastLogTime stats)).

(** The statistics are reset at the start of [uploadDirectory]. *)
Definition resetStats (now : Z) : UploadStats := mkStats 0 0 0 0 now now.

(** [calculateDirectoryStats]: one entry, then a directory. *)
Fixpoint calculateEntryStats (entry : Dirent) (stats : UploadStats) : UploadStats :=
  match entry with
  | Directory _ entries =>
      fold_left (fun st e => calculateEntryStats e st) entries stats
  | File _ content =>
      mkStats (totalFiles stats + 1) (filesUploaded stats)
              (totalBytes stats + fileSize content) (bytesUploaded stats)
              (startTime stats) (lastLogTime stats)
  end.

Definition calculateDirectoryStats (entries : list Dirent) (stats : UploadStats)
  : UploadStats :=
  fold_left (fun st e => calculateEntryStats e st) entries stats.

(** [uploadFile(filePath, s3Key)]: one [PutObject]. *)
Definition uploadFile (s3 : S3) (filePath s3Key : string) (content : list byte)
  : Async unit :=
  fun t =>
    let t' := (t + 1 + s3_latency s3 s3Key)%nat in
    ([mkTransfer s3Key filePath content t t' (s3_fail s3 s3Key)],
     (t', settled_result (s3_fail s3 s3Key))).

(** [processEntry(index)] over the entries of one directory, each given
    by what awaiting it does.  The recursive call sits in the [finally]
    block: it runs whether or not the entry failed, and its own failure
    replaces the entry's.  [fuel] bounds the chain [index], [index + 5],
    ...; the length of [entries] is always enough. *)
Fixpoint processEntry (fuel : nat) (entries : list (Async unit)) (index : nat)
  : Async unit :=
  fun t =>
    match fuel with
    | O => ([], (t, Ok tt))
    | S fuel' =>
        match entries !! index with
        | None => ([], (t, Ok tt))
        | Some entry =>
            let awaited := entry t in
            let next :=
              processEntry fuel' entries (index + concurrencyLimit) (fst (snd awaited)) in
            (fst awaited ++ fst next,
             (fst (snd next),
              match snd (snd next) with
              | Err e => Err e
              | Ok _ => snd (snd awaited)
              end))
        end
    end.

(** The transfer pass of [uploadDirectory]: the initial batch of
    [min(concurrencyLimit, entries.length)] chains and [Promise.all]. *)
Definition transferPass (entries : list (Async unit)) : Async unit :=
  fun t =>
    let initialPromises :=
      map (fun i => processEntry (length entries) entries i t)
          (seq 0 (Nat.min concurrencyLimit (length entries))) in
    (concat (map fst initialPromises), promiseAll (map snd initialPromises) t).

Definition entryS3Key (s3Prefix name : string) : string :=
  if Js.truthy s3Prefix then s3Prefix +:+ "/" +:+ name else name.

(** What [processEntry] awaits for one entry: [uploadFile] for a file, a
    recursive [uploadDirectory] for a directory. *)
Fixpoint uploadEntry (s3 : S3) (dirPath s3Prefix : string) (entry : Dirent)
  : Async unit :=
  let entryPath := Path.join dirPath (dirent_name entry) in
  let key := entryS3Key s3Prefix (dirent_name entry) in
  match entry with
  | File _ content => uploadFile s3 entryPath key content
  | Directory _ entries => transferPass (map (uploadEntry s3 entryPath key) entries)
  end.

(** [uploadDirectory(dirPath, s3Prefix)], [entries] being the tree that
    [readdir] finds at [dirPath]. *)
Definition uploadDirectory (s3 : S3) (dirPath : string) (entries : list Dirent)
    (s3Prefix : string) : Async unit :=
  transferPass (map (uploadEntry s3 dirPath s3Prefix) entries).

(** The statistics as they stand when the statistics pass of the call
    has completed, [now] being the clock at the reset. *)
Definition statsAfterStatisticsPass (now : Z) (entries : list Dirent) : UploadStats :=
  calculateDirectoryStats entries (resetStats now).

End Uploader.

(* --------------------------------------------------------------------- *)
(** ** Deploy service: [S3DirectoryDownloader] ([src/aws.ts])             *)
(* --------------------------------------------------------------------- *)

Module Downloader.

Record DownloadStats : Type := mkStats {
  totalFiles : Z;
  filesDownloaded : Z;
  totalBytes : Z;
  bytesDownloaded : Z;
  startTime : Z;
  lastLogTime : Z
}.

Definition logIntervalMs : Z := 2000.

Definition concurrencyLimit : nat := 5.

(** The quantities printed by the progress line of [logProgress]; the
    percentages and the rate of the message are computed from them. *)
Record Progress : Type := mkProgress {
  p_filesDownloaded : Z;
  p_totalFiles : Z;
  p_bytesDownloaded : Z;
  p_totalBytes : Z;
  p_elapsedSeconds : Q
}.

(** [logProgress()], with [now] the value of [Date.now()]. *)
Definition logProgress (now : Z) (stats : DownloadStats)
  : option Progress * DownloadStats :=
  if now - lastLogTime stats >=? logIntervalMs then
    let elapsedSeconds := Qmake (now - startTime stats) 1000 in
    (Some (mkProgress (filesDownloaded stats) (totalFiles stats)
                      (bytesDownloaded stats) (totalBytes stats) elapsedSeconds),
     mkStats (totalFiles stats) (filesDownloaded stats) (totalBytes stats)
             (bytesDownloaded stats) (startTime stats) now)
  else (None, stats).

(** The ['finish'] handler of [downloadFile]. *)
Definition fileDownloaded (now fileSize : Z) (stats : DownloadStats)
  : option Progress * DownloadStats :=
  logProgress now
    (mkStats (totalFiles stats) (filesDownloaded stats + 1) (totalBytes stats)
             (bytesDownloaded stats + fileSize) (startTime stats) (lastLogTime stats)).

Definition resetStats (now : Z) : DownloadStats := mkStats 0 0 0 0 now now.

(** The test [obj.Size && obj.Size > 0]. *)
Definition sizeIsPositive (obj : S3Object) : bool :=
  match Size obj with
  | Some n => negb (n =? 0) && (0 <? n)
  | None => false
  end.

(** The body of the [for] loop of [calculateS3Stats]. *)
Definition countObject (stats : DownloadStats) (obj : S3Object) : DownloadStats :=
  if sizeIsPositive obj then
    mkStats (totalFiles stats + 1) (filesDownloaded stats)
            (totalBytes stats + default 0 (Size obj)) (bytesDownloaded stats)
            (startTime stats) (lastLogTime stats)
  else stats.

Definition noReply : Error := "listObjectsV2: no response".

(** [calculateS3Stats]: the [while (!finished)] loop over the replies of
    the successive listing calls; a rejected call is rethrown. *)
Fixpoint calculateS3Stats (replies : list (result ListObjectsV2Output))
    (stats : DownloadStats) : result DownloadStats :=
  match replies with
  | [] => Err noReply
  | Err e :: _ => Err e
  | Ok response :: rest =>
      let stats' :=
        match Contents response with
        | Some objs => fold_left countObject objs stats
        | None => stats
        end in
      if IsTruncated response then calculateS3Stats rest stats' else Ok stats'
  end.

(** Number of listing calls the loop makes. *)
Fixpoint listingCalls (replies : list (result ListObjectsV2Output)) : nat :=
  match replies with
  | [] => 1
  | Err _ :: _ => 1
  | Ok response :: rest => if IsTruncated response then S (listingCalls rest) else 1
  end.

Definition noSuchKey : Error := "NoSuchKey".

(** [downloadFile(s3Key, localFilePath)]: [headObject], then the object
    streamed into the local file.  The failure of a key is the rejection
    of the awaited [headObject] (a missing key among them), which the
    [catch] block rethrows: the promise is rejected with it.  Two other
    failures are not represented: an error of the [getObject] stream, for
    which the code has no listener (the ['error'] listener sits on the
    write stream that [pipe] returns) and which ends the process, and the
    failures of the local file system ([mkdirSync], [createWriteStream]). *)
Definition downloadFile (s3 : S3) (s3Key localFilePath : string) : Async unit :=
  fun t =>
    let t' := (t + 1 + s3_latency s3 s3Key)%nat in
    let error :=
      match s3_fail s3 s3Key with
      | Some e => Some e
      | None => match s3_body s3 s3Key with Some _ => None | None => Some noSuchKey end
      end in
    ([mkTransfer s3Key localFilePath (default [] (s3_body s3 s3Key)) t t' error],
     (t', settled_result error)).

(** The test [obj.Key && obj.Size && obj.Size > 0], giving the key. *)
Definition eligibleKey (obj : S3Object) : option string :=
  match Key obj with
  | Some key => if Js.truthy key && sizeIsPositive obj then Some key else None
  | None => None
  end.

Definition localFilePathOf (s3Prefix localDir key : string) : string :=
  let relativePath := Js.slice (String.length s3Prefix) key in
  let cleanRelativePath :=
    if Js.startsWith "/" relativePath then Js.slice 1 relativePath else relativePath in
  Path.join localDir cleanRelativePath.

(** The [for] loop over one page, at the tick [t] at which the page
    arrived: every eligible object is handed to [downloadFile] at once;
    [batchPromises] only groups the promises five by five.  The result is
    the list of batches pushed on [downloadPromises]. *)
Fixpoint pageLoop (s3 : S3) (s3Prefix localDir : string) (t : nat)
    (objs : list S3Object) (batchPromises : list (list Transfer * (nat * result unit)))
  : list (list (list Transfer * (nat * result unit))) :=
  match objs with
  | [] => if (0 <? length batchPromises)%nat then [batchPromises] else []
  | obj :: rest =>
      match eligibleKey obj with
      | Some key =>
          let localFilePath := localFilePathOf s3Prefix localDir key in
          let batch := (batchPromises ++ [downloadFile s3 key localFilePath t])%list in
          if (concurrencyLimit <=? length batch)%nat
          then batch :: pageLoop s3 s3Prefix localDir t rest []
          else pageLoop s3 s3Prefix localDir t rest batch
      | None => pageLoop s3 s3Prefix localDir t rest batchPromises
      end
  end.

(** The second [while (!finished)] loop of [downloadFromS3], from tick [t]
    with [downloadPromises] so far; [Err] when a listing call is rejected. *)
Fixpoint transferLoop (s3 : S3) (s3Prefix localDir : string)
    (replies : list (result ListObjectsV2Output)) (t : nat)
    (downloadPromises : list (list (list Transfer * (nat * result unit))))
  : list (list (list Transfer * (nat * result unit))) * (nat * result unit) :=
  let t' := (t + 1 + s3_listLatency s3)%nat in
  match replies with
  | [] => (downloadPromises, (t', Err noReply))
  | Err e :: _ => (downloadPromises, (t', Err e))
  | Ok response :: rest =>
      let pushed :=
        match Contents response with
        | Some objs => pageLoop s3 s3Prefix localDir t' objs []
        | None => []
        end in
      let downloadPromises' := (downloadPromises ++ pushed)%list in
      if IsTruncated response
      then transferLoop s3 s3Prefix localDir rest t' downloadPromises'
      else (downloadPromises', (t', Ok tt))
  end.

Definition transfersOf (batches : list (list (list Transfer * (nat * result unit))))
  : list Transfer :=
  concat (map fst (concat batches)).

(** [Promise.all(batchPromises).then(() => { })] for one batch, created at
    tick [t]. *)
Definition batchPromise (t : nat) (batch : list (list Transfer * (nat * result unit)))
  : nat * result unit :=
  promiseAll (map snd batch) t.

(** [downloadFromS3(s3Prefix, localDir)]: the transfers of the call and what
    becomes of its promise in a process that lives until the promise
    settles ([unhandledRejection] below tells when it does not).  The two
    listing loops are answered alike: the listing does not change while
    the call runs. *)
Definition downloadFromS3 (s3 : S3) (s3Prefix localDir : string) : Async unit :=
  fun t =>
    let replies := s3_list s3 s3Prefix in
    let t1 := (t + listingCalls replies * (1 + s3_listLatency s3))%nat in
    match calculateS3Stats replies (resetStats 0) with
    | Err e => ([], (t1, Err e))
    | Ok _ =>
        let '(batches, (t2, r)) := transferLoop s3 s3Prefix localDir replies t1 [] in
        match r with
        | Err e => (transfersOf batches, (t2, Err e))
        | Ok _ => (transfersOf batches, promiseAll (map (batchPromise t2) batches) t2)
        end
    end.

(** The statistics as they stand when [calculateS3Stats] has returned. *)
Definition statsAfterStatisticsPass (now : Z) (s3 : S3) (s3Prefix : string)
  : result DownloadStats :=
  calculateS3Stats (s3_list s3 s3Prefix) (resetStats now).

(** [downloadS3Folder(id)]. *)
Definition downloadS3Folder (s3 : S3) (id : string) : Async unit :=
  downloadFromS3 s3 id ("output/" +:+ id).

(** The tick at which a batch is rejected, with the error: that of the
    first of its members to be rejected. *)
Definition batchRejection (batch : list (list Transfer * (nat * result unit)))
  : nat * result unit :=
  match firstRejection (map snd batch) with
  | Some (t', e) => (t', Err e)
  | None => (0%nat, Ok tt)
  end.

(** The promise [Promise.all(batchPromises).then(() => { })] that is pushed
    on [downloadPromises] gets its first handler from the final
    [await Promise.all(downloadPromises)], which the call reaches at the
    tick at which the last listing reply arrives.  A batch that is rejected
    before that tick, while a later page is awaited, is a rejection without
    a handler, and Node ends the process on it: the result is the first
    such rejection, if there is one.  (A rejection at the very tick of the
    last reply counts as handled.) *)
Definition unhandledRejection (s3 : S3) (s3Prefix localDir : string) (t : nat)
  : option (nat * Error) :=
  let replies := s3_list s3 s3Prefix in
  let t1 := (t + listingCalls replies * (1 + s3_listLatency s3))%nat in
  match calculateS3Stats replies (resetStats 0) with
  | Err _ => None
  | Ok _ =>
      let run := transferLoop s3 s3Prefix localDir replies t1 [] in
      match firstRejection (map batchRejection (fst run)) with
      | Some (t', e) => if (t' <? fst (snd run))%nat then Some (t', e) else None
      | None => None
      end
  end.

End Downloader.

(* --------------------------------------------------------------------- *)
(** ** Deploy service: [S3DirectoryUploader] and [uploadDistFolder] ([src/aws.ts]) *)
(* --------------------------------------------------------------------- *)

Module DeployUploader.

Definition isBackslash (c : ascii) : bool := Ascii.eqb c "\"%char.

(** [path.posix.join(s3Prefix, entryRelPath).replace(/\\/g, '/')]. *)
Definition s3KeyOf (s3Prefix entryRelPath : string) : string :=
  Js.replaceAll isBackslash Path.slash (Path.join s3Prefix entryRelPath).

(** [processDirectory(dir, relativePath)]: the calls of [uploadFile] in
    traversal order, each as (local path, object key, content). *)
Fixpoint processEntry (s3Prefix dir relativePath : string) (entry : Dirent)
  : list (string * string * list byte) :=
  let entryRelPath := Path.join relativePath (dirent_name entry) in
  let fullPath := Path.join dir (dirent_name entry) in
  match entry with
  | Directory _ entries => flat_map (processEntry s3Prefix fullPath entryRelPath) entries
  | File _ content => [(fullPath, s3KeyOf s3Prefix entryRelPath, content)]
  end.

Definition processDirectory (s3Prefix dir relativePath : string) (entries : list Dirent)
  : list (string * string * list byte) :=
  flat_map (processEntry s3Prefix dir relativePath) entries.

Definition put (s3 : S3) (bucket : gmap string (list byte))
    (upload : string * string * list byte) : gmap string (list byte) :=
  let '(_, s3Key, content) := upload in
  match s3_fail s3 s3Key with
  | None => <[s3Key := content]> bucket
  | Some _ => bucket
  end.

Fixpoint firstFailure (s3 : S3) (uploads : list (string * string * list byte))
  : option Error :=
  match uploads with
  | [] => None
  | (_, s3Key, _) :: rest =>
      match s3_fail s3 s3Key with
      | Some e => Some e
      | None => firstFailure s3 rest
      end
  end.

(** [uploadDirectory(localDir, s3Prefix)], once every upload has settled:
    the traversal never stops on a failed upload, and the failed promises
    stay in [uploadQueue] until the final [Promise.all] rejects.  Which of
    several failures is reported depends on timing; the first one in
    traversal order stands for it. *)
Definition uploadDirectory (s3 : S3) (localDir : string) (entries : list Dirent)
    (s3Prefix : string) (bucket : gmap string (list byte))
  : gmap string (list byte) * result unit :=
  let uploads := processDirectory s3Prefix localDir "" entries in
  (fold_left (put s3) uploads bucket, settled_result (firstFailure s3 uploads)).

Definition distPrefix (id : string) (deploymentId : option string) : string :=
  match deploymentId with
  | Some d =>
      if Js.truthy d then "deployments/" +:+ id +:+ "/" +:+ d
      else "deployments/" +:+ id
  | None => "deployments/" +:+ id
  end.

(** [uploadDistFolder(id, deploymentId)]; [dist] is the directory found at
    [output/<id>/dist], if there is one. *)
Definition uploadDistFolder (s3 : S3) (dist : option (list Dirent)) (id : string)
    (deploymentId : option string) (bucket : gmap string (list byte))
  : gmap string (list byte) * result unit :=
  let projectDir := "output/" +:+ id in
  let distDir := Path.join projectDir "dist" in
  let s3Prefix := distPrefix id deploymentId in
  match dist with
  | None => (bucket, Err ("Dist directory not found: " +:+ distDir))
  | Some entries => uploadDirectory s3 distDir entries s3Prefix bucket
  end.

(** The keys [uploadDistFolder] writes. *)
Definition publishedKeys (dist : list Dirent) (id : string) (deploymentId : option string)
  : list string :=
  map (fun u => snd (fst u))
      (processDirectory (distPrefix id deploymentId)
                        (Path.join ("output/" +:+ id) "dist") "" dist).

End DeployUploader.

(* --------------------------------------------------------------------- *)
(** ** The shared stores and the event log                                *)
(* --------------------------------------------------------------------- *)

Inductive Event : Type :=
| LogInfo (msg : string)
| LogError (msg : string)
| HSet (hash field value : string)
| LPush (queue value : string)
| BrPop (queue value : string)
| Sleep (ms : Z).

(** The object store, the Redis hash ["status"], the Redis list
    ["build-queue"] (head = left end) and what happened so far, oldest
    first. *)
Record World : Type := mkWorld {
  bucket : gmap string (list byte);
  status : gmap string string;
  queue : list string;
  trace : list Event
}.

Definition emit (ev : Event) (w : World) : World :=
  mkWorld (bucket w) (status w) (queue w) (trace w ++ [ev]).

Definition hSet (field value : string) (w : World) : World :=
  emit (HSet "status" field value)
       (mkWorld (bucket w) (<[field := value]> (status w)) (queue w) (trace w)).

Definition lPush (value : string) (w : World) : World :=
  emit (LPush "build-queue" value)
       (mkWorld (bucket w) (status w) (value :: queue w) (trace w)).

Definition setBucket (b : gmap string (list byte)) (w : World) : World :=
  mkWorld b (status w) (queue w) (trace w).

(** The right end of the list, where [brPop] takes from. *)
Fixpoint popRight (q : list string) : option (string * list string) :=
  match q with
  | [] => None
  | [x] => Some (x, [])
  | x :: rest =>
      match popRight rest with
      | Some (y, rest') => Some (y, x :: rest')
      | None => None
      end
  end.

(* --------------------------------------------------------------------- *)
(** ** Deploy service: [main] and [buildProject] ([src/index.ts])         *)
(* --------------------------------------------------------------------- *)

Module Orchestrator.

(** What the worker observes of its machine and collaborators: the object
    store, [fs.existsSync] on the project directory of a job, the exit
    code of the build command, the directory at [output/<id>/dist] after
    the build, [new Date().toISOString()], [process.cwd()] and whether the
    [n]-th [brPop] is rejected by the broker. *)
Record Host : Type := mkHost {
  host_s3 : S3;
  host_outputDirExists : string -> bool;
  host_exitCode : string -> Z;
  host_dist : string -> option (list Dirent);
  host_isoString : string;
  host_cwd : string;
  host_brPopError : nat -> option Error
}.

Definition isColonOrDot (c : ascii) : bool :=
  Ascii.eqb c ":"%char || Ascii.eqb c "."%char.

Definition retryDelayMs : Z := 5000.

(** The double-quote character, as a string. *)
Definition quote : string := String (ascii_of_nat 34) EmptyString.

(** [buildProject(id)]: the promise it returns, and the world when that
    promise settles. *)
Definition buildProject (host : Host) (id : string) (w : World) : World * result unit :=
  let outputDir := Path.join (host_cwd host) ("output/" +:+ id) in
  let w := emit (LogInfo ("Building project " +:+ id +:+ "... in directory " +:+ outputDir)) w in
  if negb (host_outputDirExists host id) then
    let errorMsg := "Project directory not found: " +:+ outputDir in
    (emit (LogError errorMsg) w, Err errorMsg)
  else
    let buildCmd := "cd " +:+ quote +:+ outputDir +:+ quote +:+ " && npm install && npm run build" in
    let w := emit (LogInfo ("Executing command: " +:+ buildCmd)) w in
    let code := host_exitCode host id in
    if code =? 0 then
      let w := emit (LogInfo ("Build successful for project " +:+ id)) w in
      let w := hSet id "Deployed" w in
      let distDir := Path.join outputDir "dist" in
      match host_dist host id with
      | None =>
          let errorMsg := "Build did not generate a dist folder at " +:+ distDir in
          (emit (LogError errorMsg) w, Err errorMsg)
      | Some _ =>
          let w := emit (LogInfo ("Dist folder found at " +:+ distDir)) w in
          let deploymentId := Js.replaceAll isColonOrDot "-"%char (host_isoString host) in
          match DeployUploader.uploadDistFolder (host_s3 host) (host_dist host id) id
                  (Some deploymentId) (bucket w) with
          | (b, Ok _) =>
              (emit (LogInfo ("Deployment " +:+ deploymentId +:+ " completed for project " +:+ id))
                    (setBucket b w), Ok tt)
          | (b, Err e) =>
              (emit (LogError ("Failed to upload dist folder for project " +:+ id +:+ ": " +:+ e))
                    (setBucket b w), Err e)
          end
      end
    else
      let errorMsg := "Build failed for project " +:+ id +:+ " with exit code " +:+ pretty code in
      (emit (LogError errorMsg) w, Err errorMsg).

(** How a block of statements ends: normally, with an exception, waiting
    in [brPop] on the empty queue, or with the process, ended by a
    rejection that no handler takes. *)
Inductive Completion : Type :=
| Normal
| Thrown (e : Error)
| Blocked
| Crashed (e : Error).

(** The [try] block of the loop body, in iteration [n].  A failure of
    the job that reaches the awaiting code is an exception of the block.
    The rejection of a download batch before the last listing page has
    arrived reaches no one: it ends the process while [downloadS3Folder]
    is awaited.  (The broker is taken to accept the [hSet] of
    [buildProject], which is not awaited either.) *)
Definition tryBlock (host : Host) (n : nat) (w : World) : World * Completion :=
  match host_brPopError host n with
  | Some e => (w, Thrown e)
  | None =>
      match popRight (queue w) with
      | None => (w, Blocked)
      | Some (element, rest) =>
          let w := emit (BrPop "build-queue" element)
                        (mkWorld (bucket w) (status w) rest (trace w)) in
          if Js.truthy element then
            let w := emit (LogInfo ("Received message from build queue: " +:+ element)) w in
            match Downloader.unhandledRejection (host_s3 host) element
                    ("output/" +:+ element) 0%nat with
            | Some (_, e) => (w, Crashed e)
            | None =>
                match snd (snd (Downloader.downloadS3Folder (host_s3 host) element 0%nat)) with
                | Err e => (w, Thrown e)
                | Ok _ =>
                    match buildProject host element w with
                    | (w', Err e) => (w', Thrown e)
                    | (w', Ok _) =>
                        (emit (LogInfo ("Processing complete for " +:+ element)) w', Normal)
                    end
                end
            end
          else (w, Normal)
      end
  end.

(** The [catch] block. *)
Definition catchBlock (e : Error) (w : World) : World * Completion :=
  let w := emit (LogError ("Error processing build queue message: " +:+ e)) w in
  (emit (Sleep retryDelayMs) w, Normal).

(** The body of [while (1)]: [try { ... } catch (error) { ... }]. *)
Definition loopBody (host : Host) (n : nat) (w : World) : World * Completion :=
  match tryBlock host n w with
  | (w', Thrown e) => catchBlock e w'
  | other => other
  end.

(** Where [main] stands: still looping, waiting in [brPop] on an empty
    queue, or left, through an exception that escaped the loop or with
    the process. *)
Inductive LoopState : Type :=
| Looping
| Waiting
| Exited (e : Error).

(** [main()], observed for at most [fuel] iterations from iteration [n]. *)
Fixpoint main (host : Host) (fuel n : nat) (w : World) : World * LoopState :=
  match fuel with
  | O => (w, Looping)
  | S fuel' =>
      match loopBody host n w with
      | (w', Normal) => main host fuel' (S n) w'
      | (w', Blocked) => (w', Waiting)
      | (w', Thrown e) => (w', Exited e)
      | (w', Crashed e) => (w', Exited e)
      end
  end.

End Orchestrator.

(* --------------------------------------------------------------------- *)
(** ** Upload service: [uploadController] ([src/controllers/upload.ts])   *)
(* --------------------------------------------------------------------- *)

Module UploadController.

(** The collaborators of one request: the identifier [uuidv4()] returns,
    what [simpleGit().clone] leaves in the output directory, the object
    store, whether the broker rejects the [lPush], [process.cwd()], and
    the clock at the start of the request and when the duration is taken. *)
Record Host : Type := mkHost {
  host_uuid : string;
  host_clone : string -> string -> result (list Dirent);
  host_s3 : S3;
  host_lPushError : option Error;
  host_cwd : string;
  host_startTime : Z;
  host_endTime : Z
}.

Inductive Response : Type :=
| Json200 (id : string) (processingTimeMs : Z)
| Json500 (error message : string) (processingTimeMs : Z).

Definition failure (host : Host) (e : Error) (w : World) : World * Response :=
  let totalDuration := host_endTime host - host_startTime host in
  (emit (LogError ("Error in upload process: " +:+ e)) w,
   Json500 "Failed to process the upload" e totalDuration).

(** [uploadController(req, res)] for the body [{ repoUrl }].  The promise
    of [publisher.lPush] is not awaited: its rejection reaches neither the
    [catch] block nor the response. *)
Definition uploadController (host : Host) (repoUrl : string) (w : World)
  : World * Response :=
  let id := host_uuid host in
  let outputDir := "output/" +:+ id in
  match host_clone host repoUrl outputDir with
  | Err cloneError =>
      failure host cloneError (emit (LogError "Failed to clone repository") w)
  | Ok tree =>
      let absolutePath := Path.join (host_cwd host) outputDir in
      let '(transfers, (_, uploaded)) :=
        Uploader.uploadDirectory (host_s3 host) absolutePath tree id 0%nat in
      let w := setBucket (applyPuts transfers (bucket w)) w in
      match uploaded with
      | Err uploadError =>
          failure host uploadError (emit (LogError "Failed to upload to S3") w)
      | Ok _ =>
          let totalDuration := host_endTime host - host_startTime host in
          let w := emit (LogInfo "Upload process completed successfully") w in
          let w := match host_lPushError host with
                   | None => lPush id w
                   | Some _ => w
                   end in
          (w, Json200 id totalDuration)
      end
  end.

End UploadController.

(* --------------------------------------------------------------------- *)
(** ** Request service: [serveFileController] ([src/controllers/serve.ts]) *)
(* --------------------------------------------------------------------- *)

Module Serve.

(** [host.split(".")[0]]. *)
Definition idOfHost (host : string) : string :=
  match Js.split "."%char host with
  | id :: _ => id
  | [] => ""
  end.

(** The [Key] of the [GetObjectCommand]. *)
Definition objectKey (hostname filePath : string) : string :=
  "dist/" +:+ idOfHost hostname +:+ filePath.

Inductive Response : Type :=
| Served (body : list byte)
| NotFound (message : string).

Definition serveFileController (s3 : S3) (hostname filePath : string) : Response :=
  let key := objectKey hostname filePath in
  match s3_fail s3 key, s3_body s3 key with
  | None, Some body => Served body
  | Some e, _ => NotFound ("File not found: " +:+ e)
  | None, None => NotFound ("File not found: " +:+ Downloader.noSuchKey)
  end.

End Serve.

(* --------------------------------------------------------------------- *)
(** ** Runs of the tracker and reference quantities                       *)
(* --------------------------------------------------------------------- *)

(** A burst of file completions, each with the clock and the size of the
    file; the result lists the emitted observations with the clock at
    which each was emitted.  The burst is one without a reset of the
    tracker in between: in the upload, the files of one directory level
    (the recursive call for a subdirectory resets the tracker). *)
Fixpoint uploadCompletions (events : list (Z * Z)) (stats : Uploader.UploadStats)
  : list (Z * Uploader.Progress) * Uploader.UploadStats :=
  match events with
  | [] => ([], stats)
  | (now, size) :: rest =>
      let '(emitted, stats') := Uploader.fileUploaded now size stats in
      let '(later, final) := uploadCompletions rest stats' in
      (match emitted with Some p => (now, p) :: later | None => later end, final)
  end.

Fixpoint downloadCompletions (events : list (Z * Z)) (stats : Downloader.DownloadStats)
  : list (Z * Downloader.Progress) * Downloader.DownloadStats :=
  match events with
  | [] => ([], stats)
  | (now, size) :: rest =>
      let '(emitted, stats') := Downloader.fileDownloaded now size stats in
      let '(later, final) := downloadCompletions rest stats' in
      (match emitted with Some p => (now, p) :: later | None => later end, final)
  end.

(** Successive emissions are at least [interval] apart, the first one at
    least [interval] after [last]. *)
Fixpoint spaced (interval last : Z) (times : list Z) : Prop :=
  match times with
  | [] => True
  | t :: rest => last + interval <= t /\ spaced interval t rest
  end.

(** The files of a tree: their number and their total size. *)
Fixpoint entryFileCount (entry : Dirent) : Z :=
  match entry with
  | File _ _ => 1
  | Directory _ entries => fold_right Z.add 0 (map entryFileCount entries)
  end.

Definition fileCount (entries : list Dirent) : Z :=
  fold_right Z.add 0 (map entryFileCount entries).

Fixpoint entryByteCount (entry : Dirent) : Z :=
  match entry with
  | File _ content => fileSize content
  | Directory _ entries => fold_right Z.add 0 (map entryByteCount entries)
  end.

Definition byteCount (entries : list Dirent) : Z :=
  fold_right Z.add 0 (map entryByteCount entries).

(** The objects a complete listing reports: those of the replies up to the
    first one that is not truncated. *)
Fixpoint listedObjects (replies : list (result ListObjectsV2Output)) : list S3Object :=
  match replies with
  | [] => []
  | Err _ :: _ => []
  | Ok response :: rest =>
      default [] (Contents response)
      ++ (if IsTruncated response then listedObjects rest else [])
  end.

(** The listing reaches a last page without a rejected call. *)
Fixpoint listingCompletes (replies : list (result ListObjectsV2Output)) : bool :=
  match replies with
  | [] => false
  | Err _ :: _ => false
  | Ok response :: rest => if IsTruncated response then listingCompletes rest else true
  end.

Definition objectSize (obj : S3Object) : Z := Z.max 0 (default 0 (Size obj)).

(** The objects of positive size in a listing, and the total size of a
    listing. *)
Definition positiveCount (objs : list S3Object) : Z :=
  Z.of_nat (length (filter (fun obj => Downloader.sizeIsPositive obj = true) objs)).

Definition totalSize (objs : list S3Object) : Z :=
  fold_right Z.add 0 (map objectSize objs).

(** A directory placeholder, as object stores have them: a zero-byte
    object whose key ends with a slash. *)
Definition isDirectoryPlaceholder (obj : S3Object) : bool :=
  match Key obj, Size obj with
  | Some key, Some 0 => Js.endsWithChar Path.slash key
  | _, _ => false
  end.

(** The file count of a listing as the specification words it: every
    entry but the directory placeholders. *)
Definition trueFileCount (objs : list S3Object) : Z :=
  Z.of_nat (length (filter (fun obj => isDirectoryPlaceholder obj = false) objs)).

(** An ordinary empty file, as an upload stores it: a zero-byte object
    whose key does not end with a slash. *)
Definition isEmptyFile (obj : S3Object) : bool :=
  match Key obj, Size obj with
  | Some key, Some 0 => negb (Js.endsWithChar Path.slash key)
  | _, _ => false
  end.

Definition emptyFileCount (objs : list S3Object) : Z :=
  Z.of_nat (length (filter (fun obj => isEmptyFile obj = true) objs)).

(** An object as a store lists it: with its key and with its size, which
    is not negative. *)
Definition wellListed (obj : S3Object) : bool :=
  match Key obj, Size obj with
  | Some _, Some n => 0 <=? n
  | _, _ => false
  end.

(** A store whose listings leave out the objects without a positive size. *)
Definition dropEmpty (reply : result ListObjectsV2Output) : result ListObjectsV2Output :=
  match reply with
  | Ok response =>
      Ok (mkListing
            (option_map (filter (fun obj => Downloader.sizeIsPositive obj = true))
                        (Contents response))
            (IsTruncated response) (NextContinuationToken response))
  | Err e => Err e
  end.

Definition withoutEmptyObjects (s3 : S3) : S3 :=
  mkS3 (fun prefix => map dropEmpty (s3_list s3 prefix))
       (s3_body s3) (s3_fail s3) (s3_latency s3) (s3_listLatency s3).

(** The calls of [downloadFile] that a page arriving at tick [t] causes,
    one per eligible object, in listing order. *)
Definition pageDownloads (s3 : S3) (s3Prefix localDir : string) (t : nat)
    (objs : list S3Object) : list (list Transfer * (nat * result unit)) :=
  map (fun key =>
         Downloader.downloadFile s3 key (Downloader.localFilePathOf s3Prefix localDir key) t)
      (omap Downloader.eligibleKey objs).

(** A transfer without its ticks. *)
Definition payload (tr : Transfer) : string * string * list byte * option Error :=
  (tr_key tr, tr_path tr, tr_body tr, tr_error tr).

(** What a download transfers for a key, without the ticks. *)
Definition downloadPayload (s3 : S3) (s3Prefix localDir key : string)
  : string * string * list byte * option Error :=
  (key, Downloader.localFilePathOf s3Prefix localDir key, default [] (s3_body s3 key),
   match s3_fail s3 key with
   | Some e => Some e
   | None => match s3_body s3 key with Some _ => None | None => Some Downloader.noSuchKey end
   end).

(** A settled operation reports the failures of its transfers: its error,
    if any, is the error of one of its transfers, and it did not succeed
    when one of its transfers failed. *)
Definition settlesWithFailures (run : list Transfer * (nat * result unit)) : Prop :=
  (forall e, snd (snd run) = Err e ->
             exists tr, In tr (fst run) /\ tr_error tr = Some e)
  /\ (forall tr, In tr (fst run) -> is_Some (tr_error tr) ->
                 is_ok (snd (snd run)) = false).

Definition reportsFailures (op : Async unit) : Prop :=
  forall t, settlesWithFailures (op t).

(** The tick at which the last listing reply reaches a download started
    at [t]: each of the two loops makes [listingCalls] calls, one after the
    other. *)
Definition lastReplyTick (s3 : S3) (s3Prefix : string) (t : nat) : nat :=
  (t + 2 * (Downloader.listingCalls (s3_list s3 s3Prefix) * (1 + s3_listLatency s3)))%nat.

(** A call of [downloadFile]. *)
Definition isDownload (s3 : S3) (run : list Transfer * (nat * result unit)) : Prop :=
  exists key path t, run = Downloader.downloadFile s3 key path t.


(** *** Well-formed names and trees *)

Fixpoint hasChar (c : ascii) (s : string) : bool :=
  match s with
  | EmptyString => false
  | String a s' => Ascii.eqb a c || hasChar c s'
  end.

(** A name as a directory listing gives it, and as [uuidv4] and the
    timestamp-derived deployment identifier are: not empty, not [.] or
    [..], without a slash. *)
Definition plainName (s : string) : bool :=
  negb (String.eqb s "") && negb (String.eqb s ".") && negb (String.eqb s "..")
  && negb (hasChar Path.slash s).

Fixpoint plainTree (entry : Dirent) : bool :=
  plainName (dirent_name entry)
  && match entry with
     | File _ _ => true
     | Directory _ entries => forallb plainTree entries
     end.

Definition validDeploymentId (deploymentId : option string) : bool :=
  match deploymentId with
  | Some d => String.eqb d "" || plainName d
  | None => true
  end.

(** A tree as a file system holds it: plain names, no two entries of a
    directory with the same name. *)
Fixpoint wellFormed (entry : Dirent) : bool :=
  plainName (dirent_name entry)
  && match entry with
     | File _ _ => true
     | Directory _ entries =>
         bool_decide (NoDup (map dirent_name entries)) && forallb wellFormed entries
     end.

Definition wellFormedTree (entries : list Dirent) : bool :=
  bool_decide (NoDup (map dirent_name entries)) && forallb wellFormed entries.

Fixpoint noEmptyFile (entry : Dirent) : bool :=
  match entry with
  | File _ content => negb (Nat.eqb (length content) 0)
  | Directory _ entries => forallb noEmptyFile entries
  end.

(** The files of a tree, each with the segments of its path relative to
    the root, and with the relative path itself. *)
Fixpoint entryFiles (relativePath : list string) (entry : Dirent)
  : list (list string * list byte) :=
  match entry with
  | File name content => [(relativePath ++ [name], content)]
  | Directory name entries => flat_map (entryFiles (relativePath ++ [name])) entries
  end.

Definition treeFiles (entries : list Dirent) : list (string * list byte) :=
  map (fun file => (String.concat "/" (fst file), snd file))
      (flat_map (entryFiles []) entries).

(** The same files below a local directory. *)
Definition filesBelow (localDir : string) (entries : list Dirent)
  : list (string * list byte) :=
  map (fun file => (Path.join localDir (fst file), snd file)) (treeFiles entries).

(** The object key of a file under a prefix. *)
Definition keyOf (s3Prefix : string) (segments : list string) : string :=
  if Js.truthy s3Prefix then s3Prefix +:+ "/" +:+ String.concat "/" segments
  else String.concat "/" segments.

(** The prefix under which the entries of the directory at
    [relativePath] are uploaded. *)
Definition prefixAt (s3Prefix : string) (relativePath : list string) : string :=
  match relativePath with
  | [] => s3Prefix
  | _ :: _ => keyOf s3Prefix relativePath
  end.

(** What the upload of an entry transfers, without the ticks. *)
Fixpoint entryPayloads (s3 : S3) (dirPath s3Prefix : string) (entry : Dirent)
  : list (string * string * list byte * option Error) :=
  let entryPath := Path.join dirPath (dirent_name entry) in
  let key := Uploader.entryS3Key s3Prefix (dirent_name entry) in
  match entry with
  | File _ content => [(key, entryPath, content, s3_fail s3 key)]
  | Directory _ entries => flat_map (entryPayloads s3 entryPath key) entries
  end.

(** An awaited operation whose transfers are, whenever it is started,
    those of [payloads]. *)
Definition transfersPayloads (op : Async unit)
    (payloads : list (string * string * list byte * option Error)) : Prop :=
  forall t x, In x (map payload (fst (op t))) <-> In x payloads.

(** What [path.posix.join(dir, ...)] keeps of [dir]: the leading slash of
    an absolute path and the normalised segments. *)
Definition dirPrefix (dir : string) : string :=
  if Js.startsWith "/" dir then "/" else "".

Definition dirSegments (dir : string) : list string :=
  Path.normalizeSegments (negb (Js.startsWith "/" dir)) (Js.split Path.slash dir).

(* --------------------------------------------------------------------- *)
(** ** Fixtures of the scenarios                                          *)
(* --------------------------------------------------------------------- *)

Definition bytesOf (s : string) : list byte := list_byte_of_string s.

(** A transport that never fails and answers in one tick; its own listing
    is empty. *)
Definition reliable : S3 :=
  mkS3 (fun _ => []) (fun _ => None) (fun _ => None) (fun _ => 0%nat) 0%nat.

(** The store that holds [objects], pages of 1000 keys, no failure. *)
Definition storeOf (objects : gmap string (list byte)) : S3 :=
  serving 1000 objects (fun _ => None) (fun _ => 0%nat) 0%nat.

(** The bucket after the upload service has published [tree] under [id]. *)
Definition uploadedBucket (tree : list Dirent) (id : string) : gmap string (list byte) :=
  applyPuts (fst (Uploader.uploadDirectory reliable ("/srv/output/" +:+ id) tree id 0%nat)) ∅.

(** A repository with one empty file. *)
Definition keepTree : list Dirent := [File ".gitkeep" []].

Definition emptyWorld : World := mkWorld ∅ ∅ [] [].

(** Three files of 450 bytes in all. *)
Definition threeFiles : list Dirent :=
  [File "a.txt" (repeat "a"%byte 100); File "b.txt" (repeat "b"%byte 150);
   Directory "src" [File "c.txt" (repeat "c"%byte 200)]].

(** A worker whose object store holds the three files under ["abc123"],
    and on which the build of every job exits with [code] and leaves the
    directory [dist] (or none) behind. *)
Definition workerHost (code : Z) (dist : option (list Dirent)) : Orchestrator.Host :=
  Orchestrator.mkHost (storeOf (uploadedBucket threeFiles "abc123"))
    (fun _ => true) (fun _ => code) (fun _ => dist)
    "2024-05-01T10:20:30.456Z" "/srv" (fun _ => None).

(** A submission whose clone yields the three files, on a broker that
    rejects the push when [pushError] is set. *)
Definition submissionHost (pushError : option Error) : UploadController.Host :=
  UploadController.mkHost "abc123" (fun _ _ => Ok threeFiles) reliable pushError
    "/srv" 1000 1450.

(** A store that lists six objects of 10 bytes under ["job"] on a single
    page, with any failures and latencies. *)
Definition sixKeys : list string :=
  ["job/f0"; "job/f1"; "job/f2"; "job/f3"; "job/f4"; "job/f5"].

Definition sixObjects : list S3Object :=
  map (fun key => mkObject (Some key) (Some 10)) sixKeys.

Definition sixObjectStore (fail : string -> option Error) (latency : string -> nat)
    (listLatency : nat) : S3 :=
  mkS3 (fun _ => [Ok (mkListing (Some sixObjects) false None)])
       (fun _ => Some (repeat "x"%byte 10)) fail latency listLatency.

(** A tree of two directories of five files each, and a flat directory of
    six files. *)
Definition fiveFiles : list Dirent :=
  [File "f0" (bytesOf "0"); File "f1" (bytesOf "1"); File "f2" (bytesOf "2");
   File "f3" (bytesOf "3"); File "f4" (bytesOf "4")].

Definition twoByFive : list Dirent := [Directory "a" fiveFiles; Directory "b" fiveFiles].

Definition sixFiles : list Dirent := fiveFiles ++ [File "f5" (bytesOf "5")].

(** Failure injection: the transfer of [key] fails with ["SlowDown"]. *)
Definition failingOn (key : string) : string -> option Error :=
  fun k => if String.eqb k key then Some "SlowDown" else None.

(** A transport on which the upload of [job/f0] fails. *)
Definition f0Fails : S3 :=
  mkS3 (fun _ => []) (fun _ => None) (failingOn "job/f0") (fun _ => 0%nat) 0%nat.


(** A store that lists the six objects on two pages of three, and on which
    the download of [job/f0] fails. *)
Definition twoPagesF0Fails : S3 :=
  mkS3 (fun _ => [Ok (mkListing (Some (take 3 sixObjects)) true (Some "next"));
                  Ok (mkListing (Some (drop 3 sixObjects)) false None)])
       (fun _ => Some (repeat "x"%byte 10)) (failingOn "job/f0") (fun _ => 0%nat) 0%nat.

(** The same store when a listing call takes two ticks: the download of
    [job/f0] is rejected one tick before the second page arrives. *)
Definition slowListingF0Fails : S3 :=
  mkS3 (s3_list twoPagesF0Fails) (s3_body twoPagesF0Fails) (s3_fail twoPagesF0Fails)
       (s3_latency twoPagesF0Fails) 1%nat.

(** A worker on that store; every build exits with code 0 and leaves a
    [dist] directory with one page. *)
Definition slowListingHost : Orchestrator.Host :=
  Orchestrator.mkHost slowListingF0Fails (fun _ => true) (fun _ => 0)
    (fun _ => Some [File "index.html" (bytesOf "<html>")])
    "2024-05-01T10:20:30.456Z" "/srv" (fun _ => None).

(** The key, the start and end ticks and the error of a transfer. *)
Definition timeline (trs : list Transfer) : list (string * nat * nat * option Error) :=
  map (fun tr => (tr_key tr, tr_start tr, tr_end tr, tr_error tr)) trs.

(* --------------------------------------------------------------------- *)
(** ** Request service: the content type of a response ([src/controllers/serve.ts]) *)
(* --------------------------------------------------------------------- *)

Module ServeContent.

(** [s.endsWith(suffix)]. *)
Definition endsWith (suffix s : string) : bool :=
  (String.length suffix <=? String.length s)%nat
  && String.eqb (Js.slice (String.length s - String.length suffix) s) suffix.

(** The chain of tests on [filePath] that chooses the [Content-Type]. *)
Definition contentTypeOf (filePath : string) : string :=
  if endsWith ".html" filePath then "text/html"
  else if endsWith ".css" filePath then "text/css"
  else if endsWith ".js" filePath then "application/javascript"
  else if endsWith ".json" filePath then "application/json"
  else if endsWith ".png" filePath then "image/png"
  else if endsWith ".jpg" filePath || endsWith ".jpeg" filePath then "image/jpeg"
  else if endsWith ".svg" filePath then "image/svg+xml"
  else "application/octet-stream".

(** What the client receives: the status code, the [Content-Type] the
    controller sets (none on the error path) and the bytes or the message. *)
Inductive Reply : Type :=
| Reply200 (contentType : string) (body : list byte)
| Reply404 (message : string).

Definition respond (s3 : S3) (hostname filePath : string) : Reply :=
  match Serve.serveFileController s3 hostname filePath with
  | Serve.Served body => Reply200 (contentTypeOf filePath) body
  | Serve.NotFound message => Reply404 message
  end.

End ServeContent.

(** The extensions the content server knows, each with its type. *)
Definition knownExtensions : list (string * string) :=
  [(".html", "text/html"); (".css", "text/css"); (".js", "application/javascript");
   (".json", "application/json"); (".png", "image/png"); (".jpg", "image/jpeg");
   (".jpeg", "image/jpeg"); (".svg", "image/svg+xml")].

(* --------------------------------------------------------------------- *)
(** ** Upload service: the status endpoint ([src/index.ts])               *)
(* --------------------------------------------------------------------- *)

(** [GET /status?id=...]: the [status] field of the answer, [null] being
    [None]. *)
Definition statusEndpoint (id : string) (w : World) : option string := status w !! id.

(** The identifiers taken from the build queue, and those put on it,
    oldest first. *)
Definition popped (events : list Event) : list string :=
  omap (fun ev => match ev with BrPop _ value => Some value | _ => None end) events.

Definition pushed (events : list Event) : list string :=
  omap (fun ev => match ev with LPush _ value => Some value | _ => None end) events.

(** The world after the submissions of [ids] have reached their [lPush],
    one after the other. *)
Definition submitAll (ids : list string) (w : World) : World :=
  fold_left (fun w id => lPush id w) ids w.

(** A bucket with the sources of two jobs, the identifier of the second
    extending that of the first. *)
Definition twoJobsBucket : gmap string (list byte) :=
  <["abc/a.txt" := bytesOf "first"]> (<["abcd/b.txt" := bytesOf "second"]> ∅).

(** An awaited operation that is a single transport call, in flight from
    the tick at which it is awaited until its promise settles. *)
Definition singleTransfer (op : Async unit) : Prop :=
  forall t, exists tr,
    fst (op t) = [tr] /\ tr_start tr = t /\ tr_end tr = fst (snd (op t))
    /\ (t < tr_end tr)%nat.

(** A directory that holds files only. *)
Definition flat (entries : list Dirent) : bool :=
  forallb (fun entry => negb (isDirectory entry)) entries.

(** An awaited operation whose transfers are, whenever it is started,
    those of [payloads], each once, in some order. *)
Definition transfersExactly (op : Async unit)
    (payloads : list (string * string * list byte * option Error)) : Prop :=
  forall t, Permutation (map payload (fst (op t))) payloads.

(** The indices that the chain of [processEntry] started at [index]
    handles in a directory of [n] entries. *)
Fixpoint chainIndices (fuel n index : nat) : list nat :=
  match fuel with
  | O => []
  | S fuel' =>
      if (index <? n)%nat
      then index :: chainIndices fuel' n (index + Uploader.concurrencyLimit)
      else []
  end.

(** The key under which the publisher stores the file of the build output
    at the relative path [segments]: the joined path, every backslash
    turned into a slash. *)
Definition publishedKeyOf (id deploymentId : string) (segments : list string) : string :=
  Js.replaceAll DeployUploader.isBackslash Path.slash
    (String.concat "/" ("deployments" :: id :: deploymentId :: segments)).

(** A run whose promise, when fulfilled, settles after the last of its
    transfers has ended; and an awaited operation all of whose runs are
    such, and settle no earlier than they are started. *)
Definition quiescent (run : list Transfer * (nat * result unit)) : Prop :=
  is_ok (snd (snd run)) = true ->
  forall tr, In tr (fst run) -> (tr_end tr <= fst (snd run))%nat.

Definition orderly (op : Async unit) : Prop :=
  forall t, (t <= fst (snd (op t)))%nat /\ quiescent (op t).

(** A tree none of whose names holds a backslash. *)
Fixpoint backslashFree (entry : Dirent) : bool :=
  negb (hasChar "\"%char (dirent_name entry))
  && match entry with
     | File _ _ => true
     | Directory _ entries => forallb backslashFree entries
     end.

(* ===================================================================== *)
(** * Part II.  Properties                                                *)
(* ===================================================================== *)

(** ** Progress reporting *)

Lemma spaced_weaken interval last last' times :
  last' <= last -> spaced interval last times -> spaced interval last' times.
Proof.
  destruct times as [|t rest]; simpl; [tauto|]. intros Hle [H1 H2]. split; [lia|done].
Qed.

Lemma spaced_pairwise interval last times i j ti tj :
  0 <= interval -> spaced interval last times -> (i < j)%nat ->
  times !! i = Some ti -> times !! j = Some tj -> ti + interval <= tj.
Proof.
  intros Hpos. revert last i j.
  induction times as [|t rest IH]; intros last i j Hsp Hij Hi Hj; [done|].
  destruct Hsp as [Hlast Hrest].
  destruct j as [|j]; [lia|]. simpl in Hj.
  destruct i as [|i].
  - simpl in Hi. injection Hi as ->.
    clear IH Hlast Hij. revert ti j Hrest Hj.
    induction rest as [|u rest IH]; intros ti j Hrest Hj; [done|].
    destruct Hrest as [Hu Hrest]. destruct j as [|j]; simpl in Hj.
    + injection Hj as ->. done.
    + specialize (IH u j Hrest Hj). lia.
  - simpl in Hi. apply (IH t i j); [done|lia|done|done].
Qed.

Lemma upload_logProgress_step now stats :
  match Uploader.logProgress now stats with
  | (Some _, stats') =>
      Uploader.lastLogTime stats + Uploader.logIntervalMs <= now
      /\ Uploader.lastLogTime stats' = now
  | (None, stats') =>
      now < Uploader.lastLogTime stats + Uploader.logIntervalMs /\ stats' = stats
  end.
Proof.
  unfold Uploader.logProgress.
  destruct (Z.geb_spec (now - Uploader.lastLogTime stats) Uploader.logIntervalMs);
    simpl; split; try done; lia.
Qed.

Lemma download_logProgress_step now stats :
  match Downloader.logProgress now stats with
  | (Some _, stats') =>
      Downloader.lastLogTime stats + Downloader.logIntervalMs <= now
      /\ Downloader.lastLogTime stats' = now
  | (None, stats') =>
      now < Downloader.lastLogTime stats + Downloader.logIntervalMs /\ stats' = stats
  end.
Proof.
  unfold Downloader.logProgress.
  destruct (Z.geb_spec (now - Downloader.lastLogTime stats) Downloader.logIntervalMs);
    simpl; split; try done; lia.
Qed.

Lemma uploadCompletions_spaced events stats :
  spaced Uploader.logIntervalMs (Uploader.lastLogTime stats)
         (map fst (fst (uploadCompletions events stats))).
Proof.
  revert stats. induction events as [|[now size] rest IH]; intros stats; [done|].
  simpl. unfold Uploader.fileUploaded.
  set (counted := Uploader.mkStats _ _ _ _ _ _).
  pose proof (upload_logProgress_step now counted) as Hstep.
  destruct (Uploader.logProgress now counted) as [[p|] stats'].
  - destruct Hstep as [Hge Hlast]. specialize (IH stats').
    destruct (uploadCompletions rest stats') as [later final]. simpl in *.
    split; [done|]. by rewrite <- Hlast.
  - destruct Hstep as [_ ->]. specialize (IH counted).
    destruct (uploadCompletions rest counted) as [later final]. done.
Qed.

Lemma downloadCompletions_spaced events stats :
  spaced Downloader.logIntervalMs (Downloader.lastLogTime stats)
         (map fst (fst (downloadCompletions events stats))).
Proof.
  revert stats. induction events as [|[now size] rest IH]; intros stats; [done|].
  simpl. unfold Downloader.fileDownloaded.
  set (counted := Downloader.mkStats _ _ _ _ _ _).
  pose proof (download_logProgress_step now counted) as Hstep.
  destruct (Downloader.logProgress now counted) as [[p|] stats'].
  - destruct Hstep as [Hge Hlast]. specialize (IH stats').
    destruct (downloadCompletions rest stats') as [later final]. simpl in *.
    split; [done|]. by rewrite <- Hlast.
  - destruct Hstep as [_ ->]. specialize (IH counted).
    destruct (downloadCompletions rest counted) as [later final]. done.
Qed.

(** C8.  In both engines the progress report is emitted only when at least
    [logIntervalMs] (2000 ms) has passed since the last emission, and the
    emission stamps [lastLogTime] with the current clock; hence, whatever
    the burst of file completions, any two observations emitted during a
    sync call are at least one interval apart. *)
Theorem progress_throttled_per_interval :
  forall (events : list (Z * Z)) (now : Z)
         (up : Uploader.UploadStats) (down : Downloader.DownloadStats),
    match Uploader.logProgress now up with
    | (Some _, up') =>
        Uploader.lastLogTime up + 2000 <= now /\ Uploader.lastLogTime up' = now
    | (None, up') => now < Uploader.lastLogTime up + 2000 /\ up' = up
    end
    /\ match Downloader.logProgress now down with
       | (Some _, down') =>
           Downloader.lastLogTime down + 2000 <= now
           /\ Downloader.lastLogTime down' = now
       | (None, down') => now < Downloader.lastLogTime down + 2000 /\ down' = down
       end
    /\ (forall i j ti tj,
          (i < j)%nat ->
          map fst (fst (uploadCompletions events up)) !! i = Some ti ->
          map fst (fst (uploadCompletions events up)) !! j = Some tj ->
          ti + 2000 <= tj)
    /\ (forall i j ti tj,
          (i < j)%nat ->
          map fst (fst (downloadCompletions events down)) !! i = Some ti ->
          map fst (fst (downloadCompletions events down)) !! j = Some tj ->
          ti + 2000 <= tj).
Proof.
  intros events now up down.
  split; [apply upload_logProgress_step|].
  split; [apply download_logProgress_step|].
  split; intros i j ti tj Hij Hi Hj.
  - eapply (spaced_pairwise Uploader.logIntervalMs); eauto using uploadCompletions_spaced.
    unfold Uploader.logIntervalMs; lia.
  - eapply (spaced_pairwise Downloader.logIntervalMs); eauto using downloadCompletions_spaced.
    unfold Downloader.logIntervalMs; lia.
Qed.

(** ** The statistics pass *)

(** Induction over directory trees. *)
Lemma Dirent_induction (P : Dirent -> Prop) :
  (forall name content, P (File name content)) ->
  (forall name entries, Forall P entries -> P (Directory name entries)) ->
  forall entry, P entry.
Proof.
  intros Hfile Hdir.
  fix IH 1. intros [name content|name entries]; [apply Hfile|].
  apply Hdir. induction entries as [|e es IHes]; constructor; [apply IH|apply IHes].
Qed.

Lemma calculateDirectoryStats_counts entries :
  Forall (fun entry => forall stats,
            Uploader.calculateEntryStats entry stats
            = Uploader.mkStats (Uploader.totalFiles stats + entryFileCount entry)
                (Uploader.filesUploaded stats)
                (Uploader.totalBytes stats + entryByteCount entry)
                (Uploader.bytesUploaded stats) (Uploader.startTime stats)
                (Uploader.lastLogTime stats)) entries ->
  forall stats,
    Uploader.calculateDirectoryStats entries stats
    = Uploader.mkStats (Uploader.totalFiles stats + fileCount entries)
        (Uploader.filesUploaded stats)
        (Uploader.totalBytes stats + byteCount entries)
        (Uploader.bytesUploaded stats) (Uploader.startTime stats)
        (Uploader.lastLogTime stats).
Proof.
  unfold Uploader.calculateDirectoryStats, fileCount, byteCount.
  induction 1 as [|e es He Hes IH]; intros stats; simpl.
  - destruct stats; simpl; f_equal; lia.
  - rewrite He, IH. simpl. f_equal; lia.
Qed.

Lemma calculateEntryStats_counts entry stats :
  Uploader.calculateEntryStats entry stats
  = Uploader.mkStats (Uploader.totalFiles stats + entryFileCount entry)
      (Uploader.filesUploaded stats)
      (Uploader.totalBytes stats + entryByteCount entry)
      (Uploader.bytesUploaded stats) (Uploader.startTime stats)
      (Uploader.lastLogTime stats).
Proof.
  revert stats. induction entry as [name content|name entries IH] using Dirent_induction;
    intros stats; [done|].
  simpl. apply (calculateDirectoryStats_counts entries IH).
Qed.

Lemma upload_statistics_pass now entries :
  Uploader.totalFiles (Uploader.statsAfterStatisticsPass now entries) = fileCount entries
  /\ Uploader.totalBytes (Uploader.statsAfterStatisticsPass now entries) = byteCount entries.
Proof.
  unfold Uploader.statsAfterStatisticsPass.
  rewrite calculateDirectoryStats_counts; [simpl; lia|].
  apply Forall_forall. intros e _ stats. apply calculateEntryStats_counts.
Qed.

Lemma countObject_fold objs stats :
  fold_left Downloader.countObject objs stats
  = Downloader.mkStats (Downloader.totalFiles stats + positiveCount objs)
      (Downloader.filesDownloaded stats)
      (Downloader.totalBytes stats + totalSize objs)
      (Downloader.bytesDownloaded stats) (Downloader.startTime stats)
      (Downloader.lastLogTime stats).
Proof.
  revert stats. unfold positiveCount, totalSize.
  induction objs as [|obj objs IH]; intros stats; simpl.
  - destruct stats; simpl; f_equal; lia.
  - rewrite IH. unfold Downloader.countObject, objectSize.
    rewrite filter_cons.
    destruct (decide (Downloader.sizeIsPositive obj = true)) as [Hpos|Hpos].
    + rewrite Hpos. unfold Downloader.sizeIsPositive in Hpos.
      destruct obj as [key [n|]]; simpl in *; [|done].
      destruct (Z.eqb_spec n 0), (Z.ltb_spec 0 n); try done.
      f_equal; lia.
    + apply not_true_is_false in Hpos. rewrite Hpos.
      unfold Downloader.sizeIsPositive in Hpos.
      destruct obj as [key [n|]]; simpl in *; [|f_equal; lia].
      destruct (Z.eqb_spec n 0), (Z.ltb_spec 0 n); try done; f_equal; lia.
Qed.

Lemma positiveCount_app xs ys :
  positiveCount (xs ++ ys) = positiveCount xs + positiveCount ys.
Proof. unfold positiveCount. rewrite filter_app, length_app. lia. Qed.

Lemma totalSize_app xs ys : totalSize (xs ++ ys) = totalSize xs + totalSize ys.
Proof.
  unfold totalSize. induction xs as [|x xs IH]; simpl; [done|]. rewrite IH. lia.
Qed.

Lemma calculateS3Stats_counts replies stats :
  listingCompletes replies = true ->
  Downloader.calculateS3Stats replies stats
  = Ok (Downloader.mkStats
          (Downloader.totalFiles stats + positiveCount (listedObjects replies))
          (Downloader.filesDownloaded stats)
          (Downloader.totalBytes stats + totalSize (listedObjects replies))
          (Downloader.bytesDownloaded stats) (Downloader.startTime stats)
          (Downloader.lastLogTime stats)).
Proof.
  revert stats. induction replies as [|[response|e] rest IH]; intros stats Hc; try done.
  simpl in *.
  assert (Hpage : (match Contents response with
                   | Some objs => fold_left Downloader.countObject objs stats
                   | None => stats
                   end) = fold_left Downloader.countObject (default [] (Contents response)) stats)
    by (by destruct (Contents response)).
  rewrite Hpage, countObject_fold. clear Hpage.
  destruct (IsTruncated response).
  - rewrite IH by done. simpl. rewrite positiveCount_app, totalSize_app. do 2 f_equal; lia.
  - rewrite app_nil_r. done.
Qed.

Lemma positiveCount_files objs :
  Forall (fun obj => wellListed obj = true) objs ->
  positiveCount objs = trueFileCount objs - emptyFileCount objs.
Proof.
  unfold positiveCount, trueFileCount, emptyFileCount.
  induction 1 as [|obj objs Hobj _ IH]; [done|].
  rewrite !filter_cons.
  assert (Hcase :
            (Downloader.sizeIsPositive obj = true /\ isDirectoryPlaceholder obj = false
             /\ isEmptyFile obj = false)
            \/ (Downloader.sizeIsPositive obj = false /\ isDirectoryPlaceholder obj = true
                /\ isEmptyFile obj = false)
            \/ (Downloader.sizeIsPositive obj = false /\ isDirectoryPlaceholder obj = false
                /\ isEmptyFile obj = true)).
  { destruct obj as [[key|] [n|]]; try done.
    unfold wellListed in Hobj. cbn [Key Size] in Hobj. apply Z.leb_le in Hobj.
    unfold Downloader.sizeIsPositive, isDirectoryPlaceholder, isEmptyFile. cbn [Key Size].
    destruct n as [|n|n]; [|by left|lia].
    cbn. destruct (Js.endsWithChar Path.slash key); cbn; auto. }
  destruct Hcase as [(-> & -> & ->)|[(-> & -> & ->)|(-> & -> & ->)]];
    repeat (destruct (decide _) as [?|?]; try done); cbn [length]; lia.
Qed.

(** The tree with the single empty file [.gitkeep] has one file for the
    upload pass and for the wording of the specification, and none for
    the download pass over the uploaded objects. *)
Example download_statistics_miss_empty_file :
  Uploader.totalFiles (Uploader.statsAfterStatisticsPass 0 keepTree) = 1
  /\ listedObjects (s3_list (storeOf (uploadedBucket keepTree "job")) "job")
     = [mkObject (Some "job/.gitkeep") (Some 0)]
  /\ trueFileCount (listedObjects (s3_list (storeOf (uploadedBucket keepTree "job")) "job")) = 1
  /\ Downloader.statsAfterStatisticsPass 0 (storeOf (uploadedBucket keepTree "job")) "job"
     = Ok (Downloader.mkStats 0 0 0 0 0 0).
Proof. vm_compute. repeat split; reflexivity. Qed.

(** C5.  What the code does on the failing inputs of the claim.  For a
    tree of any depth the upload tracker holds, after the statistics pass,
    the number of files of the tree and their total size.  For a listing
    that completes, the download tracker holds the total size of the listed
    objects, but its [totalFiles] falls short of the number of listed
    entries that are not directory placeholders by the number of ordinary
    empty files: a zero-byte object is left out of the count also when its
    key does not end with a slash. *)
Theorem download_statistics_leave_out_empty_files :
  forall (now : Z) (entries : list Dirent) (s3 : S3) (s3Prefix : string),
    listingCompletes (s3_list s3 s3Prefix) = true ->
    Forall (fun obj => wellListed obj = true) (listedObjects (s3_list s3 s3Prefix)) ->
    Uploader.totalFiles (Uploader.statsAfterStatisticsPass now entries) = fileCount entries
    /\ Uploader.totalBytes (Uploader.statsAfterStatisticsPass now entries) = byteCount entries
    /\ exists stats,
         Downloader.statsAfterStatisticsPass now s3 s3Prefix = Ok stats
         /\ Downloader.totalFiles stats
            = trueFileCount (listedObjects (s3_list s3 s3Prefix))
              - emptyFileCount (listedObjects (s3_list s3 s3Prefix))
         /\ Downloader.totalBytes stats = totalSize (listedObjects (s3_list s3 s3Prefix)).
Proof.
  intros now entries s3 s3Prefix Hcomplete Hlisted.
  destruct (upload_statistics_pass now entries) as [Hfiles Hbytes].
  split; [done|]. split; [done|].
  unfold Downloader.statsAfterStatisticsPass.
  rewrite calculateS3Stats_counts by done.
  eexists. split; [reflexivity|]. cbn [Downloader.totalFiles Downloader.totalBytes].
  rewrite positiveCount_files by done. cbn. split; lia.
Qed.

Lemma download_statistics_leave_out_empty_files_witness :
  Uploader.totalFiles
    (Uploader.statsAfterStatisticsPass 7 [Directory "src" [File "a.js" (bytesOf "ab")]; File "e" []])
  = 2
  /\ trueFileCount
       (listedObjects
          (s3_list
             (storeOf (uploadedBucket [Directory "src" [File "a.js" (bytesOf "ab")]; File "e" []]
                         "job")) "job")) = 2
  /\ exists stats,
       Downloader.statsAfterStatisticsPass 7
         (storeOf (uploadedBucket [Directory "src" [File "a.js" (bytesOf "ab")]; File "e" []] "job"))
         "job" = Ok stats
       /\ Downloader.totalFiles stats = 1 /\ Downloader.totalBytes stats = 2.
Proof.
  destruct (download_statistics_leave_out_empty_files 7
              [Directory "src" [File "a.js" (bytesOf "ab")]; File "e" []]
              (storeOf (uploadedBucket [Directory "src" [File "a.js" (bytesOf "ab")]; File "e" []] "job"))
              "job") as (Hup & _ & stats & Hdown & Hfiles & Hbytes).
  - vm_compute. reflexivity.
  - vm_compute. repeat constructor.
  - split; [exact Hup|]. split; [vm_compute; reflexivity|].
    exists stats. split; [exact Hdown|].
    split; [rewrite Hfiles|rewrite Hbytes]; vm_compute; reflexivity.
Defined.

(** ** The transfer pass of the download *)

Lemma pageLoop_concat s3 s3Prefix localDir t objs batch :
  concat (Downloader.pageLoop s3 s3Prefix localDir t objs batch)
  = batch ++ pageDownloads s3 s3Prefix localDir t objs.
Proof.
  revert batch. unfold pageDownloads.
  induction objs as [|obj objs IH]; intros batch; simpl.
  - destruct batch; simpl; [done|]. by rewrite !app_nil_r.
  - destruct (Downloader.eligibleKey obj) as [key|]; simpl; [|apply IH].
    match goal with |- context [if ?c then _ else _] => destruct c end.
    + simpl. rewrite IH. simpl. by rewrite <- app_assoc.
    + rewrite IH. by rewrite <- app_assoc.
Qed.

Lemma pageLoop_batches_bounded s3 s3Prefix localDir t objs batch :
  (length batch < Downloader.concurrencyLimit)%nat ->
  Forall (fun b => (length b <= Downloader.concurrencyLimit)%nat)
         (Downloader.pageLoop s3 s3Prefix localDir t objs batch).
Proof.
  revert batch.
  induction objs as [|obj objs IH]; intros batch Hlen; cbn [Downloader.pageLoop].
  - destruct (0 <? length batch)%nat; [|constructor]. constructor; [lia|constructor].
  - destruct (Downloader.eligibleKey obj) as [key|]; [|by apply IH].
    destruct (Nat.leb_spec Downloader.concurrencyLimit
                (length (batch ++ [Downloader.downloadFile s3 key
                   (Downloader.localFilePathOf s3Prefix localDir key) t]))) as [Hfull|Hfull].
    + constructor.
      * rewrite length_app. simpl. lia.
      * apply IH. unfold Downloader.concurrencyLimit. simpl. lia.
    + apply IH. done.
Qed.

Lemma eligibleKey_positive obj key :
  Downloader.eligibleKey obj = Some key ->
  Key obj = Some key /\ exists n, Size obj = Some n /\ 0 < n.
Proof.
  unfold Downloader.eligibleKey, Downloader.sizeIsPositive.
  destruct obj as [[k|] [n|]]; simpl; try done.
  - destruct (Js.truthy k); simpl; [|done].
    destruct (Z.eqb_spec n 0), (Z.ltb_spec 0 n); simpl; try done.
    intros [= ->]. eauto.
  - destruct (Js.truthy k); simpl; done.
Qed.

Lemma eligibleKey_not_positive obj :
  Downloader.sizeIsPositive obj = false -> Downloader.eligibleKey obj = None.
Proof.
  unfold Downloader.eligibleKey. intros ->. destruct (Key obj); [|done].
  by rewrite andb_false_r.
Qed.

Lemma pageLoop_filter s3 s3Prefix localDir t objs batch :
  Downloader.pageLoop s3 s3Prefix localDir t
    (filter (fun obj => Downloader.sizeIsPositive obj = true) objs) batch
  = Downloader.pageLoop s3 s3Prefix localDir t objs batch.
Proof.
  revert batch. induction objs as [|obj objs IH]; intros batch; [done|].
  rewrite filter_cons.
  destruct (decide (Downloader.sizeIsPositive obj = true)) as [Hpos|Hpos].
  - simpl. destruct (Downloader.eligibleKey obj); [|apply IH].
    match goal with |- context [if ?c then _ else _] => destruct c end;
      by rewrite IH.
  - apply not_true_is_false in Hpos. simpl.
    rewrite (eligibleKey_not_positive obj Hpos). apply IH.
Qed.

Lemma countObject_filter objs stats :
  fold_left Downloader.countObject
    (filter (fun obj => Downloader.sizeIsPositive obj = true) objs) stats
  = fold_left Downloader.countObject objs stats.
Proof.
  revert stats. induction objs as [|obj objs IH]; intros stats; [done|].
  rewrite filter_cons.
  destruct (decide (Downloader.sizeIsPositive obj = true)) as [Hpos|Hpos].
  - cbn [fold_left]. apply IH.
  - apply not_true_is_false in Hpos. cbn [fold_left].
    replace (Downloader.countObject stats obj) with stats; [apply IH|].
    unfold Downloader.countObject. by rewrite Hpos.
Qed.

Lemma calculateS3Stats_dropEmpty replies stats :
  Downloader.calculateS3Stats (map dropEmpty replies) stats
  = Downloader.calculateS3Stats replies stats.
Proof.
  revert stats. induction replies as [|[response|e] rest IH]; intros stats; try done.
  simpl. destruct (Contents response) as [objs|]; simpl.
  - rewrite countObject_filter. destruct (IsTruncated response); [apply IH|done].
  - destruct (IsTruncated response); [apply IH|done].
Qed.

Lemma listingCalls_dropEmpty replies :
  Downloader.listingCalls (map dropEmpty replies) = Downloader.listingCalls replies.
Proof.
  induction replies as [|[response|e] rest IH]; try done.
  simpl. destruct (IsTruncated response); [by rewrite IH|done].
Qed.

Lemma pageLoop_withoutEmptyObjects s3 s3Prefix localDir t objs batch :
  Downloader.pageLoop (withoutEmptyObjects s3) s3Prefix localDir t objs batch
  = Downloader.pageLoop s3 s3Prefix localDir t objs batch.
Proof.
  revert batch. induction objs as [|obj objs IH]; intros batch; [done|].
  cbn [Downloader.pageLoop]. destruct (Downloader.eligibleKey obj); [|apply IH].
  change (Downloader.downloadFile (withoutEmptyObjects s3))
    with (Downloader.downloadFile s3).
  by rewrite !IH.
Qed.

Lemma transferLoop_dropEmpty s3 s3Prefix localDir replies t promises :
  Downloader.transferLoop (withoutEmptyObjects s3) s3Prefix localDir (map dropEmpty replies)
    t promises
  = Downloader.transferLoop s3 s3Prefix localDir replies t promises.
Proof.
  revert t promises. induction replies as [|[response|e] rest IH]; intros t promises; try done.
  simpl. destruct (Contents response) as [objs|]; simpl.
  - rewrite pageLoop_withoutEmptyObjects, pageLoop_filter.
    destruct (IsTruncated response); [apply IH|done].
  - destruct (IsTruncated response); [apply IH|done].
Qed.

Lemma transferLoop_payloads s3 s3Prefix localDir replies t promises :
  map payload (Downloader.transfersOf
                 (fst (Downloader.transferLoop s3 s3Prefix localDir replies t promises)))
  = map payload (Downloader.transfersOf promises)
    ++ map (downloadPayload s3 s3Prefix localDir)
           (omap Downloader.eligibleKey (listedObjects replies)).
Proof.
  revert t promises. unfold Downloader.transfersOf.
  induction replies as [|[response|e] rest IH]; intros t promises; simpl;
    try (by rewrite app_nil_r).
  assert (Hpage : forall t',
    map payload
      (concat (map fst (concat (match Contents response with
                                | Some objs => Downloader.pageLoop s3 s3Prefix localDir t' objs []
                                | None => []
                                end))))
    = map (downloadPayload s3 s3Prefix localDir)
          (omap Downloader.eligibleKey (default [] (Contents response)))).
  { intros t'. destruct (Contents response) as [objs|]; [|done]. simpl.
    rewrite pageLoop_concat. simpl. unfold pageDownloads.
    induction (omap Downloader.eligibleKey objs) as [|key keys IHk]; [done|].
    simpl. by rewrite IHk. }
  destruct (IsTruncated response).
  - rewrite IH. rewrite concat_app, map_app, concat_app, map_app, Hpage.
    rewrite omap_app, map_app. by rewrite <- app_assoc.
  - simpl. rewrite concat_app, map_app, concat_app, map_app, Hpage.
    by rewrite app_nil_r.
Qed.

Lemma calculateS3Stats_fails replies stats :
  listingCompletes replies = false ->
  exists e, Downloader.calculateS3Stats replies stats = Err e.
Proof.
  revert stats. induction replies as [|[response|e] rest IH]; intros stats Hc; simpl in *;
    eauto.
  destruct (IsTruncated response); [by apply IH|done].
Qed.

Lemma downloadFromS3_payloads s3 s3Prefix localDir t :
  map payload (fst (Downloader.downloadFromS3 s3 s3Prefix localDir t))
  = if listingCompletes (s3_list s3 s3Prefix)
    then map (downloadPayload s3 s3Prefix localDir)
             (omap Downloader.eligibleKey (listedObjects (s3_list s3 s3Prefix)))
    else [].
Proof.
  unfold Downloader.downloadFromS3.
  destruct (listingCompletes (s3_list s3 s3Prefix)) eqn:Hc.
  - rewrite calculateS3Stats_counts by done.
    pose proof (transferLoop_payloads s3 s3Prefix localDir (s3_list s3 s3Prefix)
                  (t + Downloader.listingCalls (s3_list s3 s3Prefix) * (1 + s3_listLatency s3))
                  []) as Hp.
    destruct (Downloader.transferLoop _ _ _ _ _ _) as [batches [t2 r]].
    simpl in Hp. by destruct r.
  - destruct (calculateS3Stats_fails _ (Downloader.resetStats 0) Hc) as [e ->]. done.
Qed.

Lemma downloadFromS3_transfer_origin s3 s3Prefix localDir t tr :
  In tr (fst (Downloader.downloadFromS3 s3 s3Prefix localDir t)) ->
  exists obj n,
    In obj (listedObjects (s3_list s3 s3Prefix))
    /\ Key obj = Some (tr_key tr) /\ Size obj = Some n /\ 0 < n
    /\ tr_path tr = Downloader.localFilePathOf s3Prefix localDir (tr_key tr).
Proof.
  intros Hin. apply (in_map payload) in Hin.
  rewrite downloadFromS3_payloads in Hin.
  destruct (listingCompletes (s3_list s3 s3Prefix)); [|done].
  apply in_map_iff in Hin as (key & Hkey & Hin).
  apply list_elem_of_In, list_elem_of_omap in Hin as (obj & Hobj & Hel).
  apply eligibleKey_positive in Hel as (Hk & n & Hn & Hpos).
  unfold payload, downloadPayload in Hkey. injection Hkey as <- <- _ _.
  exists obj, n. repeat split; try done. by apply list_elem_of_In.
Qed.

Lemma applyWrites_origin trs files path content :
  applyWrites trs files !! path = Some content ->
  files !! path = Some content
  \/ exists tr, In tr trs /\ tr_path tr = path /\ tr_body tr = content /\ tr_error tr = None.
Proof.
  revert files. unfold applyWrites.
  induction trs as [|tr trs IH]; intros files; simpl; [by left|].
  intros H. apply IH in H as [H|(tr' & Hin & Hp)].
  - unfold applyWrite in H. destruct (tr_error tr) eqn:He; [by left|].
    destruct (decide (tr_path tr = path)) as [<-|Hne].
    + rewrite lookup_insert_eq in H. injection H as <-. right. exists tr. auto.
    + rewrite lookup_insert_ne in H by done. by left.
  - right. exists tr'. auto.
Qed.

(** C9.  The download treats every listed object without a positive size
    as if it were not listed: the statistics and the whole transfer pass
    are those of the listing with these objects removed; every call of
    [downloadFile] is for a listed object of positive size, and so is
    every local file the download creates, ordinary empty files included
    among the skipped objects. *)
Theorem zero_byte_objects_skipped :
  forall (s3 : S3) (s3Prefix localDir : string) (t : nat) (now : Z),
    Downloader.statsAfterStatisticsPass now (withoutEmptyObjects s3) s3Prefix
    = Downloader.statsAfterStatisticsPass now s3 s3Prefix
    /\ Downloader.downloadFromS3 (withoutEmptyObjects s3) s3Prefix localDir t
       = Downloader.downloadFromS3 s3 s3Prefix localDir t
    /\ (forall tr,
          In tr (fst (Downloader.downloadFromS3 s3 s3Prefix localDir t)) ->
          exists obj n,
            In obj (listedObjects (s3_list s3 s3Prefix))
            /\ Key obj = Some (tr_key tr) /\ Size obj = Some n /\ 0 < n)
    /\ (forall path content,
          applyWrites (fst (Downloader.downloadFromS3 s3 s3Prefix localDir t)) ∅ !! path
          = Some content ->
          exists obj key n,
            In obj (listedObjects (s3_list s3 s3Prefix))
            /\ Key obj = Some key /\ Size obj = Some n /\ 0 < n
            /\ path = Downloader.localFilePathOf s3Prefix localDir key).
Proof.
  intros s3 s3Prefix localDir t now. split; [|split; [|split]].
  - unfold Downloader.statsAfterStatisticsPass.
    change (s3_list (withoutEmptyObjects s3) s3Prefix)
      with (map dropEmpty (s3_list s3 s3Prefix)).
    apply calculateS3Stats_dropEmpty.
  - unfold Downloader.downloadFromS3.
    change (s3_list (withoutEmptyObjects s3) s3Prefix)
      with (map dropEmpty (s3_list s3 s3Prefix)).
    change (s3_listLatency (withoutEmptyObjects s3)) with (s3_listLatency s3).
    rewrite calculateS3Stats_dropEmpty, listingCalls_dropEmpty.
    destruct (Downloader.calculateS3Stats _ _); [|reflexivity].
    rewrite transferLoop_dropEmpty. reflexivity.
  - intros tr Hin.
    destruct (downloadFromS3_transfer_origin _ _ _ _ _ Hin) as (obj & n & H1 & H2 & H3 & H4 & _).
    exists obj, n. auto.
  - intros path content Hw.
    apply applyWrites_origin in Hw as [Hw|(tr & Hin & Hp & _)]; [done|].
    destruct (downloadFromS3_transfer_origin _ _ _ _ _ Hin) as (obj & n & H1 & H2 & H3 & H4 & H5).
    exists obj, (tr_key tr), n. rewrite <- Hp. repeat split; auto.
Qed.

(** ** The orchestrator *)

(** C1.  What the code does on the failing inputs of the claim: once the
    build command has exited with code 0, ["Deployed"] is written to the
    status hash before the output directory is looked for and before
    anything is published; it is there although [buildProject] rejects
    because the [dist] directory is missing or because the publication
    failed. *)
Theorem status_written_before_output_is_verified :
  forall (host : Orchestrator.Host) (id : string) (w : World),
    Orchestrator.host_outputDirExists host id = true ->
    Orchestrator.host_exitCode host id = 0 ->
    status (fst (Orchestrator.buildProject host id w)) !! id = Some "Deployed"
    /\ (Orchestrator.host_dist host id = None ->
        exists e, snd (Orchestrator.buildProject host id w) = Err e)
    /\ (forall entries e,
          Orchestrator.host_dist host id = Some entries ->
          snd (DeployUploader.uploadDistFolder (Orchestrator.host_s3 host)
                 (Some entries) id
                 (Some (Js.replaceAll Orchestrator.isColonOrDot "-"%char
                          (Orchestrator.host_isoString host)))
                 (bucket w)) = Err e ->
          snd (Orchestrator.buildProject host id w) = Err e).
Proof.
  intros host id w Hdir Hcode. unfold Orchestrator.buildProject.
  rewrite Hdir, Hcode. cbn [negb Z.eqb].
  destruct (Orchestrator.host_dist host id) as [entries|] eqn:Hdist.
  - cbn [bucket emit hSet setBucket].
    destruct (DeployUploader.uploadDistFolder _ _ _ _ _) as [b [[]|e']] eqn:Hup;
      cbn [fst snd status emit hSet setBucket]; rewrite lookup_insert_eq;
      (split; [reflexivity|]); (split; [discriminate|]);
      intros entries' e [= <-] He; rewrite Hup in He.
    + discriminate He.
    + injection He as ->. reflexivity.
  - cbn [fst snd status emit hSet setBucket]. rewrite lookup_insert_eq.
    split; [reflexivity|]. split; [eauto|]. discriminate.
Qed.

Lemma status_written_before_output_is_verified_witness :
  status (fst (Orchestrator.buildProject (workerHost 0 None) "abc123" emptyWorld)) !! "abc123"
  = Some "Deployed"
  /\ exists e, snd (Orchestrator.buildProject (workerHost 0 None) "abc123" emptyWorld) = Err e.
Proof.
  destruct (status_written_before_output_is_verified (workerHost 0 None) "abc123" emptyWorld)
    as (Hstatus & Hmissing & _); [reflexivity|reflexivity|].
  split; [exact Hstatus|]. apply Hmissing. reflexivity.
Defined.

(** Every failure of the per-job sequence that reaches the awaiting code
    leaves the [try] block as an exception: a rejected [brPop], a failed
    download, a failed build. *)
Lemma tryBlock_throws host n w :
  (forall e, Orchestrator.host_brPopError host n = Some e ->
             Orchestrator.tryBlock host n w = (w, Orchestrator.Thrown e))
  /\ (forall id rest e,
        Orchestrator.host_brPopError host n = None ->
        popRight (queue w) = Some (id, rest) ->
        Js.truthy id = true ->
        Downloader.unhandledRejection (Orchestrator.host_s3 host) id ("output/" +:+ id) 0%nat
        = None ->
        snd (snd (Downloader.downloadS3Folder (Orchestrator.host_s3 host) id 0%nat)) = Err e ->
        exists w', Orchestrator.tryBlock host n w = (w', Orchestrator.Thrown e))
  /\ (forall id rest e,
        Orchestrator.host_brPopError host n = None ->
        popRight (queue w) = Some (id, rest) ->
        Js.truthy id = true ->
        Downloader.unhandledRejection (Orchestrator.host_s3 host) id ("output/" +:+ id) 0%nat
        = None ->
        is_ok (snd (snd (Downloader.downloadS3Folder (Orchestrator.host_s3 host) id 0%nat)))
        = true ->
        snd (Orchestrator.buildProject host id
               (emit (LogInfo ("Received message from build queue: " +:+ id))
                  (emit (BrPop "build-queue" id)
                     (mkWorld (bucket w) (status w) rest (trace w))))) = Err e ->
        exists w', Orchestrator.tryBlock host n w = (w', Orchestrator.Thrown e)).
Proof.
  unfold Orchestrator.tryBlock. repeat split.
  - intros e ->. done.
  - intros id rest e -> -> -> -> ->. eauto.
  - intros id rest e -> -> -> -> Hok Hbuild.
    destruct (snd (snd (Downloader.downloadS3Folder _ _ _))); [|done].
    destruct (Orchestrator.buildProject _ _ _) as [w' r]. simpl in Hbuild. subst r. eauto.
Qed.

(** An exception of the [try] block is caught: it is logged, the loop
    pauses 5000 ms and goes on with the next [brPop]. *)
Lemma thrown_is_caught host fuel n w w' e :
  Orchestrator.tryBlock host n w = (w', Orchestrator.Thrown e) ->
  Orchestrator.main host (S fuel) n w
  = Orchestrator.main host fuel (S n)
      (emit (Sleep 5000)
         (emit (LogError ("Error processing build queue message: " +:+ e)) w')).
Proof.
  intros Htry. cbn [Orchestrator.main]. unfold Orchestrator.loopBody. rewrite Htry.
  reflexivity.
Qed.

(** The failure scenario: the build of ["abc123"] exits with code 1.  After
    the iteration no status is recorded, the error was logged and followed
    by the pause, and the loop waits for the next job. *)
Example orchestrator_failure_scenario :
  let w0 := mkWorld ∅ ∅ ["abc123"] [] in
  let '(w, state) := Orchestrator.main (workerHost 1 (Some [])) 3 0 w0 in
  state = Orchestrator.Waiting
  /\ status w !! "abc123" = None
  /\ queue w = []
  /\ drop 5 (trace w)
     = [LogError "Error processing build queue message: Build failed for project abc123 with exit code 1";
        Sleep 5000].
Proof. vm_compute. repeat split; reflexivity. Qed.

(** The success scenario: the build exits with code 0 and leaves a [dist]
    directory, which is published under [deployments/abc123/<timestamp>]. *)
Example orchestrator_success_scenario :
  let w0 := mkWorld ∅ ∅ ["abc123"] [] in
  let dist := [File "index.html" (bytesOf "<html>"); Directory "assets" [File "app.js" (bytesOf "x")]] in
  let '(w, state) := Orchestrator.main (workerHost 0 (Some dist)) 3 0 w0 in
  state = Orchestrator.Waiting
  /\ status w !! "abc123" = Some "Deployed"
  /\ size (bucket w) = 2%nat
  /\ bucket w !! "deployments/abc123/2024-05-01T10-20-30-456Z/index.html"
     = Some (bytesOf "<html>")
  /\ bucket w !! "deployments/abc123/2024-05-01T10-20-30-456Z/assets/app.js"
     = Some (bytesOf "x").
Proof. vm_compute. repeat split; reflexivity. Qed.

(** ** The submission handler *)

(** C6.  What the code does on the failing input of the claim: when the
    clone and the upload succeed and the broker rejects the push, the
    handler still answers with the success response [{ id,
    processingTimeMs }] and the identifier is not on the queue; the cause
    reaches neither the caller nor the log. *)
Theorem rejected_push_answers_success :
  forall (host : UploadController.Host) (repoUrl : string) (w : World)
         (tree : list Dirent) (cause : Error),
    UploadController.host_clone host repoUrl ("output/" +:+ UploadController.host_uuid host)
    = Ok tree ->
    is_ok (snd (snd (Uploader.uploadDirectory (UploadController.host_s3 host)
                       (Path.join (UploadController.host_cwd host)
                          ("output/" +:+ UploadController.host_uuid host))
                       tree (UploadController.host_uuid host) 0%nat))) = true ->
    UploadController.host_lPushError host = Some cause ->
    snd (UploadController.uploadController host repoUrl w)
    = UploadController.Json200 (UploadController.host_uuid host)
        (UploadController.host_endTime host - UploadController.host_startTime host)
    /\ queue (fst (UploadController.uploadController host repoUrl w)) = queue w.
Proof.
  intros host repoUrl w tree cause Hclone Hupload Hpush.
  unfold UploadController.uploadController. rewrite Hclone.
  destruct (Uploader.uploadDirectory _ _ _ _ _) as [transfers [t [[]|e]]]; [|done].
  rewrite Hpush. split; reflexivity.
Qed.

Lemma rejected_push_answers_success_witness :
  snd (UploadController.uploadController (submissionHost (Some "ECONNREFUSED"))
         "https://example/repo.git" emptyWorld)
  = UploadController.Json200 "abc123" 450
  /\ queue (fst (UploadController.uploadController (submissionHost (Some "ECONNREFUSED"))
                   "https://example/repo.git" emptyWorld)) = [].
Proof.
  apply (rejected_push_answers_success (submissionHost (Some "ECONNREFUSED"))
           "https://example/repo.git" emptyWorld threeFiles "ECONNREFUSED");
    vm_compute; reflexivity.
Defined.

(** The submission scenario, on a broker that accepts the push: three
    objects under the identifier, one push, the success response. *)
Example submission_scenario :
  let '(w, response) :=
    UploadController.uploadController (submissionHost None) "https://example/repo.git"
      emptyWorld in
  response = UploadController.Json200 "abc123" 450
  /\ queue w = ["abc123"]
  /\ size (bucket w) = 3%nat
  /\ option_map (@length byte) (bucket w !! "abc123/a.txt") = Some 100%nat
  /\ option_map (@length byte) (bucket w !! "abc123/b.txt") = Some 150%nat
  /\ option_map (@length byte) (bucket w !! "abc123/src/c.txt") = Some 200%nat.
Proof. vm_compute. repeat split; reflexivity. Qed.

(** A failed clone or a failed upload is answered with the failure
    response carrying the cause. *)
Lemma submission_failures_surface host repoUrl w :
  (forall cause,
     UploadController.host_clone host repoUrl ("output/" +:+ UploadController.host_uuid host)
     = Err cause ->
     snd (UploadController.uploadController host repoUrl w)
     = UploadController.Json500 "Failed to process the upload" cause
         (UploadController.host_endTime host - UploadController.host_startTime host))
  /\ (forall tree cause,
        UploadController.host_clone host repoUrl ("output/" +:+ UploadController.host_uuid host)
        = Ok tree ->
        snd (snd (Uploader.uploadDirectory (UploadController.host_s3 host)
                    (Path.join (UploadController.host_cwd host)
                       ("output/" +:+ UploadController.host_uuid host))
                    tree (UploadController.host_uuid host) 0%nat)) = Err cause ->
        snd (UploadController.uploadController host repoUrl w)
        = UploadController.Json500 "Failed to process the upload" cause
            (UploadController.host_endTime host - UploadController.host_startTime host)).
Proof.
  unfold UploadController.uploadController. split.
  - intros cause ->. reflexivity.
  - intros tree cause -> Hup.
    destruct (Uploader.uploadDirectory _ _ _ _ _) as [transfers [t r]].
    simpl in Hup. subst r. reflexivity.
Qed.

(** ** Transfers in flight *)

Lemma inFlight_app trs1 trs2 tick :
  inFlight (trs1 ++ trs2) tick = (inFlight trs1 tick + inFlight trs2 tick)%nat.
Proof. unfold inFlight. by rewrite filter_app, length_app. Qed.

Lemma inFlight_all trs tick :
  Forall (fun tr => tr_start tr = tick /\ (tick < tr_end tr)%nat) trs ->
  inFlight trs tick = length trs.
Proof.
  unfold inFlight. induction 1 as [|tr trs [Hs He] _ IH]; [done|].
  rewrite filter_cons. rewrite decide_True.
  - simpl. by rewrite IH.
  - unfold inFlightAt. rewrite Hs.
    apply andb_true_iff. split; [by apply Nat.leb_le|by apply Nat.ltb_lt].
Qed.

Lemma fold_max_ge {A} (f : A -> nat) (l : list A) (x : A) :
  In x l -> (f x <= fold_right Nat.max 0 (map f l))%nat.
Proof.
  induction l as [|y l IH]; simpl; [done|].
  intros [->|Hin]; [lia|]. specialize (IH Hin). lia.
Qed.

Lemma highWaterMark_ge trs tr :
  In tr trs -> (inFlight trs (tr_start tr) <= highWaterMark trs)%nat.
Proof.
  intros Hin. unfold highWaterMark.
  apply (fold_max_ge (fun tr' => inFlight trs (tr_start tr')) trs tr Hin).
Qed.

Lemma pageDownloads_started s3 s3Prefix localDir t objs :
  Forall (fun tr => tr_start tr = t /\ (t < tr_end tr)%nat)
         (concat (map fst (pageDownloads s3 s3Prefix localDir t objs))).
Proof.
  unfold pageDownloads.
  induction (omap Downloader.eligibleKey objs) as [|key keys IH]; simpl; [constructor|].
  constructor; [|exact IH]. simpl. split; [done|lia].
Qed.

Lemma pageDownloads_length s3 s3Prefix localDir t objs :
  length (concat (map fst (pageDownloads s3 s3Prefix localDir t objs)))
  = length (omap Downloader.eligibleKey objs).
Proof.
  unfold pageDownloads.
  induction (omap Downloader.eligibleKey objs) as [|key keys IH]; simpl; [done|].
  by rewrite IH.
Qed.

Lemma transferLoop_extends s3 s3Prefix localDir replies t promises :
  exists later,
    fst (Downloader.transferLoop s3 s3Prefix localDir replies t promises)
    = promises ++ later.
Proof.
  revert t promises. induction replies as [|[response|e] rest IH]; intros t promises;
    cbn [Downloader.transferLoop]; try (exists []; by rewrite app_nil_r).
  destruct (IsTruncated response).
  - destruct (IH (t + 1 + s3_listLatency s3)%nat
                (promises ++ match Contents response with
                             | Some objs =>
                                 Downloader.pageLoop s3 s3Prefix localDir
                                   (t + 1 + s3_listLatency s3) objs []
                             | None => []
                             end)) as [later Hlater].
    rewrite Hlater. rewrite <- app_assoc. eauto.
  - simpl. eauto.
Qed.

(** The transfers of the first page are all started at the tick at which
    the page arrives. *)
Lemma downloadFromS3_first_page s3 s3Prefix localDir t response rest objs :
  s3_list s3 s3Prefix = Ok response :: rest ->
  listingCompletes (Ok response :: rest) = true ->
  Contents response = Some objs ->
  exists later,
    fst (Downloader.downloadFromS3 s3 s3Prefix localDir t)
    = concat (map fst (pageDownloads s3 s3Prefix localDir
                         (t + Downloader.listingCalls (Ok response :: rest)
                              * (1 + s3_listLatency s3) + 1 + s3_listLatency s3)
                         objs))
      ++ later.
Proof.
  intros Hlist Hcomplete Hobjs. unfold Downloader.downloadFromS3. rewrite Hlist.
  rewrite calculateS3Stats_counts by done.
  set (t1 := (t + Downloader.listingCalls (Ok response :: rest) * (1 + s3_listLatency s3))%nat).
  cbn [Downloader.transferLoop]. rewrite Hobjs. cbn [app].
  set (page := Downloader.pageLoop s3 s3Prefix localDir (t1 + 1 + s3_listLatency s3) objs []).
  assert (Hpage : Downloader.transfersOf page
                  = concat (map fst (pageDownloads s3 s3Prefix localDir
                                       (t1 + 1 + s3_listLatency s3) objs))).
  { unfold Downloader.transfersOf, page. by rewrite pageLoop_concat. }
  destruct (IsTruncated response).
  - destruct (transferLoop_extends s3 s3Prefix localDir rest (t1 + 1 + s3_listLatency s3) page)
      as [later Hlater].
    destruct (Downloader.transferLoop _ _ _ rest _ _) as [batches [t2 r]].
    simpl in Hlater. subst batches.
    exists (Downloader.transfersOf later).
    assert (Hsplit : Downloader.transfersOf (page ++ later)
                     = Downloader.transfersOf page ++ Downloader.transfersOf later).
    { unfold Downloader.transfersOf. by rewrite concat_app, map_app, concat_app. }
    destruct r; cbn [fst]; by rewrite Hsplit, Hpage.
  - exists []. cbn [fst]. by rewrite app_nil_r, Hpage.
Qed.

(** C2.  What the code does on the failing inputs of the claim: every
    eligible object of a listing page is handed to [downloadFile] in the
    same synchronous loop, so the transfers in flight reach the number of
    eligible objects of the first page, whatever the latencies are; the
    batches of five only group the promises. *)
Theorem download_page_in_flight_at_once :
  forall (s3 : S3) (s3Prefix localDir : string) (t : nat)
         (response : ListObjectsV2Output) (rest : list (result ListObjectsV2Output))
         (objs : list S3Object),
    s3_list s3 s3Prefix = Ok response :: rest ->
    listingCompletes (Ok response :: rest) = true ->
    Contents response = Some objs ->
    (length (omap Downloader.eligibleKey objs)
     <= highWaterMark (fst (Downloader.downloadFromS3 s3 s3Prefix localDir t)))%nat.
Proof.
  intros s3 s3Prefix localDir t response rest objs Hlist Hcomplete Hobjs.
  destruct (downloadFromS3_first_page s3 s3Prefix localDir t response rest objs
              Hlist Hcomplete Hobjs) as [later Htrs].
  rewrite Htrs.
  set (t' := (t + Downloader.listingCalls (Ok response :: rest) * (1 + s3_listLatency s3)
              + 1 + s3_listLatency s3)%nat) in *.
  pose proof (pageDownloads_started s3 s3Prefix localDir t' objs) as Hstarted.
  pose proof (pageDownloads_length s3 s3Prefix localDir t' objs) as Hlen.
  set (page := concat (map fst (pageDownloads s3 s3Prefix localDir t' objs))) in *.
  destruct page as [|tr page'] eqn:Hpage; [simpl in Hlen; lia|].
  rewrite <- Hlen.
  assert (Hin : In tr ((tr :: page') ++ later)) by (left; done).
  apply highWaterMark_ge in Hin.
  assert (Hstart : tr_start tr = t') by (by inversion Hstarted as [|? ? [? ?]]).
  rewrite Hstart in Hin.
  rewrite inFlight_app, (inFlight_all _ _ Hstarted) in Hin. lia.
Qed.

Lemma download_page_in_flight_at_once_witness :
  (6 <= highWaterMark
          (fst (Downloader.downloadFromS3 (sixObjectStore (fun _ => None) (fun _ => 0%nat) 0%nat)
                  "job" "output/job" 0%nat)))%nat.
Proof.
  apply (download_page_in_flight_at_once
           (sixObjectStore (fun _ => None) (fun _ => 0%nat) 0%nat) "job" "output/job" 0%nat
           (mkListing (Some sixObjects) false None) [] sixObjects);
    reflexivity.
Defined.

(** The six downloads of the one-page listing, whatever the failures and
    the latencies: all start at the tick the page arrives. *)
Example six_downloads_in_flight fail latency listLatency t :
  map tr_key (fst (Downloader.downloadFromS3 (sixObjectStore fail latency listLatency)
                     "job" "output/job" t)) = sixKeys
  /\ inFlight (fst (Downloader.downloadFromS3 (sixObjectStore fail latency listLatency)
                      "job" "output/job" t))
              (t + 1 * (1 + listLatency) + 1 + listLatency) = 6%nat.
Proof.
  split; [reflexivity|].
  apply (inFlight_all _ _ (pageDownloads_started (sixObjectStore fail latency listLatency)
                             "job" "output/job" _ sixObjects)).
Qed.

(** ** Failures of single transfers *)

Lemma firstRejection_Some ps t e :
  firstRejection ps = Some (t, e) -> In (t, Err e) ps.
Proof.
  induction ps as [|[t' [[]|e']] ps IH]; simpl; [done| |].
  - intros H. right. by apply IH.
  - destruct (firstRejection ps) as [[t'' e'']|].
    + destruct (t'' <? t')%nat.
      * intros [= -> ->]. right. by apply IH.
      * intros [= -> ->]. by left.
    + intros [= -> ->]. by left.
Qed.

Lemma firstRejection_None ps t r :
  firstRejection ps = None -> In (t, r) ps -> is_ok r = true.
Proof.
  induction ps as [|[t' [[]|e']] ps IH]; simpl; [done| |].
  - intros H [[= <- <-]|Hin]; [done|]. by apply IH.
  - destruct (firstRejection ps) as [[t'' e'']|]; [|done].
    by destruct (t'' <? t')%nat.
Qed.

Lemma promiseAll_settlesWithFailures runs t :
  Forall settlesWithFailures runs ->
  settlesWithFailures (concat (map fst runs), promiseAll (map snd runs) t).
Proof.
  intros Hruns. unfold promiseAll. split; cbn [fst snd].
  - intros e He.
    destruct (firstRejection (map snd runs)) as [[t' e']|] eqn:Hfirst; [|done].
    injection He as ->. apply firstRejection_Some in Hfirst.
    apply in_map_iff in Hfirst as ([trs [t'' r]] & Heq & Hrun).
    simpl in Heq. injection Heq as -> ->.
    destruct (proj1 (List.Forall_forall _ _) Hruns _ Hrun) as [Herr _].
    destruct (Herr e eq_refl) as (tr & Htr & Hfailed). exists tr. split; [|done].
    apply in_concat. exists trs. split; [|done].
    apply (in_map fst) in Hrun. exact Hrun.
  - intros tr Hin Hfailed.
    apply in_concat in Hin as (trs & Htrs & Hin).
    apply in_map_iff in Htrs as ([trs' [t' r]] & Heq & Hrun). simpl in Heq. subst trs'.
    destruct (proj1 (List.Forall_forall _ _) Hruns _ Hrun) as [_ Hfail].
    specialize (Hfail tr Hin Hfailed). simpl in Hfail.
    destruct (firstRejection (map snd runs)) as [[t'' e'']|] eqn:Hfirst; [done|].
    assert (Hok : is_ok r = true).
    { eapply (firstRejection_None _ t' r Hfirst).
      apply in_map_iff. exists (trs, (t', r)). split; [done|exact Hrun]. }
    congruence.
Qed.

Lemma processEntry_reportsFailures fuel entries index :
  Forall reportsFailures entries ->
  reportsFailures (Uploader.processEntry fuel entries index).
Proof.
  intros Hentries. revert index.
  induction fuel as [|fuel IH]; intros index t; cbn [Uploader.processEntry].
  - split; [done|]. intros tr [].
  - destruct (entries !! index) as [entry|] eqn:Hentry; [|split; [done|intros tr []]].
    assert (Hrep : reportsFailures entry).
    { exact (Forall_lookup_1 _ _ _ _ Hentries Hentry). }
    specialize (Hrep t). cbv zeta. destruct (entry t) as [trs1 [t1 r1]]. cbn [fst snd].
    specialize (IH (index + Uploader.concurrencyLimit)%nat t1).
    destruct (Uploader.processEntry fuel entries _ t1) as [trs2 [t2 r2]].
    destruct Hrep as [Herr1 Hfail1], IH as [Herr2 Hfail2].
    cbn [fst snd] in *. split; cbn [fst snd].
    + intros e He. destruct r2 as [[]|e2].
      * destruct (Herr1 e He) as (tr & Hin & Htr). exists tr. split; [|done].
        apply in_or_app. by left.
      * injection He as ->. destruct (Herr2 e eq_refl) as (tr & Hin & Htr).
        exists tr. split; [|done]. apply in_or_app. by right.
    + intros tr Hin Hfailed. apply in_app_or in Hin as [Hin|Hin].
      * specialize (Hfail1 tr Hin Hfailed). destruct r2; [|done]. done.
      * specialize (Hfail2 tr Hin Hfailed). by destruct r2.
Qed.

Lemma transferPass_reportsFailures entries :
  Forall reportsFailures entries -> reportsFailures (Uploader.transferPass entries).
Proof.
  intros Hentries t. unfold Uploader.transferPass.
  apply promiseAll_settlesWithFailures.
  apply List.Forall_forall. intros run Hrun.
  apply in_map_iff in Hrun as (i & <- & _).
  by apply processEntry_reportsFailures.
Qed.

Lemma uploadEntry_reportsFailures s3 dirPath s3Prefix entry :
  reportsFailures (Uploader.uploadEntry s3 dirPath s3Prefix entry).
Proof.
  revert dirPath s3Prefix.
  induction entry as [name content|name entries IH] using Dirent_induction;
    intros dirPath s3Prefix.
  - intros t. cbn [Uploader.uploadEntry]. unfold Uploader.uploadFile.
    split; cbn [fst snd].
    + intros e He. eexists. split; [left; reflexivity|]. cbn [tr_error].
      destruct (s3_fail s3 _) as [e'|]; [by injection He as ->|done].
    + intros tr [<-|[]] [e He]. cbn [tr_error] in He. by rewrite He.
  - cbn [Uploader.uploadEntry]. apply transferPass_reportsFailures.
    apply List.Forall_forall. intros op Hop.
    apply in_map_iff in Hop as (entry & <- & Hin).
    exact (proj1 (List.Forall_forall _ _) IH entry Hin _ _).
Qed.

Lemma uploadDirectory_reportsFailures s3 dirPath entries s3Prefix :
  reportsFailures (Uploader.uploadDirectory s3 dirPath entries s3Prefix).
Proof.
  unfold Uploader.uploadDirectory. apply transferPass_reportsFailures.
  apply List.Forall_forall. intros op Hop.
  apply in_map_iff in Hop as (entry & <- & _). apply uploadEntry_reportsFailures.
Qed.

Lemma downloadFile_settlesWithFailures s3 key path t :
  settlesWithFailures (Downloader.downloadFile s3 key path t).
Proof.
  unfold Downloader.downloadFile. split; cbn [fst snd].
  - intros e He. eexists. split; [left; reflexivity|]. cbn [tr_error].
    destruct (s3_fail s3 key) as [e'|]; [by injection He as ->|].
    destruct (s3_body s3 key); [done|]. by injection He as ->.
  - intros tr [<-|[]] [e He]. cbn [tr_error] in He. by rewrite He.
Qed.

Lemma transferLoop_completes s3 s3Prefix localDir replies t promises :
  listingCompletes replies = true ->
  is_ok (snd (snd (Downloader.transferLoop s3 s3Prefix localDir replies t promises))) = true.
Proof.
  revert t promises. induction replies as [|[response|e] rest IH]; intros t promises Hc;
    try done.
  cbn [Downloader.transferLoop]. simpl in Hc.
  destruct (IsTruncated response); [by apply IH|done].
Qed.

Lemma transferLoop_members s3 s3Prefix localDir replies t promises :
  Forall (Forall settlesWithFailures) promises ->
  Forall (Forall settlesWithFailures)
         (fst (Downloader.transferLoop s3 s3Prefix localDir replies t promises)).
Proof.
  revert t promises. induction replies as [|[response|e] rest IH]; intros t promises Hp;
    cbn [Downloader.transferLoop]; try done.
  assert (Hpage : Forall (Forall settlesWithFailures)
            (promises ++ match Contents response with
                         | Some objs =>
                             Downloader.pageLoop s3 s3Prefix localDir
                               (t + 1 + s3_listLatency s3) objs []
                         | None => []
                         end)).
  { apply Forall_app. split; [done|].
    destruct (Contents response) as [objs|]; [|constructor].
    apply Forall_concat.
    rewrite pageLoop_concat. cbn [app]. unfold pageDownloads.
    apply List.Forall_forall. intros run Hrun.
    apply in_map_iff in Hrun as (key & <- & _). apply downloadFile_settlesWithFailures. }
  destruct (IsTruncated response); [by apply IH|done].
Qed.

Lemma downloadFromS3_settles s3 s3Prefix localDir t :
  listingCompletes (s3_list s3 s3Prefix) = true ->
  settlesWithFailures (Downloader.downloadFromS3 s3 s3Prefix localDir t).
Proof.
  intros Hc. unfold Downloader.downloadFromS3.
  rewrite calculateS3Stats_counts by done.
  set (t1 := (t + _)%nat).
  pose proof (transferLoop_completes s3 s3Prefix localDir _ t1 [] Hc) as Hok.
  pose proof (transferLoop_members s3 s3Prefix localDir (s3_list s3 s3Prefix) t1 []
                ltac:(constructor)) as Hmembers.
  destruct (Downloader.transferLoop _ _ _ _ _ _) as [batches [t2 [[]|e]]]; [|done].
  cbn [fst] in Hmembers. clear Hok.
  assert (Htrs : Downloader.transfersOf batches
                 = concat (map fst (map (fun batch =>
                             (concat (map fst batch), Downloader.batchPromise t2 batch))
                             batches))).
  { unfold Downloader.transfersOf. rewrite map_map. cbn [fst].
    clear. induction batches as [|b bs IH]; [done|].
    cbn [concat map]. rewrite map_app, concat_app. by rewrite IH. }
  assert (Hres : map (Downloader.batchPromise t2) batches
                 = map snd (map (fun batch =>
                             (concat (map fst batch), Downloader.batchPromise t2 batch))
                             batches)).
  { by rewrite map_map. }
  rewrite Htrs, Hres. apply promiseAll_settlesWithFailures.
  apply List.Forall_forall. intros run Hrun.
  apply in_map_iff in Hrun as (batch & <- & Hbatch).
  unfold Downloader.batchPromise. apply promiseAll_settlesWithFailures.
  exact (proj1 (List.Forall_forall _ _) Hmembers batch Hbatch).
Qed.



(** ** Rejections that no handler takes *)

Lemma firstRejection_earliest ps t e :
  firstRejection ps = Some (t, e) ->
  forall t' e', In (t', Err e') ps -> (t <= t')%nat.
Proof.
  revert t e. induction ps as [|[t0 [[]|e0]] ps IH]; intros t e; cbn [firstRejection].
  - done.
  - intros Hfirst t' e' [[=]|Hin]. by eapply IH.
  - destruct (firstRejection ps) as [[t1 e1]|] eqn:Hrest.
    + destruct (Nat.ltb_spec t1 t0) as [Hlt|Hge]; intros [= <- <-] t' e' [[= <- <-]|Hin].
      * lia.
      * by eapply IH.
      * lia.
      * specialize (IH t1 e1 eq_refl t' e' Hin). lia.
    + intros [= <- <-] t' e' [[= <- <-]|Hin]; [lia|].
      by pose proof (firstRejection_None ps t' (Err e') Hrest Hin).
Qed.

Lemma firstRejection_is_Some ps t e :
  In (t, Err e) ps -> exists t' e', firstRejection ps = Some (t', e') /\ (t' <= t)%nat.
Proof.
  intros Hin. destruct (firstRejection ps) as [[t' e']|] eqn:Hfirst.
  - exists t', e'. split; [done|]. by eapply firstRejection_earliest.
  - by pose proof (firstRejection_None ps t (Err e) Hfirst Hin).
Qed.

Lemma transferLoop_downloads s3 s3Prefix localDir replies t promises :
  Forall (Forall (isDownload s3)) promises ->
  Forall (Forall (isDownload s3))
         (fst (Downloader.transferLoop s3 s3Prefix localDir replies t promises)).
Proof.
  revert t promises. induction replies as [|[response|e] rest IH]; intros t promises Hp;
    cbn [Downloader.transferLoop]; try done.
  assert (Hpage : Forall (Forall (isDownload s3))
            (promises ++ match Contents response with
                         | Some objs =>
                             Downloader.pageLoop s3 s3Prefix localDir
                               (t + 1 + s3_listLatency s3) objs []
                         | None => []
                         end)).
  { apply Forall_app. split; [done|].
    destruct (Contents response) as [objs|]; [|constructor].
    apply Forall_concat.
    rewrite pageLoop_concat. cbn [app]. unfold pageDownloads.
    apply List.Forall_forall. intros run Hrun.
    apply in_map_iff in Hrun as (key & <- & _). by eexists _, _, _. }
  destruct (IsTruncated response); [by apply IH|done].
Qed.

Lemma transferLoop_tick s3 s3Prefix localDir replies t promises :
  fst (snd (Downloader.transferLoop s3 s3Prefix localDir replies t promises))
  = (t + Downloader.listingCalls replies * (1 + s3_listLatency s3))%nat.
Proof.
  revert t promises. induction replies as [|[response|e] rest IH]; intros t promises;
    cbn [Downloader.transferLoop Downloader.listingCalls fst snd]; try lia.
  destruct (IsTruncated response); cbn [fst snd]; [|lia].
  rewrite IH. lia.
Qed.

(** The transfers of a download are those of the batches of its second
    loop, whatever becomes of the call. *)
Lemma downloadFromS3_batches s3 s3Prefix localDir t tr :
  In tr (fst (Downloader.downloadFromS3 s3 s3Prefix localDir t)) ->
  is_ok (Downloader.calculateS3Stats (s3_list s3 s3Prefix) (Downloader.resetStats 0)) = true
  /\ In tr (Downloader.transfersOf
              (fst (Downloader.transferLoop s3 s3Prefix localDir (s3_list s3 s3Prefix)
                      (t + Downloader.listingCalls (s3_list s3 s3Prefix)
                           * (1 + s3_listLatency s3)) []))).
Proof.
  unfold Downloader.downloadFromS3.
  destruct (Downloader.calculateS3Stats _ _) as [stats|e]; [|intros []].
  destruct (Downloader.transferLoop _ _ _ _ _ _) as [batches [t2 [[]|e]]]; cbn [fst]; done.
Qed.

Lemma batches_transfers s3 s3Prefix localDir t :
  is_ok (Downloader.calculateS3Stats (s3_list s3 s3Prefix) (Downloader.resetStats 0)) = true ->
  fst (Downloader.downloadFromS3 s3 s3Prefix localDir t)
  = Downloader.transfersOf
      (fst (Downloader.transferLoop s3 s3Prefix localDir (s3_list s3 s3Prefix)
              (t + Downloader.listingCalls (s3_list s3 s3Prefix)
                   * (1 + s3_listLatency s3)) [])).
Proof.
  unfold Downloader.downloadFromS3.
  destruct (Downloader.calculateS3Stats _ _) as [stats|e]; [intros _|done].
  by destruct (Downloader.transferLoop _ _ _ _ _ _) as [batches [t2 [[]|e]]].
Qed.

Lemma transfersOf_In batches tr :
  In tr (Downloader.transfersOf batches)
  <-> exists batch run, In batch batches /\ In run batch /\ In tr (fst run).
Proof.
  unfold Downloader.transfersOf. rewrite in_concat. split.
  - intros (trs & Htrs & Hin). apply in_map_iff in Htrs as (run & <- & Hrun).
    apply in_concat in Hrun as (batch & Hbatch & Hrun). eauto.
  - intros (batch & run & Hbatch & Hrun & Hin). exists (fst run). split; [|done].
    apply in_map. apply in_concat. eauto.
Qed.

(** A failed transfer that ends before the last listing reply arrives is
    a rejection without a handler, and such a rejection is always the
    failure of a transfer of the call. *)
Lemma failure_before_last_reply s3 s3Prefix localDir t tr :
  In tr (fst (Downloader.downloadFromS3 s3 s3Prefix localDir t)) ->
  is_Some (tr_error tr) ->
  (tr_end tr < lastReplyTick s3 s3Prefix t)%nat ->
  exists t' e, Downloader.unhandledRejection s3 s3Prefix localDir t = Some (t', e).
Proof.
  intros Hin [e0 Hfailed] Hbefore.
  apply downloadFromS3_batches in Hin as [Hstats Hin].
  unfold Downloader.unhandledRejection.
  destruct (Downloader.calculateS3Stats _ _) as [stats|]; [clear Hstats|done].
  cbv zeta. rewrite transferLoop_tick.
  set (t1 := (t + _ * _)%nat) in *.
  pose proof (transferLoop_downloads s3 s3Prefix localDir (s3_list s3 s3Prefix) t1 []
                ltac:(constructor)) as Hmembers.
  set (batches := fst (Downloader.transferLoop _ _ _ _ _ _)) in *.
  apply transfersOf_In in Hin as (batch & run & Hbatch & Hrun & Hin).
  pose proof (proj1 (List.Forall_forall _ _)
                (proj1 (List.Forall_forall _ _) Hmembers batch Hbatch) run Hrun)
    as (key & path & t0 & ->).
  unfold Downloader.downloadFile in Hin, Hrun. cbn [fst] in Hin.
  destruct Hin as [<-|[]]. cbn [tr_error tr_end] in Hfailed, Hbefore.
  apply (in_map snd) in Hrun. cbn [snd] in Hrun. rewrite Hfailed in Hrun.
  cbn [settled_result] in Hrun.
  destruct (firstRejection_is_Some _ _ _ Hrun) as (t1' & e1 & Hfirst & Hle).
  assert (Hrej : In (t1', Err e1) (map Downloader.batchRejection batches)).
  { apply in_map_iff. exists batch. split; [|done].
    unfold Downloader.batchRejection. by rewrite Hfirst. }
  destruct (firstRejection_is_Some _ _ _ Hrej) as (t2' & e2 & Hfirst' & Hle').
  rewrite Hfirst'. exists t2', e2.
  destruct (Nat.ltb_spec t2' (t1 + Downloader.listingCalls (s3_list s3 s3Prefix)
                                    * (1 + s3_listLatency s3))) as [_|Hge]; [done|].
  exfalso. unfold lastReplyTick in Hbefore. unfold t1 in Hge. lia.
Qed.

Lemma unhandledRejection_is_a_failure s3 s3Prefix localDir t t' e :
  Downloader.unhandledRejection s3 s3Prefix localDir t = Some (t', e) ->
  (t' < lastReplyTick s3 s3Prefix t)%nat
  /\ exists tr,
       In tr (fst (Downloader.downloadFromS3 s3 s3Prefix localDir t))
       /\ tr_error tr = Some e /\ tr_end tr = t'.
Proof.
  unfold Downloader.unhandledRejection. intros Hun.
  rewrite batches_transfers by (by destruct (Downloader.calculateS3Stats _ _)).
  destruct (Downloader.calculateS3Stats _ _) as [stats|]; [|done].
  cbv zeta in Hun. rewrite transferLoop_tick in Hun.
  set (t1 := (t + _ * _)%nat) in *.
  pose proof (transferLoop_downloads s3 s3Prefix localDir (s3_list s3 s3Prefix) t1 []
                ltac:(constructor)) as Hmembers.
  set (batches := fst (Downloader.transferLoop _ _ _ _ _ _)) in *.
  destruct (firstRejection (map Downloader.batchRejection batches)) as [[t2 e2]|] eqn:Hfirst;
    [|done].
  destruct (Nat.ltb_spec t2 (t1 + Downloader.listingCalls (s3_list s3 s3Prefix)
                                  * (1 + s3_listLatency s3))) as [Hlt|_]; [|done].
  injection Hun as -> ->. split; [unfold lastReplyTick, t1 in *; lia|].
  apply firstRejection_Some in Hfirst.
  apply in_map_iff in Hfirst as (batch & Hrej & Hbatch).
  unfold Downloader.batchRejection in Hrej.
  destruct (firstRejection (map snd batch)) as [[t3 e3]|] eqn:Hmember; [|done].
  injection Hrej as -> ->. apply firstRejection_Some in Hmember.
  apply in_map_iff in Hmember as (run & Hsnd & Hrun).
  pose proof (proj1 (List.Forall_forall _ _)
                (proj1 (List.Forall_forall _ _) Hmembers batch Hbatch) run Hrun)
    as (key & path & t0 & ->).
  unfold Downloader.downloadFile in Hsnd, Hrun. cbn [snd] in Hsnd.
  eexists. split; [apply transfersOf_In; exists batch; eexists; split; [done|];
                   split; [exact Hrun|left; reflexivity]|].
  cbn [tr_error tr_end]. injection Hsnd as Ht He. split; [|done].
  destruct (s3_fail s3 key) as [e'|]; [by injection He as ->|].
  destruct (s3_body s3 key); [done|by injection He as ->].
Qed.

(** The job on the slow listing: the worker has taken the identifier and
    logged it when the rejection of [job/f0] ends the process; nothing is
    logged of the error, and there is no pause and no next [brPop]. *)
Example worker_ends_with_the_rejection :
  Downloader.unhandledRejection slowListingF0Fails "job" "output/job" 0%nat
  = Some (7%nat, "SlowDown")
  /\ lastReplyTick slowListingF0Fails "job" 0%nat = 8%nat
  /\ Orchestrator.main slowListingHost 5 0 (mkWorld ∅ ∅ ["next"; "job"] [])
     = (mkWorld ∅ ∅ ["next"]
          [BrPop "build-queue" "job"; LogInfo "Received message from build queue: job"],
        Orchestrator.Exited "SlowDown").
Proof. vm_compute. repeat split; reflexivity. Qed.

(** C7.  What the code does on the failing input of the claim: the
    worker has taken a job from the queue, and in its download a transfer
    fails and ends before the last listing reply has arrived.  The batch of
    that transfer is then rejected while no handler is attached to it: the
    process ends with the error of a failed transfer, inside the [try]
    block and without reaching the [catch] block.  Nothing is logged after
    the line that announces the job, there is no pause, and the loop does
    not return to [brPop]. *)
Theorem rejected_download_ends_the_worker :
  forall (host : Orchestrator.Host) (fuel n : nat) (w : World) (id : string)
         (rest : list string) (tr : Transfer),
    Orchestrator.host_brPopError host n = None ->
    popRight (queue w) = Some (id, rest) ->
    Js.truthy id = true ->
    In tr (fst (Downloader.downloadS3Folder (Orchestrator.host_s3 host) id 0%nat)) ->
    is_Some (tr_error tr) ->
    (tr_end tr < lastReplyTick (Orchestrator.host_s3 host) id 0)%nat ->
    exists e tr',
      Orchestrator.main host (S fuel) n w
      = (emit (LogInfo ("Received message from build queue: " +:+ id))
           (emit (BrPop "build-queue" id) (mkWorld (bucket w) (status w) rest (trace w))),
         Orchestrator.Exited e)
      /\ In tr' (fst (Downloader.downloadS3Folder (Orchestrator.host_s3 host) id 0%nat))
      /\ tr_error tr' = Some e
      /\ (tr_end tr' < lastReplyTick (Orchestrator.host_s3 host) id 0)%nat.
Proof.
  intros host fuel n w id rest tr Hpop Hqueue Htruthy Hin Hfailed Hbefore.
  unfold Downloader.downloadS3Folder in *.
  destruct (failure_before_last_reply _ _ _ _ tr Hin Hfailed Hbefore) as (t' & e & Hun).
  destruct (unhandledRejection_is_a_failure _ _ _ _ _ _ Hun) as (Hlt & tr' & Hin' & He & Hend).
  exists e, tr'. split; [|split; [done|split; [done|lia]]].
  cbn [Orchestrator.main]. unfold Orchestrator.loopBody, Orchestrator.tryBlock.
  rewrite Hpop, Hqueue, Htruthy, Hun. reflexivity.
Qed.

Lemma rejected_download_ends_the_worker_witness :
  exists e tr',
    Orchestrator.main slowListingHost 3 0 (mkWorld ∅ ∅ ["next"; "job"] [])
    = (emit (LogInfo ("Received message from build queue: " +:+ "job"))
         (emit (BrPop "build-queue" "job") (mkWorld ∅ ∅ ["next"] [])),
       Orchestrator.Exited e)
    /\ In tr' (fst (Downloader.downloadS3Folder slowListingF0Fails "job" 0%nat))
    /\ tr_error tr' = Some e
    /\ (tr_end tr' < lastReplyTick slowListingF0Fails "job" 0)%nat.
Proof.
  apply (rejected_download_ends_the_worker slowListingHost 2 0%nat
           (mkWorld ∅ ∅ ["next"; "job"] []) "job" ["next"]
           (mkTransfer "job/f0" "output/job/f0" (repeat "x"%byte 10) 6 7 (Some "SlowDown"))).
  - reflexivity.
  - reflexivity.
  - reflexivity.
  - left. reflexivity.
  - eexists. reflexivity.
  - vm_compute. lia.
Defined.

(** In a directory of six files the sixth upload starts when the first
    one settles, whatever the latencies and the failures. *)
Example upload_chain_continues s3 t :
  timeline (fst (Uploader.uploadDirectory s3 "/srv/output/job" sixFiles "job" t))
  = [("job/f0", t, (t + 1 + s3_latency s3 "job/f0")%nat, s3_fail s3 "job/f0");
     ("job/f5", (t + 1 + s3_latency s3 "job/f0")%nat,
      (t + 1 + s3_latency s3 "job/f0" + 1 + s3_latency s3 "job/f5")%nat, s3_fail s3 "job/f5");
     ("job/f1", t, (t + 1 + s3_latency s3 "job/f1")%nat, s3_fail s3 "job/f1");
     ("job/f2", t, (t + 1 + s3_latency s3 "job/f2")%nat, s3_fail s3 "job/f2");
     ("job/f3", t, (t + 1 + s3_latency s3 "job/f3")%nat, s3_fail s3 "job/f3");
     ("job/f4", t, (t + 1 + s3_latency s3 "job/f4")%nat, s3_fail s3 "job/f4")].
Proof. reflexivity. Qed.

(** Two directories of five files: the ten uploads are started at the same
    tick, whatever the latencies, five per directory level. *)
Example upload_nested_in_flight s3 t :
  inFlight (fst (Uploader.uploadDirectory s3 "/srv/output/job" twoByFive "job" t)) t = 10%nat.
Proof.
  rewrite (inFlight_all _ t); [reflexivity|].
  cbn. repeat constructor; cbn; lia.
Qed.

(** ** Strings and paths *)

Lemma append_cons h a b : String h a +:+ b = String h (a +:+ b).
Proof. reflexivity. Qed.

Lemma append_nil_l b : "" +:+ b = b.
Proof. reflexivity. Qed.

Lemma append_assoc a b c : (a +:+ b) +:+ c = a +:+ (b +:+ c).
Proof. induction a as [|h a IH]; [done|]. rewrite !append_cons. by rewrite IH. Qed.

Lemma append_nil_r a : a +:+ "" = a.
Proof. induction a as [|h a IH]; [done|]. rewrite append_cons. by rewrite IH. Qed.

Lemma split_nonempty c s : Js.split c s <> [].
Proof.
  induction s as [|a s IH]; simpl; [done|].
  destruct (Ascii.eqb a c); [done|]. by destruct (Js.split c s).
Qed.

Lemma split_no_sep c s : hasChar c s = false -> Js.split c s = [s].
Proof.
  induction s as [|a s IH]; simpl; [done|].
  destruct (Ascii.eqb a c); simpl; [done|]. intros H. by rewrite IH.
Qed.

Lemma split_app_sep c a b :
  Js.split c (a +:+ String c b) = Js.split c a ++ Js.split c b.
Proof.
  induction a as [|h a IH].
  - rewrite append_nil_l. simpl. by rewrite Ascii.eqb_refl.
  - rewrite append_cons. simpl. destruct (Ascii.eqb h c); [by rewrite IH|].
    rewrite IH. pose proof (split_nonempty c a). by destruct (Js.split c a).
Qed.

Lemma split_segments_no_sep c s :
  Forall (fun seg => hasChar c seg = false) (Js.split c s).
Proof.
  induction s as [|a s IH]; simpl; [by repeat constructor|].
  destruct (Ascii.eqb a c) eqn:Hac; [by constructor|].
  destruct (Js.split c s) as [|seg rest].
  - repeat constructor. simpl. by rewrite Hac.
  - inversion IH as [|? ? Hseg Hrest]; subst. constructor; [|done]. simpl. by rewrite Hac.
Qed.

Lemma concat_cons sep x y ys :
  String.concat sep (x :: y :: ys) = x +:+ sep +:+ String.concat sep (y :: ys).
Proof. reflexivity. Qed.

Lemma split_concat segs :
  segs <> [] -> Forall (fun seg => hasChar Path.slash seg = false) segs ->
  Js.split Path.slash (String.concat "/" segs) = segs.
Proof.
  intros Hne Hall. induction Hall as [|x xs Hx Hxs IH]; [done|].
  destruct xs as [|y ys]; [by apply split_no_sep|].
  rewrite concat_cons.
  change ("/" +:+ String.concat "/" (y :: ys))
    with (String Path.slash (String.concat "/" (y :: ys))).
  rewrite split_app_sep, split_no_sep by done. rewrite IH by done. done.
Qed.

Lemma concat_app_sep sep xs ys :
  xs <> [] -> ys <> [] ->
  String.concat sep (xs ++ ys) = String.concat sep xs +:+ sep +:+ String.concat sep ys.
Proof.
  intros Hx Hy. induction xs as [|x xs IH]; [done|].
  destruct xs as [|x' xs].
  - simpl. by destruct ys.
  - change ((x :: x' :: xs) ++ ys) with (x :: x' :: (xs ++ ys)).
    rewrite concat_cons. change (x' :: xs ++ ys) with ((x' :: xs) ++ ys).
    rewrite IH by done. rewrite concat_cons.
    by rewrite !append_assoc.
Qed.

Lemma plainName_spec s :
  plainName s = true <->
  s <> "" /\ s <> "." /\ s <> ".." /\ hasChar Path.slash s = false.
Proof.
  unfold plainName. rewrite !andb_true_iff, !negb_true_iff, !String.eqb_neq. tauto.
Qed.

Lemma normalizeStep_plain allow res seg :
  plainName seg = true -> Path.normalizeStep allow res seg = seg :: res.
Proof.
  intros (H1 & H2 & H3 & _)%plainName_spec. unfold Path.normalizeStep.
  apply String.eqb_neq in H1, H2, H3. by rewrite H1, H2, H3.
Qed.

Lemma normalize_fold_plain allow segs res :
  Forall (fun seg => plainName seg = true) segs ->
  fold_left (Path.normalizeStep allow) segs res = rev segs ++ res.
Proof.
  intros Hall. revert res. induction Hall as [|seg segs Hseg _ IH]; intros res; [done|].
  simpl. rewrite normalizeStep_plain by done. rewrite IH. by rewrite <- app_assoc.
Qed.

Lemma normalizeSegments_app_plain allow dirs segs :
  Forall (fun seg => plainName seg = true) segs ->
  Path.normalizeSegments allow (dirs ++ segs) = Path.normalizeSegments allow dirs ++ segs.
Proof.
  intros Hall. unfold Path.normalizeSegments.
  rewrite fold_left_app, normalize_fold_plain by done.
  by rewrite rev_app_distr, rev_involutive.
Qed.

Lemma normalizeSegments_plain allow segs :
  Forall (fun seg => plainName seg = true) segs ->
  Path.normalizeSegments allow segs = segs.
Proof. intros Hall. exact (normalizeSegments_app_plain allow [] segs Hall). Qed.

Lemma endsWithChar_app c a b :
  b <> "" -> Js.endsWithChar c (a +:+ b) = Js.endsWithChar c b.
Proof.
  intros Hb. induction a as [|h a IH]; [done|].
  rewrite append_cons. simpl. rewrite IH.
  destruct (a +:+ b) eqn:Hab; [|done].
  destruct a; [|done]. rewrite append_nil_l in Hab. done.
Qed.

Lemma endsWithChar_no_char c s : hasChar c s = false -> Js.endsWithChar c s = false.
Proof.
  induction s as [|h s IH]; [done|]. simpl.
  intros [Hh Hs]%orb_false_iff. destruct s; [done|]. by apply IH.
Qed.

Lemma concat_nonempty sep x xs : x <> "" -> String.concat sep (x :: xs) <> "".
Proof.
  intros Hx. destruct xs as [|y ys]; [done|]. rewrite concat_cons.
  destruct x; [done|]. by rewrite append_cons.
Qed.

Lemma endsWithChar_concat_plain segs :
  segs <> [] -> Forall (fun seg => plainName seg = true) segs ->
  Js.endsWithChar Path.slash (String.concat "/" segs) = false.
Proof.
  intros Hne Hall. induction Hall as [|x xs Hx Hxs IH]; [done|].
  apply plainName_spec in Hx as (Hx & _ & _ & Hslash).
  destruct xs as [|y ys]; [by apply endsWithChar_no_char|].
  inversion Hxs as [|? ? Hy _]; subst.
  apply plainName_spec in Hy as (Hy & _).
  rewrite concat_cons, endsWithChar_app.
  - rewrite endsWithChar_app; [by apply IH|]. by apply concat_nonempty.
  - pose proof (concat_nonempty "/" y ys Hy). by destruct (String.concat "/" (y :: ys)).
Qed.

Lemma startsWith_cons c h s :
  Js.startsWith (String c "") (String h s) = if ascii_dec c h then true else false.
Proof.
  unfold Js.startsWith. cbn [String.prefix].
  destruct (ascii_dec c h); [by destruct s|done].
Qed.

Lemma startsWith_slash_app dir rest :
  dir <> "" -> Js.startsWith "/" (dir +:+ rest) = Js.startsWith "/" dir.
Proof.
  intros Hdir. destruct dir as [|h dir]; [done|]. rewrite append_cons.
  by rewrite !startsWith_cons.
Qed.

Lemma startsWith_slash_no_slash s :
  hasChar Path.slash s = false -> Js.startsWith "/" s = false.
Proof.
  destruct s as [|h s]; [done|]. cbn [hasChar]. intros [Hh _]%orb_false_iff.
  rewrite startsWith_cons. destruct (ascii_dec "/" h) as [<-|]; [|done].
  by rewrite Ascii.eqb_refl in Hh.
Qed.

Lemma startsWith_slash_concat_plain segs :
  Forall (fun seg => plainName seg = true) segs ->
  Js.startsWith "/" (String.concat "/" segs) = false.
Proof.
  intros Hall. destruct Hall as [|x xs Hx Hxs]; [done|].
  apply plainName_spec in Hx as (Hx & _ & _ & Hslash).
  destruct xs as [|y ys]; [by apply startsWith_slash_no_slash|].
  rewrite concat_cons, startsWith_slash_app by done. by apply startsWith_slash_no_slash.
Qed.

Lemma normalizeStep_nonempty allow res seg :
  Forall (fun s => s <> "") res -> Forall (fun s => s <> "") (Path.normalizeStep allow res seg).
Proof.
  intros Hres. unfold Path.normalizeStep.
  destruct (String.eqb_spec seg ""); simpl; [done|].
  destruct (String.eqb seg "."); [done|].
  destruct (String.eqb seg "..").
  - destruct res as [|top rest]; [destruct allow; by repeat constructor|].
    inversion Hres; subst. destruct (String.eqb top ".."); [|done].
    destruct allow; [|done]. by constructor.
  - by constructor.
Qed.

Lemma normalizeStep_no_slash allow res seg :
  hasChar Path.slash seg = false ->
  Forall (fun s => hasChar Path.slash s = false) res ->
  Forall (fun s => hasChar Path.slash s = false) (Path.normalizeStep allow res seg).
Proof.
  intros Hseg Hres. unfold Path.normalizeStep.
  destruct (String.eqb seg "" || String.eqb seg "."); [done|].
  destruct (String.eqb seg "..").
  - destruct res as [|top rest]; [destruct allow; by repeat constructor|].
    inversion Hres; subst. destruct (String.eqb top ".."); [|done].
    destruct allow; [|done]. by constructor.
  - by constructor.
Qed.

Lemma normalizeSegments_invariant allow segs :
  Forall (fun s => hasChar Path.slash s = false) segs ->
  Forall (fun s => s <> "" /\ hasChar Path.slash s = false)
         (Path.normalizeSegments allow segs).
Proof.
  intros Hsegs. unfold Path.normalizeSegments.
  assert (H : forall res,
             Forall (fun s => s <> "" /\ hasChar Path.slash s = false) res ->
             Forall (fun s => s <> "" /\ hasChar Path.slash s = false)
                    (fold_left (Path.normalizeStep allow) segs res)).
  { induction Hsegs as [|seg segs Hseg _ IH]; intros res Hres; [done|].
    simpl. apply IH. apply Forall_and in Hres as [H1 H2]. apply Forall_and.
    split; [by apply normalizeStep_nonempty|by apply normalizeStep_no_slash]. }
  apply Forall_rev. apply H. constructor.
Qed.

Lemma concat_segments_nonempty segs :
  segs <> [] -> Forall (fun s => s <> "") segs -> String.concat "/" segs <> "".
Proof.
  intros Hne Hall. destruct Hall as [|x xs Hx _]; [done|]. by apply concat_nonempty.
Qed.

Lemma plainName_nonempty_no_slash s :
  plainName s = true -> s <> "" /\ hasChar Path.slash s = false.
Proof. intros (H1 & _ & _ & H2)%plainName_spec. done. Qed.

Lemma normalize_plain segs :
  segs <> [] -> Forall (fun seg => plainName seg = true) segs ->
  Path.normalize (String.concat "/" segs) = String.concat "/" segs.
Proof.
  intros Hne Hall. unfold Path.normalize.
  assert (Hsegs : Forall (fun s => s <> "" /\ hasChar Path.slash s = false) segs).
  { eapply Forall_impl; [exact Hall|]. intros s. apply plainName_nonempty_no_slash. }
  apply Forall_and in Hsegs as [Hnonempty Hnoslash].
  pose proof (concat_segments_nonempty segs Hne Hnonempty) as Hcat.
  apply String.eqb_neq in Hcat. rewrite Hcat.
  rewrite startsWith_slash_concat_plain, endsWithChar_concat_plain by done.
  unfold Path.normalizeString. rewrite split_concat by done.
  rewrite normalizeSegments_plain by done. by rewrite Hcat.
Qed.

Lemma join_empty_dir segs :
  segs <> [] -> Forall (fun seg => plainName seg = true) segs ->
  Path.join "" (String.concat "/" segs) = String.concat "/" segs.
Proof.
  intros Hne Hall. unfold Path.join. cbn [String.eqb].
  assert (Hcat : String.concat "/" segs <> "").
  { apply concat_segments_nonempty; [done|].
    eapply Forall_impl; [exact Hall|]. intros s Hs. by apply plainName_nonempty_no_slash. }
  apply String.eqb_neq in Hcat. rewrite Hcat. by apply normalize_plain.
Qed.

Lemma join_plain_segments dir segs :
  dir <> "" -> segs <> [] -> Forall (fun seg => plainName seg = true) segs ->
  Path.join dir (String.concat "/" segs)
  = dirPrefix dir +:+ String.concat "/" (dirSegments dir ++ segs).
Proof.
  intros Hdir Hne Hall. unfold Path.join.
  assert (Hsegs : Forall (fun s => s <> "" /\ hasChar Path.slash s = false) segs).
  { eapply Forall_impl; [exact Hall|]. intros s. apply plainName_nonempty_no_slash. }
  pose proof Hsegs as Hsegs'. apply Forall_and in Hsegs' as [Hnonempty Hnoslash].
  pose proof (concat_segments_nonempty segs Hne Hnonempty) as Hcat.
  pose proof Hdir as Hdir'. apply String.eqb_neq in Hdir'. rewrite Hdir'.
  pose proof Hcat as Hcat'. apply String.eqb_neq in Hcat'. rewrite Hcat'.
  set (b := String.concat "/" segs) in *.
  assert (Hjoined : dir +:+ "/" +:+ b <> "") by (by destruct dir).
  apply String.eqb_neq in Hjoined. rewrite Hjoined.
  unfold Path.normalize. rewrite Hjoined.
  rewrite startsWith_slash_app by done.
  assert (Hends : Js.endsWithChar Path.slash (dir +:+ "/" +:+ b) = false).
  { rewrite endsWithChar_app by done. rewrite endsWithChar_app by done.
    by apply endsWithChar_concat_plain. }
  assert (Hnorm : Path.normalizeString (dir +:+ "/" +:+ b) (negb (Js.startsWith "/" dir))
                  = String.concat "/" (dirSegments dir ++ segs)).
  { unfold Path.normalizeString.
    change (dir +:+ "/" +:+ b) with (dir +:+ String Path.slash b).
    rewrite split_app_sep. unfold b. rewrite split_concat by done.
    by rewrite normalizeSegments_app_plain. }
  assert (Hp : String.concat "/" (dirSegments dir ++ segs) <> "").
  { apply concat_segments_nonempty; [by destruct (dirSegments dir), segs|].
    apply Forall_app. split; [|done].
    pose proof (normalizeSegments_invariant (negb (Js.startsWith "/" dir))
                  (Js.split Path.slash dir) (split_segments_no_sep _ _)) as H.
    apply Forall_and in H as [H _]. exact H. }
  apply String.eqb_neq in Hp. rewrite Hends, Hnorm, Hp.
  unfold dirPrefix. by destruct (Js.startsWith "/" dir).
Qed.

Lemma join_injective dir segs1 segs2 :
  segs1 <> [] -> segs2 <> [] ->
  Forall (fun seg => plainName seg = true) segs1 ->
  Forall (fun seg => plainName seg = true) segs2 ->
  Path.join dir (String.concat "/" segs1) = Path.join dir (String.concat "/" segs2) ->
  segs1 = segs2.
Proof.
  intros Hne1 Hne2 Hall1 Hall2.
  assert (Hno : forall segs, Forall (fun seg => plainName seg = true) segs ->
                             Forall (fun s => hasChar Path.slash s = false) segs).
  { intros segs H. eapply Forall_impl; [exact H|]. intros s Hs.
    by apply plainName_nonempty_no_slash. }
  destruct (decide (dir = "")) as [->|Hdir].
  - rewrite !join_empty_dir by done. intros Heq.
    rewrite <- (split_concat segs1), <- (split_concat segs2) by auto. by rewrite Heq.
  - rewrite !join_plain_segments by done. intros Heq%String.app_inj.
    pose proof (normalizeSegments_invariant (negb (Js.startsWith "/" dir))
                  (Js.split Path.slash dir) (split_segments_no_sep _ _)) as H.
    apply Forall_and in H as [_ H]. fold (dirSegments dir) in H.
    assert (Happ : dirSegments dir ++ segs1 = dirSegments dir ++ segs2).
    { rewrite <- (split_concat (dirSegments dir ++ segs1)),
              <- (split_concat (dirSegments dir ++ segs2)).
      - by rewrite Heq.
      - by destruct (dirSegments dir), segs2.
      - apply Forall_app; auto.
      - by destruct (dirSegments dir), segs1.
      - apply Forall_app; auto. }
    by apply app_inv_head in Happ.
Qed.

Lemma join_plain dirs segs :
  dirs <> [] -> segs <> [] ->
  Forall (fun seg => plainName seg = true) dirs ->
  Forall (fun seg => plainName seg = true) segs ->
  Path.join (String.concat "/" dirs) (String.concat "/" segs)
  = String.concat "/" (dirs ++ segs).
Proof.
  intros Hd Hs Hdirs Hsegs.
  assert (Hdirs' : Forall (fun s => s <> "" /\ hasChar Path.slash s = false) dirs).
  { eapply Forall_impl; [exact Hdirs|]. intros s. apply plainName_nonempty_no_slash. }
  apply Forall_and in Hdirs' as [Hnonempty Hnoslash].
  rewrite join_plain_segments by (try done; by apply concat_segments_nonempty).
  unfold dirPrefix, dirSegments. rewrite startsWith_slash_concat_plain by done.
  rewrite split_concat by done. cbn [negb].
  by rewrite normalizeSegments_plain.
Qed.

(** ** Published keys and served keys *)

Lemma prefix_app p rest : String.prefix p (p +:+ rest) = true.
Proof.
  induction p as [|c p IH]; [by destruct rest|].
  rewrite append_cons. cbn [String.prefix]. by destruct (ascii_dec c c).
Qed.

Lemma prefix_cons a s1 b s2 :
  String.prefix (String a s1) (String b s2) = true -> a = b /\ String.prefix s1 s2 = true.
Proof. cbn [String.prefix]. by destruct (ascii_dec a b). Qed.

Lemma replaceAll_app p by_ a b :
  Js.replaceAll p by_ (a +:+ b) = Js.replaceAll p by_ a +:+ Js.replaceAll p by_ b.
Proof.
  induction a as [|h a IH]; [done|]. rewrite append_cons. cbn [Js.replaceAll].
  by rewrite IH, append_cons.
Qed.

Lemma forallb_plainTree entries :
  forallb plainTree entries = true -> Forall (fun entry => plainTree entry = true) entries.
Proof. intros H. apply List.Forall_forall. by apply forallb_forall. Qed.

(** The relative path an entry gets in [processDirectory]. *)
Lemma entryRelPath_plain rel name :
  Forall (fun seg => plainName seg = true) rel -> plainName name = true ->
  Path.join (String.concat "/" rel) name = String.concat "/" (rel ++ [name]).
Proof.
  intros Hrel Hname.
  assert (Hone : Forall (fun seg => plainName seg = true) [name]) by (by constructor).
  destruct rel as [|r rel].
  - exact (join_empty_dir [name] ltac:(done) Hone).
  - exact (join_plain (r :: rel) [name] ltac:(done) ltac:(done) Hrel Hone).
Qed.

Lemma deploy_processEntry_keys prefix rel dir entry upload :
  prefix <> [] ->
  Forall (fun seg => plainName seg = true) prefix ->
  Forall (fun seg => plainName seg = true) rel ->
  plainTree entry = true ->
  In upload (DeployUploader.processEntry (String.concat "/" prefix) dir
               (String.concat "/" rel) entry) ->
  exists segs,
    segs <> []
    /\ snd (fst upload)
       = Js.replaceAll DeployUploader.isBackslash Path.slash
           (String.concat "/" (prefix ++ rel ++ segs)).
Proof.
  intros Hne Hprefix. revert rel dir.
  induction entry as [name content|name entries IH] using Dirent_induction;
    intros rel dir Hrel Hplain Hin; cbn [plainTree dirent_name] in Hplain;
    apply andb_true_iff in Hplain as [Hname Hentries];
    cbn [DeployUploader.processEntry dirent_name] in Hin;
    rewrite (entryRelPath_plain rel name Hrel Hname) in Hin.
  - destruct Hin as [<-|[]]. exists [name]. split; [done|]. cbn [fst snd].
    unfold DeployUploader.s3KeyOf.
    rewrite join_plain; [done|done|by destruct rel|done|].
    apply Forall_app. split; [done|by constructor].
  - apply in_flat_map in Hin as (entry & Hentry & Hin).
    apply forallb_plainTree in Hentries.
    assert (Hrel' : Forall (fun seg => plainName seg = true) (rel ++ [name])).
    { apply Forall_app. split; [done|by constructor]. }
    destruct (proj1 (List.Forall_forall _ _) IH entry Hentry (rel ++ [name]) _ Hrel'
                (proj1 (List.Forall_forall _ _) Hentries entry Hentry) Hin)
      as (segs & Hsegs & Hkey).
    exists (name :: segs). split; [done|]. rewrite Hkey.
    by rewrite <- (app_assoc rel [name] segs).
Qed.

Lemma distPrefix_segments id deploymentId :
  plainName id = true -> validDeploymentId deploymentId = true ->
  exists rest,
    DeployUploader.distPrefix id deploymentId = String.concat "/" ("deployments" :: id :: rest)
    /\ Forall (fun seg => plainName seg = true) ("deployments" :: id :: rest).
Proof.
  intros Hid Hdep. unfold DeployUploader.distPrefix.
  destruct deploymentId as [d|]; cbn [validDeploymentId] in Hdep.
  - unfold Js.truthy. destruct (String.eqb d "") eqn:Hd; cbn [negb orb] in *.
    + exists []. split; [reflexivity|]. by repeat constructor.
    + exists [d]. split; [reflexivity|]. by repeat constructor.
  - exists []. split; [reflexivity|]. by repeat constructor.
Qed.

Lemma published_key_prefix dist id deploymentId key :
  plainName id = true -> validDeploymentId deploymentId = true ->
  forallb plainTree dist = true ->
  In key (DeployUploader.publishedKeys dist id deploymentId) ->
  Js.startsWith "deployments/" key = true.
Proof.
  intros Hid Hdep Hdist Hin. unfold DeployUploader.publishedKeys in Hin.
  apply in_map_iff in Hin as (upload & <- & Hin).
  unfold DeployUploader.processDirectory in Hin.
  apply in_flat_map in Hin as (entry & Hentry & Hin).
  destruct (distPrefix_segments id deploymentId Hid Hdep) as (rest & Hprefix & Hplain).
  rewrite Hprefix in Hin.
  change "" with (String.concat "/" []) in Hin.
  apply forallb_plainTree in Hdist.
  destruct (deploy_processEntry_keys ("deployments" :: id :: rest) [] _ entry upload
              ltac:(done) Hplain ltac:(constructor)
              (proj1 (List.Forall_forall _ _) Hdist entry Hentry) Hin)
    as (segs & Hsegs & ->).
  cbn [app]. rewrite concat_cons.
  change ("deployments" +:+ "/" +:+ String.concat "/" (id :: rest ++ segs))
    with ("deployments/" +:+ String.concat "/" (id :: rest ++ segs)).
  rewrite replaceAll_app.
  change (Js.replaceAll DeployUploader.isBackslash Path.slash "deployments/")
    with "deployments/".
  apply prefix_app.
Qed.

Lemma served_key_prefix hostname filePath :
  Js.startsWith "dist/" (Serve.objectKey hostname filePath) = true.
Proof. unfold Serve.objectKey. apply prefix_app. Qed.

Lemma prefixes_disjoint key :
  Js.startsWith "deployments/" key = true -> Js.startsWith "dist/" key = false.
Proof.
  unfold Js.startsWith. destruct key as [|c1 key]; [cbn [String.prefix]; done|].
  intros [<- H]%prefix_cons.
  destruct key as [|c2 key]; [cbn [String.prefix] in H; done|].
  apply prefix_cons in H as [<- _].
  cbn [String.prefix]. destruct (ascii_dec "d" "d"); [|done].
  by destruct (ascii_dec "i" "e").
Qed.

(** C10.  The keys written by the build-output publisher start with
    [deployments/], the key read by the content server starts with
    [dist/], and no published key is a served key, for every job
    identifier and deployment identifier that are single path segments
    (as the generated tokens are) and every directory listing, host name
    and request path. *)
Theorem published_keys_are_never_served :
  forall (dist : list Dirent) (id : string) (deploymentId : option string)
         (hostname filePath key : string),
    plainName id = true ->
    validDeploymentId deploymentId = true ->
    forallb plainTree dist = true ->
    In key (DeployUploader.publishedKeys dist id deploymentId) ->
    Js.startsWith "deployments/" key = true
    /\ Js.startsWith "dist/" (Serve.objectKey hostname filePath) = true
    /\ key <> Serve.objectKey hostname filePath.
Proof.
  intros dist id deploymentId hostname filePath key Hid Hdep Hdist Hin.
  pose proof (published_key_prefix dist id deploymentId key Hid Hdep Hdist Hin) as Hkey.
  pose proof (served_key_prefix hostname filePath) as Hserved.
  split; [done|]. split; [done|]. intros ->.
  apply prefixes_disjoint in Hkey. congruence.
Qed.

Lemma published_keys_are_never_served_witness :
  Js.startsWith "deployments/" "deployments/abc123/2024-05-01T10-20-30-456Z/assets/app.js"
  = true
  /\ Js.startsWith "dist/" (Serve.objectKey "abc123.example.com" "/assets/app.js") = true
  /\ "deployments/abc123/2024-05-01T10-20-30-456Z/assets/app.js"
     <> Serve.objectKey "abc123.example.com" "/assets/app.js".
Proof.
  apply (published_keys_are_never_served
           [File "index.html" (bytesOf "<html>"); Directory "assets" [File "app.js" (bytesOf "x")]]
           "abc123" (Some "2024-05-01T10-20-30-456Z")).
  - reflexivity.
  - reflexivity.
  - reflexivity.
  - right. left. reflexivity.
Defined.

(** The content server asks for [dist/abc123/index.html]; the pipeline has
    published [deployments/abc123/<timestamp>/index.html]. *)
Example served_key_example :
  Serve.objectKey "abc123.example.com" "/index.html" = "dist/abc123/index.html"
  /\ DeployUploader.publishedKeys [File "index.html" (bytesOf "<html>")] "abc123"
       (Some "2024-05-01T10-20-30-456Z")
     = ["deployments/abc123/2024-05-01T10-20-30-456Z/index.html"].
Proof. split; reflexivity. Qed.

(** The restriction to identifiers that are single path segments matters:
    [path.posix.join] resolves the [..] segments of any other one. *)
Example traversing_identifier_example :
  DeployUploader.publishedKeys [File "index.html" (bytesOf "<html>")] "../dist/x" (Some "t")
  = ["dist/x/t/index.html"].
Proof. reflexivity. Qed.

(** ** What an upload transfers *)

Lemma processEntry_In fuel entries index t tr :
  In tr (fst (Uploader.processEntry fuel entries index t)) ->
  exists j entry t', entries !! j = Some entry /\ In tr (fst (entry t')).
Proof.
  revert index t. induction fuel as [|fuel IH]; intros index t; cbn [Uploader.processEntry].
  - intros [].
  - destruct (entries !! index) as [entry|] eqn:Hentry; [|intros []].
    cbv zeta. cbn [fst]. intros [Hin|Hin]%in_app_or; [eauto|]. by apply IH in Hin.
Qed.

Lemma processEntry_covers entries k :
  forall fuel index t entry,
    entries !! (index + Uploader.concurrencyLimit * k)%nat = Some entry ->
    (k < fuel)%nat ->
    exists t', forall tr,
      In tr (fst (entry t')) -> In tr (fst (Uploader.processEntry fuel entries index t)).
Proof.
  induction k as [|k IH]; intros fuel index t entry Hentry Hfuel;
    (destruct fuel as [|fuel]; [exfalso; lia|]); cbn [Uploader.processEntry].
  - rewrite Nat.mul_0_r, Nat.add_0_r in Hentry. rewrite Hentry. cbv zeta. cbn [fst].
    exists t. intros tr Hin. apply in_or_app. by left.
  - assert (Hlt : (index < length entries)%nat).
    { apply lookup_lt_Some in Hentry.
      eapply Nat.le_lt_trans; [|exact Hentry]. apply Nat.le_add_r. }
    destruct (entries !! index) as [first|] eqn:Hfirst;
      [|apply lookup_ge_None in Hfirst; exfalso;
        exact (Nat.lt_irrefl _ (Nat.lt_le_trans _ _ _ Hlt Hfirst))].
    cbv zeta. cbn [fst].
    destruct (IH fuel (index + Uploader.concurrencyLimit)%nat (fst (snd (first t))) entry)
      as [t' Ht']; [|lia|].
    + rewrite <- Hentry. f_equal. unfold Uploader.concurrencyLimit. lia.
    + exists t'. intros tr Hin. apply in_or_app. right. by apply Ht'.
Qed.

Lemma transferPass_payloads entries payloads :
  Forall2 transfersPayloads entries payloads ->
  transfersPayloads (Uploader.transferPass entries) (concat payloads).
Proof.
  intros Hall t x. unfold Uploader.transferPass. cbn [fst]. split.
  - intros (tr & <- & Hin)%in_map_iff.
    apply in_concat in Hin as (trs & Htrs & Hin).
    apply in_map_iff in Htrs as (run & <- & Hrun).
    apply in_map_iff in Hrun as (i & <- & _).
    apply processEntry_In in Hin as (j & entry & t' & Hentry & Hin).
    destruct (Forall2_lookup_l _ _ _ _ _ Hall Hentry) as (L & HL & Hpay).
    apply in_concat. exists L. split.
    + apply list_elem_of_In. by eapply list_elem_of_lookup_2.
    + apply (Hpay t'). by apply in_map.
  - intros (L & HL & Hx)%in_concat.
    apply list_elem_of_In, list_elem_of_lookup_1 in HL as [j HL].
    destruct (Forall2_lookup_r _ _ _ _ _ Hall HL) as (entry & Hentry & Hpay).
    pose proof (lookup_lt_Some _ _ _ Hentry) as Hj.
    assert (Hdiv : j = (j mod Uploader.concurrencyLimit
                        + Uploader.concurrencyLimit * (j / Uploader.concurrencyLimit))%nat).
    { pose proof (Nat.div_mod_eq j Uploader.concurrencyLimit). lia. }
    assert (Hmod : (j mod Uploader.concurrencyLimit < Uploader.concurrencyLimit)%nat).
    { apply Nat.mod_upper_bound. done. }
    assert (Hle : (j mod Uploader.concurrencyLimit <= j)%nat).
    { apply Nat.Div0.mod_le. }
    assert (Hk : (j / Uploader.concurrencyLimit < length entries)%nat).
    { pose proof (Nat.Div0.div_le_upper_bound j Uploader.concurrencyLimit j).
      assert (j / Uploader.concurrencyLimit <= j)%nat; [|lia].
      apply Nat.Div0.div_le_upper_bound. unfold Uploader.concurrencyLimit. lia. }
    rewrite Hdiv in Hentry.
    destruct (processEntry_covers entries (j / Uploader.concurrencyLimit) (length entries)
                (j mod Uploader.concurrencyLimit) t entry Hentry Hk) as [t' Ht'].
    apply (Hpay t') in Hx. apply in_map_iff in Hx as (tr & <- & Hin).
    apply in_map. apply in_concat.
    exists (fst (Uploader.processEntry (length entries) entries
                   (j mod Uploader.concurrencyLimit) t)).
    split; [|by apply Ht'].
    apply in_map_iff. eexists. split; [reflexivity|].
    apply in_map_iff. exists (j mod Uploader.concurrencyLimit)%nat. split; [done|].
    apply in_seq. lia.
Qed.

Lemma uploadEntry_payloads s3 dirPath s3Prefix entry :
  transfersPayloads (Uploader.uploadEntry s3 dirPath s3Prefix entry)
                    (entryPayloads s3 dirPath s3Prefix entry).
Proof.
  revert dirPath s3Prefix.
  induction entry as [name content|name entries IH] using Dirent_induction;
    intros dirPath s3Prefix.
  - intros t x. cbn [Uploader.uploadEntry entryPayloads dirent_name].
    unfold Uploader.uploadFile. cbn [fst map]. unfold payload. cbn. done.
  - cbn [Uploader.uploadEntry entryPayloads dirent_name].
    rewrite flat_map_concat_map. apply transferPass_payloads.
    apply Forall2_fmap. apply Forall_Forall2_diag.
    eapply Forall_impl; [exact IH|]. intros entry Hentry. apply Hentry.
Qed.

Lemma uploadDirectory_payloads s3 dirPath entries s3Prefix :
  transfersPayloads (Uploader.uploadDirectory s3 dirPath entries s3Prefix)
                    (flat_map (entryPayloads s3 dirPath s3Prefix) entries).
Proof.
  unfold Uploader.uploadDirectory. rewrite flat_map_concat_map.
  apply transferPass_payloads. apply Forall2_fmap. apply Forall_Forall2_diag.
  apply List.Forall_forall. intros entry _. apply uploadEntry_payloads.
Qed.

(** ** The files of a well-formed tree *)

Lemma wellFormed_name entry : wellFormed entry = true -> plainName (dirent_name entry) = true.
Proof. destruct entry; cbn [wellFormed dirent_name]; by intros [? _]%andb_true_iff. Qed.

Lemma wellFormed_directory name entries :
  wellFormed (Directory name entries) = true ->
  NoDup (map dirent_name entries) /\ Forall (fun e => wellFormed e = true) entries.
Proof.
  cbn [wellFormed]. intros [_ [Hnodup Hall]%andb_true_iff]%andb_true_iff.
  split; [by apply bool_decide_eq_true in Hnodup|].
  apply List.Forall_forall. by apply forallb_forall.
Qed.

Lemma wellFormedTree_spec entries :
  wellFormedTree entries = true ->
  NoDup (map dirent_name entries) /\ Forall (fun e => wellFormed e = true) entries.
Proof.
  unfold wellFormedTree. intros [Hnodup Hall]%andb_true_iff.
  split; [by apply bool_decide_eq_true in Hnodup|].
  apply List.Forall_forall. by apply forallb_forall.
Qed.

(** The path of a file starts with the path of the entry it belongs to and
    consists of plain names. *)
Lemma entryFiles_segments rel entry segs content :
  Forall (fun seg => plainName seg = true) rel ->
  wellFormed entry = true ->
  In (segs, content) (entryFiles rel entry) ->
  (exists rest, segs = rel ++ dirent_name entry :: rest)
  /\ Forall (fun seg => plainName seg = true) segs.
Proof.
  revert rel. induction entry as [name body|name entries IH] using Dirent_induction;
    intros rel Hrel Hwf Hin; cbn [entryFiles dirent_name] in *.
  - destruct Hin as [[= <- <-]|[]]. split; [by exists []|].
    apply Forall_app. split; [done|]. constructor; [|constructor].
    by apply (wellFormed_name (File name body)).
  - pose proof (wellFormed_name _ Hwf) as Hname. cbn [dirent_name] in Hname.
    apply wellFormed_directory in Hwf as [_ Hall].
    apply in_flat_map in Hin as (entry & Hentry & Hin).
    assert (Hrel' : Forall (fun seg => plainName seg = true) (rel ++ [name])).
    { apply Forall_app. split; [done|by constructor]. }
    destruct (proj1 (List.Forall_forall _ _) IH entry Hentry (rel ++ [name]) Hrel'
                (proj1 (List.Forall_forall _ _) Hall entry Hentry) Hin)
      as [[rest ->] Hplain].
    split; [|done]. exists (dirent_name entry :: rest). by rewrite <- app_assoc.
Qed.

Lemma same_name_same_entry (entries : list Dirent) e1 e2 :
  NoDup (map dirent_name entries) -> In e1 entries -> In e2 entries ->
  dirent_name e1 = dirent_name e2 -> e1 = e2.
Proof.
  induction entries as [|e entries IH]; [done|].
  cbn [map]. intros [Hnotin Hnodup]%NoDup_cons [->|H1] [->|H2] Hname; try done.
  - exfalso. apply Hnotin. rewrite Hname. apply list_elem_of_In. by apply in_map.
  - exfalso. apply Hnotin. rewrite <- Hname. apply list_elem_of_In. by apply in_map.
  - by apply IH.
Qed.

Lemma flat_entryFiles_NoDup rel entries :
  Forall (fun seg => plainName seg = true) rel ->
  NoDup (map dirent_name entries) ->
  Forall (fun e => wellFormed e = true) entries ->
  Forall (fun e => forall rel',
            Forall (fun seg => plainName seg = true) rel' ->
            NoDup (map fst (entryFiles rel' e))) entries ->
  NoDup (map fst (flat_map (entryFiles rel) entries)).
Proof.
  intros Hrel. induction entries as [|e entries IHe]; intros Hnodup Hall IH.
  - cbn. apply NoDup_nil_2.
  - cbn [flat_map]. rewrite map_app. cbn [map] in Hnodup.
    apply NoDup_cons in Hnodup as [Hnotin Hnodup].
    inversion Hall as [|? ? He Hall']; subst. inversion IH as [|? ? IHhead IHtail]; subst.
    apply NoDup_app. split; [by apply IHhead|]. split; [|by apply IHe].
    intros segs Hin1 Hin2.
    apply list_elem_of_In, in_map_iff in Hin1 as ([segs1 c1] & Heq1 & Hin1).
    apply list_elem_of_In, in_map_iff in Hin2 as ([segs2 c2] & Heq2 & Hin2).
    cbn [fst] in *. subst segs1 segs2.
    apply in_flat_map in Hin2 as (e' & He' & Hin2).
    destruct (entryFiles_segments rel e segs c1 Hrel He Hin1) as [[rest1 H1] _].
    destruct (entryFiles_segments rel e' segs c2 Hrel
                (proj1 (List.Forall_forall _ _) Hall' e' He') Hin2) as [[rest2 H2] _].
    rewrite H1 in H2. apply app_inv_head in H2. injection H2 as Hname _.
    apply Hnotin. rewrite Hname. apply list_elem_of_In. by apply in_map.
Qed.

Lemma entryFiles_NoDup entry :
  wellFormed entry = true ->
  forall rel, Forall (fun seg => plainName seg = true) rel ->
              NoDup (map fst (entryFiles rel entry)).
Proof.
  induction entry as [name body|name entries IH] using Dirent_induction;
    intros Hwf rel Hrel; cbn [entryFiles].
  - cbn. apply NoDup_singleton.
  - pose proof (wellFormed_name _ Hwf) as Hname. cbn [dirent_name] in Hname.
    apply wellFormed_directory in Hwf as [Hnodup Hall].
    apply flat_entryFiles_NoDup; try done.
    + apply Forall_app. split; [done|by constructor].
    + apply List.Forall_forall. intros e He.
      apply (proj1 (List.Forall_forall _ _) IH e He).
      exact (proj1 (List.Forall_forall _ _) Hall e He).
Qed.

Lemma treeSegments_NoDup entries :
  wellFormedTree entries = true ->
  NoDup (map fst (flat_map (entryFiles []) entries)).
Proof.
  intros [Hnodup Hall]%wellFormedTree_spec.
  apply flat_entryFiles_NoDup; try done.
  apply List.Forall_forall. intros e He. apply entryFiles_NoDup.
  exact (proj1 (List.Forall_forall _ _) Hall e He).
Qed.

Lemma treeSegments_plain entries segs content :
  wellFormedTree entries = true ->
  In (segs, content) (flat_map (entryFiles []) entries) ->
  segs <> [] /\ Forall (fun seg => plainName seg = true) segs.
Proof.
  intros [_ Hall]%wellFormedTree_spec (e & He & Hin)%in_flat_map.
  destruct (entryFiles_segments [] e segs content ltac:(constructor)
              (proj1 (List.Forall_forall _ _) Hall e He) Hin) as [[rest ->] Hplain].
  done.
Qed.

Lemma NoDup_fst_functional {A B} (l : list (A * B)) a b1 b2 :
  NoDup (map fst l) -> In (a, b1) l -> In (a, b2) l -> b1 = b2.
Proof.
  induction l as [|[a' b'] l IH]; [done|]. cbn [map fst].
  intros [Hnotin Hnodup]%NoDup_cons [H1|H1] [H2|H2].
  - congruence.
  - exfalso. apply Hnotin. apply list_elem_of_In.
    injection H1 as -> _. change a with (fst (a, b2)). by apply in_map.
  - exfalso. apply Hnotin. apply list_elem_of_In.
    injection H2 as -> _. change a with (fst (a, b1)). by apply in_map.
  - by apply IH.
Qed.

(** ** Object keys *)

Lemma plain_no_slash segs :
  Forall (fun seg => plainName seg = true) segs ->
  Forall (fun seg => hasChar Path.slash seg = false) segs.
Proof.
  intros H. eapply Forall_impl; [exact H|]. intros s Hs.
  by apply plainName_nonempty_no_slash.
Qed.

Lemma plain_nonempty segs :
  Forall (fun seg => plainName seg = true) segs -> Forall (fun seg => seg <> "") segs.
Proof.
  intros H. eapply Forall_impl; [exact H|]. intros s Hs.
  by apply plainName_nonempty_no_slash.
Qed.

Lemma concat_plain_injective segs1 segs2 :
  segs1 <> [] -> segs2 <> [] ->
  Forall (fun seg => plainName seg = true) segs1 ->
  Forall (fun seg => plainName seg = true) segs2 ->
  String.concat "/" segs1 = String.concat "/" segs2 -> segs1 = segs2.
Proof.
  intros H1 H2 Hp1 Hp2 Heq.
  rewrite <- (split_concat segs1), <- (split_concat segs2) by auto using plain_no_slash.
  by rewrite Heq.
Qed.

Lemma keyOf_injective s3Prefix segs1 segs2 :
  segs1 <> [] -> segs2 <> [] ->
  Forall (fun seg => plainName seg = true) segs1 ->
  Forall (fun seg => plainName seg = true) segs2 ->
  keyOf s3Prefix segs1 = keyOf s3Prefix segs2 -> segs1 = segs2.
Proof.
  intros H1 H2 Hp1 Hp2. unfold keyOf. destruct (Js.truthy s3Prefix).
  - intros Heq%String.app_inj%String.app_inj. by apply concat_plain_injective.
  - by apply concat_plain_injective.
Qed.

Lemma truthy_spec s : Js.truthy s = true <-> s <> "".
Proof. unfold Js.truthy. by rewrite negb_true_iff, String.eqb_neq. Qed.

Lemma keyOf_truthy s3Prefix segs :
  segs <> [] -> Forall (fun seg => plainName seg = true) segs ->
  Js.truthy (keyOf s3Prefix segs) = true.
Proof.
  intros Hne Hplain. apply truthy_spec. unfold keyOf.
  destruct (Js.truthy s3Prefix) eqn:Hp.
  - apply truthy_spec in Hp. by destruct s3Prefix.
  - apply concat_segments_nonempty; [done|by apply plain_nonempty].
Qed.

Lemma entryS3Key_keyOf s3Prefix rel name :
  Forall (fun seg => plainName seg = true) rel -> plainName name = true ->
  Uploader.entryS3Key (prefixAt s3Prefix rel) name = keyOf s3Prefix (rel ++ [name]).
Proof.
  intros Hrel Hname. unfold Uploader.entryS3Key, prefixAt.
  destruct rel as [|r rel]; [reflexivity|].
  rewrite keyOf_truthy by done. unfold keyOf.
  rewrite (concat_app_sep "/" (r :: rel) [name]) by done. cbn [String.concat].
  destruct (Js.truthy s3Prefix); [|reflexivity].
  by rewrite !append_assoc.
Qed.

Lemma entryPayloads_sound s3 s3Prefix entry :
  forall rel dirPath x,
    Forall (fun seg => plainName seg = true) rel ->
    wellFormed entry = true ->
    In x (entryPayloads s3 dirPath (prefixAt s3Prefix rel) entry) ->
    exists segs content path,
      In (segs, content) (entryFiles rel entry)
      /\ x = (keyOf s3Prefix segs, path, content, s3_fail s3 (keyOf s3Prefix segs)).
Proof.
  induction entry as [name body|name entries IH] using Dirent_induction;
    intros rel dirPath x Hrel Hwf Hin; pose proof (wellFormed_name _ Hwf) as Hname;
    cbn [dirent_name] in Hname; cbn [entryPayloads entryFiles dirent_name] in *;
    rewrite (entryS3Key_keyOf s3Prefix rel name Hrel Hname) in Hin.
  - destruct Hin as [<-|[]]. exists (rel ++ [name]), body, (Path.join dirPath name).
    split; [by left|done].
  - apply wellFormed_directory in Hwf as [_ Hall].
    apply in_flat_map in Hin as (e & He & Hin).
    assert (Hrel' : Forall (fun seg => plainName seg = true) (rel ++ [name])).
    { apply Forall_app. split; [done|by constructor]. }
    change (keyOf s3Prefix (rel ++ [name])) with (prefixAt s3Prefix (rel ++ [name])) in Hin
      || idtac.
    assert (Hp : keyOf s3Prefix (rel ++ [name]) = prefixAt s3Prefix (rel ++ [name]))
      by (by destruct rel).
    rewrite Hp in Hin.
    destruct (proj1 (List.Forall_forall _ _) IH e He (rel ++ [name]) _ x Hrel'
                (proj1 (List.Forall_forall _ _) Hall e He) Hin)
      as (segs & content & path & Hfile & ->).
    exists segs, content, path. split; [|done]. apply in_flat_map. eauto.
Qed.

Lemma entryPayloads_complete s3 s3Prefix entry :
  forall rel dirPath segs content,
    Forall (fun seg => plainName seg = true) rel ->
    wellFormed entry = true ->
    In (segs, content) (entryFiles rel entry) ->
    exists path,
      In (keyOf s3Prefix segs, path, content, s3_fail s3 (keyOf s3Prefix segs))
         (entryPayloads s3 dirPath (prefixAt s3Prefix rel) entry).
Proof.
  induction entry as [name body|name entries IH] using Dirent_induction;
    intros rel dirPath segs content Hrel Hwf Hin;
    pose proof (wellFormed_name _ Hwf) as Hname;
    cbn [dirent_name] in Hname; cbn [entryPayloads entryFiles dirent_name] in *;
    rewrite (entryS3Key_keyOf s3Prefix rel name Hrel Hname).
  - destruct Hin as [[= <- <-]|[]]. exists (Path.join dirPath name). by left.
  - apply wellFormed_directory in Hwf as [_ Hall].
    apply in_flat_map in Hin as (e & He & Hin).
    assert (Hrel' : Forall (fun seg => plainName seg = true) (rel ++ [name])).
    { apply Forall_app. split; [done|by constructor]. }
    assert (Hp : keyOf s3Prefix (rel ++ [name]) = prefixAt s3Prefix (rel ++ [name]))
      by (by destruct rel).
    rewrite Hp.
    destruct (proj1 (List.Forall_forall _ _) IH e He (rel ++ [name])
                (Path.join dirPath name) segs content Hrel'
                (proj1 (List.Forall_forall _ _) Hall e He) Hin) as [path Hpath].
    exists path. apply in_flat_map. eauto.
Qed.

(** ** [path.posix.join] on sample paths *)

Example split_ex : Js.split Path.slash "a//b/" = ["a"; ""; "b"; ""].
Proof. reflexivity. Qed.

Example join_ex1 : Path.join "output/abc" "src/./x/../index.js" = "output/abc/src/index.js".
Proof. reflexivity. Qed.

Example join_ex2 : Path.join "deployments/../dist/x/t" "index.html" = "dist/x/t/index.html".
Proof. reflexivity. Qed.

Example join_ex3 : Path.join "" "a" = "a" /\ Path.join "/a/" "../.." = "/" /\ Path.join "a" ".." = ".".
Proof. repeat split; reflexivity. Qed.

Example join_ex4 : Path.join "../a" "../../b/" = "../../b/".
Proof. reflexivity. Qed.

(* --------------------------------------------------------------------- *)
(** ** Round trip: upload, then download                                 *)
(* --------------------------------------------------------------------- *)

(** ** The stores after a run *)

Lemma fold_insert_lookup (kf : Transfer -> string)
    (step : gmap string (list byte) -> Transfer -> gmap string (list byte)) trs :
  (forall m tr, step m tr = match tr_error tr with
                            | None => <[kf tr := tr_body tr]> m
                            | Some _ => m
                            end) ->
  Forall (fun tr => tr_error tr = None) trs ->
  (forall tr tr', In tr trs -> In tr' trs -> kf tr = kf tr' -> tr_body tr = tr_body tr') ->
  forall m0 k c,
    fold_left step trs m0 !! k = Some c <->
    (exists tr, In tr trs /\ kf tr = k /\ tr_body tr = c)
    \/ (m0 !! k = Some c /\ forall tr, In tr trs -> kf tr <> k).
Proof.
  intros Hstep Hok. induction Hok as [|tr trs Htr Hok IH]; intros Hfun m0 k c.
  - cbn. split; [intros H; right; split; [done|intros ? []]|].
    intros [(tr & [] & _)|[H _]]; done.
  - cbn [fold_left]. rewrite Hstep, Htr.
    rewrite IH by (intros ? ? ? ?; apply Hfun; by right). clear IH. split.
    + intros [(tr' & Hin & Hk & Hc)|[Hlook Hnone]].
      * left. exists tr'. split; [by right|done].
      * destruct (decide (kf tr = k)) as [Heq|Hne].
        -- rewrite <- Heq, lookup_insert_eq in Hlook. injection Hlook as <-.
           left. exists tr. split; [by left|done].
        -- rewrite lookup_insert_ne in Hlook by done. right. split; [done|].
           intros tr' [<-|Hin]; [done|by apply Hnone].
    + intros [(tr' & [<-|Hin] & Hk & Hc)|[Hlook Hnone]].
      * destruct (decide (Exists (fun tr' => kf tr' = k) trs)) as [Hex|Hnex].
        -- apply Exists_exists in Hex as (tr' & Hin & Hk').
           left. exists tr'. split; [by apply list_elem_of_In|]. split; [done|].
           rewrite <- Hc. symmetry. apply Hfun; [by left|right; by apply list_elem_of_In|].
           congruence.
        -- right. split; [by rewrite <- Hk, <- Hc, lookup_insert_eq|].
           intros tr' Hin Hk'. apply Hnex. apply Exists_exists. exists tr'.
           split; [by apply list_elem_of_In|done].
      * left. eauto.
      * right. split; [|intros tr' Hin; apply Hnone; by right].
        rewrite lookup_insert_ne; [done|]. apply Hnone. by left.
Qed.

Lemma applyPuts_lookup trs bucket k c :
  Forall (fun tr => tr_error tr = None) trs ->
  (forall tr tr', In tr trs -> In tr' trs -> tr_key tr = tr_key tr' ->
                  tr_body tr = tr_body tr') ->
  applyPuts trs bucket !! k = Some c
  <-> (exists tr, In tr trs /\ tr_key tr = k /\ tr_body tr = c)
      \/ (bucket !! k = Some c /\ forall tr, In tr trs -> tr_key tr <> k).
Proof.
  intros Hok Hfun. unfold applyPuts.
  apply (fold_insert_lookup tr_key applyPut trs ltac:(reflexivity) Hok Hfun).
Qed.

Lemma applyWrites_lookup trs p c :
  Forall (fun tr => tr_error tr = None) trs ->
  (forall tr tr', In tr trs -> In tr' trs -> tr_path tr = tr_path tr' ->
                  tr_body tr = tr_body tr') ->
  applyWrites trs ∅ !! p = Some c <-> exists tr, In tr trs /\ tr_path tr = p /\ tr_body tr = c.
Proof.
  intros Hok Hfun. unfold applyWrites.
  rewrite (fold_insert_lookup tr_path applyWrite trs ltac:(reflexivity) Hok Hfun).
  split; [|by left]. intros [H|[H _]]; [done|]. by rewrite lookup_empty in H.
Qed.

(** ** The upload of a well-formed tree over a reliable transport *)

Section ReliableUpload.

Variable s3 : S3.
Variable dirPath s3Prefix : string.
Variable entries : list Dirent.
Variable t : nat.
Hypothesis reliableTransport : forall key, s3_fail s3 key = None.
Hypothesis wellFormedEntries : wellFormedTree entries = true.

Lemma upload_transfer_is_a_file tr :
  In tr (fst (Uploader.uploadDirectory s3 dirPath entries s3Prefix t)) ->
  exists segs,
    In (segs, tr_body tr) (flat_map (entryFiles []) entries)
    /\ tr_key tr = keyOf s3Prefix segs /\ tr_error tr = None.
Proof.
  intros Hin. apply (in_map payload) in Hin.
  apply (uploadDirectory_payloads s3 dirPath entries s3Prefix t) in Hin.
  apply in_flat_map in Hin as (e & He & Hin).
  destruct (wellFormedTree_spec entries wellFormedEntries) as [_ Hall].
  change s3Prefix with (prefixAt s3Prefix []) in Hin.
  destruct (entryPayloads_sound s3 s3Prefix e [] dirPath (payload tr) ltac:(constructor)
              (proj1 (List.Forall_forall _ _) Hall e He) Hin)
    as (segs & content & path & Hfile & Heq).
  unfold payload in Heq. injection Heq as Hkey Hpath Hbody Herr.
  exists segs. rewrite Hbody, Hkey, Herr. split; [|by rewrite reliableTransport].
  apply in_flat_map. eauto.
Qed.

Lemma upload_file_is_transferred segs content :
  In (segs, content) (flat_map (entryFiles []) entries) ->
  exists tr,
    In tr (fst (Uploader.uploadDirectory s3 dirPath entries s3Prefix t))
    /\ tr_key tr = keyOf s3Prefix segs /\ tr_body tr = content.
Proof.
  intros (e & He & Hfile)%in_flat_map.
  destruct (wellFormedTree_spec entries wellFormedEntries) as [_ Hall].
  destruct (entryPayloads_complete s3 s3Prefix e [] dirPath segs content ltac:(constructor)
              (proj1 (List.Forall_forall _ _) Hall e He) Hfile) as [path Hpath].
  change (prefixAt s3Prefix []) with s3Prefix in Hpath.
  assert (Hin : In (keyOf s3Prefix segs, path, content, s3_fail s3 (keyOf s3Prefix segs))
                   (flat_map (entryPayloads s3 dirPath s3Prefix) entries)).
  { apply in_flat_map. eauto. }
  apply (uploadDirectory_payloads s3 dirPath entries s3Prefix t) in Hin.
  apply in_map_iff in Hin as (tr & Heq & Hin). exists tr. split; [done|].
  unfold payload in Heq. by injection Heq as -> _ -> _.
Qed.

Lemma upload_succeeds :
  snd (snd (Uploader.uploadDirectory s3 dirPath entries s3Prefix t)) = Ok tt.
Proof.
  destruct (uploadDirectory_reportsFailures s3 dirPath entries s3Prefix t) as [Herr _].
  destruct (snd (snd (Uploader.uploadDirectory s3 dirPath entries s3Prefix t)))
    as [[]|e]; [done|].
  destruct (Herr e eq_refl) as (tr & Hin & Htr).
  destruct (upload_transfer_is_a_file tr Hin) as (_ & _ & _ & Hnone). congruence.
Qed.

Lemma uploaded_bucket_lookup bucket key content :
  applyPuts (fst (Uploader.uploadDirectory s3 dirPath entries s3Prefix t)) bucket !! key
  = Some content
  <-> (exists segs,
         In (segs, content) (flat_map (entryFiles []) entries)
         /\ key = keyOf s3Prefix segs)
      \/ (bucket !! key = Some content
          /\ forall segs content',
               In (segs, content') (flat_map (entryFiles []) entries) ->
               keyOf s3Prefix segs <> key).
Proof.
  rewrite applyPuts_lookup.
  - split.
    + intros [(tr & Hin & <- & <-)|[Hlook Hnone]].
      * destruct (upload_transfer_is_a_file tr Hin) as (segs & Hfile & Hkey & _). eauto.
      * right. split; [done|]. intros segs content' Hfile.
        destruct (upload_file_is_transferred segs content' Hfile) as (tr & Hin & Hkey & _).
        rewrite <- Hkey. by apply Hnone.
    + intros [(segs & Hfile & ->)|[Hlook Hnone]].
      * destruct (upload_file_is_transferred segs content Hfile) as (tr & Hin & Hkey & Hbody).
        eauto.
      * right. split; [done|]. intros tr Hin.
        destruct (upload_transfer_is_a_file tr Hin) as (segs & Hfile & Hkey & _).
        rewrite Hkey. by eapply Hnone.
  - apply List.Forall_forall. intros tr Hin.
    by destruct (upload_transfer_is_a_file tr Hin) as (_ & _ & _ & Hnone).
  - intros tr tr' Hin Hin' Hkey.
    destruct (upload_transfer_is_a_file tr Hin) as (segs & Hfile & Hk & _).
    destruct (upload_transfer_is_a_file tr' Hin') as (segs' & Hfile' & Hk' & _).
    destruct (treeSegments_plain entries segs _ wellFormedEntries Hfile) as [Hne Hplain].
    destruct (treeSegments_plain entries segs' _ wellFormedEntries Hfile') as [Hne' Hplain'].
    assert (segs = segs') as <-.
    { apply (keyOf_injective s3Prefix); try done. congruence. }
    exact (NoDup_fst_functional _ _ _ _ (treeSegments_NoDup entries wellFormedEntries)
             Hfile Hfile').
Qed.

End ReliableUpload.

(** ** The download from a store that serves a bucket *)

Lemma paginate_complete fuel pageSize objs :
  (0 < pageSize)%nat -> (length objs <= fuel)%nat ->
  listedObjects (paginate fuel pageSize objs) = objs
  /\ listingCompletes (paginate fuel pageSize objs) = true.
Proof.
  intros Hpage. revert objs. induction fuel as [|fuel IH]; intros objs Hlen;
    cbn [paginate].
  - cbn. by rewrite app_nil_r.
  - destruct (Nat.leb_spec (length objs) pageSize) as [Hle|Hgt].
    + cbn. by rewrite app_nil_r.
    + cbn -[take drop].
      destruct (IH (drop pageSize objs)) as [Hlisted Hcomplete].
      { rewrite length_drop. lia. }
      rewrite Hlisted, Hcomplete. by rewrite take_drop.
Qed.

Lemma eligibleKey_object key content :
  Downloader.eligibleKey (mkObject (Some key) (Some (fileSize content)))
  = if Js.truthy key && negb (Nat.eqb (length content) 0) then Some key else None.
Proof.
  unfold Downloader.eligibleKey, Downloader.sizeIsPositive, fileSize. cbn [Key Size].
  destruct (Js.truthy key); [|done]. cbn [andb].
  destruct content as [|b content]; [done|]. cbn [length Nat.eqb negb].
  destruct (Z.eqb_spec (Z.of_nat (S (length content))) 0) as [H0|_]; [lia|].
  destruct (Z.ltb_spec 0 (Z.of_nat (S (length content)))) as [_|H0]; [done|lia].
Qed.

Lemma eligible_objectsUnder objects s3Prefix :
  omap Downloader.eligibleKey (objectsUnder objects s3Prefix)
  = map fst
      (filter (fun kv => Js.truthy (fst kv) && negb (Nat.eqb (length (snd kv)) 0) = true)
         (filter (fun kv => Js.startsWith s3Prefix (fst kv) = true) (map_to_list objects))).
Proof.
  unfold objectsUnder.
  induction (filter (fun kv => Js.startsWith s3Prefix (fst kv) = true) (map_to_list objects))
    as [|[key content] l IH]; [done|].
  cbn [map omap list_omap]. rewrite eligibleKey_object.
  rewrite filter_cons. cbn [fst snd].
  destruct (decide (Js.truthy key && negb (Nat.eqb (length content) 0) = true)) as [->|Hno].
  - cbn [map fst]. f_equal. exact IH.
  - apply not_true_is_false in Hno. rewrite Hno. exact IH.
Qed.

Lemma served_keys pageSize objects fail latency listLatency s3Prefix localDir t :
  (0 < pageSize)%nat ->
  map payload
      (fst (Downloader.downloadFromS3 (serving pageSize objects fail latency listLatency)
              s3Prefix localDir t))
  = map (downloadPayload (serving pageSize objects fail latency listLatency) s3Prefix localDir)
        (map fst
           (filter (fun kv => Js.truthy (fst kv) && negb (Nat.eqb (length (snd kv)) 0) = true)
              (filter (fun kv => Js.startsWith s3Prefix (fst kv) = true)
                 (map_to_list objects)))).
Proof.
  intros Hpage. rewrite downloadFromS3_payloads.
  destruct (paginate_complete (length (objectsUnder objects s3Prefix)) pageSize
              (objectsUnder objects s3Prefix) Hpage ltac:(lia)) as [Hlisted Hcomplete].
  assert (Hlist : s3_list (serving pageSize objects fail latency listLatency) s3Prefix
                  = paginate (length (objectsUnder objects s3Prefix)) pageSize
                      (objectsUnder objects s3Prefix)) by reflexivity.
  rewrite !Hlist, Hcomplete, Hlisted. by rewrite eligible_objectsUnder.
Qed.

Lemma served_transfer_is_an_object pageSize objects fail latency listLatency s3Prefix
    localDir t tr :
  (0 < pageSize)%nat ->
  In tr (fst (Downloader.downloadFromS3 (serving pageSize objects fail latency listLatency)
                s3Prefix localDir t)) ->
  objects !! tr_key tr = Some (tr_body tr)
  /\ Js.startsWith s3Prefix (tr_key tr) = true
  /\ tr_key tr <> "" /\ tr_body tr <> []
  /\ tr_path tr = Downloader.localFilePathOf s3Prefix localDir (tr_key tr)
  /\ tr_error tr = fail (tr_key tr).
Proof.
  intros Hpage Hin. apply (in_map payload) in Hin. rewrite served_keys in Hin by done.
  apply in_map_iff in Hin as (key & Heq & Hkey).
  apply in_map_iff in Hkey as ([key' content] & <- & Hkv). cbn [fst] in Heq.
  apply list_elem_of_In in Hkv.
  rewrite !list_elem_of_filter, elem_of_map_to_list in Hkv. cbn [fst snd] in Hkv.
  destruct Hkv as (Hsel & Hp & Hl).
  apply andb_true_iff in Hsel as [Hk Hc].
  apply truthy_spec in Hk. apply negb_true_iff, Nat.eqb_neq in Hc.
  unfold downloadPayload, payload, serving in Heq. cbn [s3_body s3_fail] in Heq.
  rewrite Hl in Heq. cbn [default] in Heq.
  injection Heq as <- <- <- <-. repeat split; try done.
  - by intros ->.
  - by destruct (fail key').
Qed.

Lemma served_download_succeeds pageSize objects latency listLatency s3Prefix localDir t :
  (0 < pageSize)%nat ->
  snd (snd (Downloader.downloadFromS3
              (serving pageSize objects (fun _ => None) latency listLatency)
              s3Prefix localDir t)) = Ok tt.
Proof.
  intros Hpage.
  destruct (paginate_complete (length (objectsUnder objects s3Prefix)) pageSize
              (objectsUnder objects s3Prefix) Hpage ltac:(lia)) as [_ Hcomplete].
  destruct (downloadFromS3_settles
              (serving pageSize objects (fun _ => None) latency listLatency)
              s3Prefix localDir t Hcomplete) as [Herr _].
  destruct (snd (snd (Downloader.downloadFromS3 _ _ _ _))) as [[]|e]; [done|].
  destruct (Herr e eq_refl) as (tr & Hin & Htr).
  destruct (served_transfer_is_an_object _ _ _ _ _ _ _ _ _ Hpage Hin)
    as (_ & _ & _ & _ & _ & Hnone).
  congruence.
Qed.

Section ServedBucket.

Variable pageSize : nat.
Variable objects : gmap string (list byte).
Variable latency : string -> nat.
Variable listLatency : nat.
Variable s3Prefix localDir : string.
Variable t : nat.
Hypothesis positivePageSize : (0 < pageSize)%nat.
Hypothesis objectsUnderPrefix :
  forall key content,
    objects !! key = Some content -> Js.startsWith s3Prefix key = true ->
    Js.truthy key = true /\ content <> [].

Let store : S3 := serving pageSize objects (fun _ => None) latency listLatency.

Lemma served_listing :
  listedObjects (s3_list store s3Prefix) = objectsUnder objects s3Prefix
  /\ listingCompletes (s3_list store s3Prefix) = true.
Proof. unfold store, serving. cbn [s3_list]. by apply paginate_complete. Qed.

Lemma served_eligible_keys key :
  In key (omap Downloader.eligibleKey (objectsUnder objects s3Prefix))
  <-> is_Some (objects !! key) /\ Js.startsWith s3Prefix key = true.
Proof.
  rewrite <- list_elem_of_In, list_elem_of_omap. unfold objectsUnder. split.
  - intros (obj & Hobj & Hel).
    apply list_elem_of_In, in_map_iff in Hobj as ([k c] & <- & Hin).
    apply list_elem_of_In, list_elem_of_filter in Hin as [Hprefix Hin].
    apply elem_of_map_to_list in Hin. cbn [fst snd] in *.
    apply eligibleKey_positive in Hel as [Hk _]. cbn in Hk. injection Hk as <-. eauto.
  - intros [[content Hlook] Hprefix].
    destruct (objectsUnderPrefix key content Hlook Hprefix) as (Htruthy & Hcontent).
    exists (mkObject (Some key) (Some (fileSize content))). split.
    + apply list_elem_of_In, in_map_iff. exists (key, content). split; [done|].
      apply list_elem_of_In, list_elem_of_filter. split; [done|].
      by apply elem_of_map_to_list.
    + unfold Downloader.eligibleKey, Downloader.sizeIsPositive. cbn [Key Size].
      rewrite Htruthy. unfold fileSize.
      destruct content as [|b content]; [done|]. cbn [length].
      destruct (Z.eqb_spec (Z.of_nat (S (length content))) 0) as [H0|_]; [lia|].
      destruct (Z.ltb_spec 0 (Z.of_nat (S (length content)))) as [_|H0]; [done|lia].
Qed.

Lemma download_transfer_is_an_object tr :
  In tr (fst (Downloader.downloadFromS3 store s3Prefix localDir t)) ->
  objects !! tr_key tr = Some (tr_body tr)
  /\ Js.startsWith s3Prefix (tr_key tr) = true
  /\ tr_path tr = Downloader.localFilePathOf s3Prefix localDir (tr_key tr)
  /\ tr_error tr = None.
Proof.
  intros Hin. apply (in_map payload) in Hin.
  rewrite downloadFromS3_payloads in Hin.
  destruct served_listing as [Hlisted Hcomplete]. rewrite Hcomplete, Hlisted in Hin.
  apply in_map_iff in Hin as (key & Heq & Hkey).
  apply served_eligible_keys in Hkey as [[content Hlook] Hprefix].
  unfold downloadPayload, payload in Heq. unfold store, serving in Heq.
  cbn [s3_body s3_fail] in Heq. rewrite Hlook in Heq. cbn [default] in Heq.
  injection Heq as <- <- <- <-. done.
Qed.

Lemma download_object_is_transferred key content :
  objects !! key = Some content -> Js.startsWith s3Prefix key = true ->
  exists tr,
    In tr (fst (Downloader.downloadFromS3 store s3Prefix localDir t))
    /\ tr_key tr = key /\ tr_body tr = content
    /\ tr_path tr = Downloader.localFilePathOf s3Prefix localDir key.
Proof.
  intros Hlook Hprefix.
  assert (Hin : In (downloadPayload store s3Prefix localDir key)
                   (map payload (fst (Downloader.downloadFromS3 store s3Prefix localDir t)))).
  { rewrite downloadFromS3_payloads.
    destruct served_listing as [Hlisted Hcomplete]. rewrite Hcomplete, Hlisted.
    apply in_map. apply served_eligible_keys. eauto. }
  apply in_map_iff in Hin as (tr & Heq & Hin). exists tr. split; [done|].
  unfold downloadPayload, payload in Heq. unfold store, serving in Heq.
  cbn [s3_body s3_fail] in Heq. rewrite Hlook in Heq. cbn [default] in Heq.
  by injection Heq as -> -> -> _.
Qed.

Lemma download_succeeds :
  snd (snd (Downloader.downloadFromS3 store s3Prefix localDir t)) = Ok tt.
Proof.
  destruct served_listing as [_ Hcomplete].
  destruct (downloadFromS3_settles store s3Prefix localDir t Hcomplete) as [Herr _].
  destruct (snd (snd (Downloader.downloadFromS3 store s3Prefix localDir t)))
    as [[]|e] eqn:Hres; [done|].
  destruct (Herr e eq_refl) as (tr & Hin & Htr).
  destruct (download_transfer_is_an_object tr Hin) as (_ & _ & _ & Hnone). congruence.
Qed.

End ServedBucket.

(** ** From the key of a file back to its local path *)

Lemma slice_app a b : Js.slice (String.length a) (a +:+ b) = b.
Proof. induction a as [|c a IH]; [by destruct b|exact IH]. Qed.

Lemma startsWith_empty s : Js.startsWith "" s = true.
Proof. by destruct s. Qed.

Lemma localFilePathOf_keyOf s3Prefix localDir segs :
  Forall (fun seg => plainName seg = true) segs ->
  Downloader.localFilePathOf s3Prefix localDir (keyOf s3Prefix segs)
  = Path.join localDir (String.concat "/" segs).
Proof.
  intros Hplain. unfold Downloader.localFilePathOf, keyOf.
  destruct (Js.truthy s3Prefix) eqn:Htruthy.
  - rewrite slice_app, append_cons, append_nil_l, startsWith_cons.
    destruct (ascii_dec _ _); [|done]. reflexivity.
  - assert (s3Prefix = "") as ->.
    { destruct s3Prefix; [done|discriminate]. }
    cbn [String.length Js.slice]. by rewrite startsWith_slash_concat_plain.
Qed.

Lemma startsWith_keyOf s3Prefix segs :
  Js.startsWith s3Prefix (keyOf s3Prefix segs) = true.
Proof.
  unfold keyOf. destruct (Js.truthy s3Prefix) eqn:Htruthy.
  - apply prefix_app.
  - assert (s3Prefix = "") as ->.
    { destruct s3Prefix; [done|discriminate]. }
    apply startsWith_empty.
Qed.

Lemma entryFiles_nonempty entry relativePath segs content :
  noEmptyFile entry = true -> In (segs, content) (entryFiles relativePath entry) ->
  content <> [].
Proof.
  revert relativePath. induction entry as [name body|name entries IH] using Dirent_induction;
    intros relativePath Hne Hin.
  - cbn in Hin, Hne. destruct Hin as [[= _ <-]|[]]. by destruct body.
  - cbn [entryFiles noEmptyFile] in Hin, Hne.
    apply in_flat_map in Hin as (e & He & Hin).
    apply (proj1 (List.Forall_forall _ _) IH e He (relativePath ++ [name])); [|done].
    exact (proj1 (forallb_forall _ _) Hne e He).
Qed.

(** ** Upload, then download *)

Section RoundTrip.

Variable s3 : S3.
Variable pageSize : nat.
Variable latency : string -> nat.
Variable listLatency : nat.
Variable dirPath id localDir : string.
Variable entries : list Dirent.
Variable bucket : gmap string (list byte).
Variable t t' : nat.
Hypothesis reliableTransport : forall key, s3_fail s3 key = None.
Hypothesis positivePageSize : (0 < pageSize)%nat.
Hypothesis wellFormedEntries : wellFormedTree entries = true.
Hypothesis noEmptyFiles : forallb noEmptyFile entries = true.
Hypothesis freshPrefix :
  forall key, is_Some (bucket !! key) -> Js.startsWith id key = false.

Let uploaded : gmap string (list byte) :=
  applyPuts (fst (Uploader.uploadDirectory s3 dirPath entries id t)) bucket.
Let store : S3 := serving pageSize uploaded (fun _ => None) latency listLatency.

Lemma uploaded_under_prefix key content :
  uploaded !! key = Some content /\ Js.startsWith id key = true
  <-> exists segs,
        In (segs, content) (flat_map (entryFiles []) entries) /\ key = keyOf id segs.
Proof.
  unfold uploaded.
  rewrite (uploaded_bucket_lookup s3 dirPath id entries t reliableTransport
             wellFormedEntries). split.
  - intros [[H|[Hlook _]] Hprefix]; [done|].
    rewrite freshPrefix in Hprefix by eauto. done.
  - intros (segs & Hfile & ->). split; [left; eauto|apply startsWith_keyOf].
Qed.

Lemma uploaded_objects_eligible key content :
  uploaded !! key = Some content -> Js.startsWith id key = true ->
  Js.truthy key = true /\ content <> [].
Proof.
  intros Hlook Hprefix.
  destruct (proj1 (uploaded_under_prefix key content) (conj Hlook Hprefix))
    as (segs & Hfile & ->).
  destruct (treeSegments_plain entries segs content wellFormedEntries Hfile) as [Hne Hplain].
  split; [by apply keyOf_truthy|].
  apply in_flat_map in Hfile as (e & He & Hfile).
  apply (entryFiles_nonempty e [] segs content); [|done].
  exact (proj1 (forallb_forall _ _) noEmptyFiles e He).
Qed.

Lemma round_trip_transfer tr :
  In tr (fst (Downloader.downloadFromS3 store id localDir t')) ->
  exists segs,
    In (segs, tr_body tr) (flat_map (entryFiles []) entries)
    /\ tr_path tr = Path.join localDir (String.concat "/" segs)
    /\ tr_error tr = None.
Proof.
  intros Hin.
  destruct (download_transfer_is_an_object pageSize uploaded latency listLatency id localDir
              t' positivePageSize uploaded_objects_eligible tr Hin)
    as (Hlook & Hprefix & Hpath & Herr).
  destruct (proj1 (uploaded_under_prefix _ _) (conj Hlook Hprefix)) as (segs & Hfile & Hkey).
  destruct (treeSegments_plain entries segs _ wellFormedEntries Hfile) as [Hne Hplain].
  exists segs. split; [done|]. split; [|done].
  rewrite Hpath, Hkey. by apply localFilePathOf_keyOf.
Qed.

Lemma round_trip_file segs content :
  In (segs, content) (flat_map (entryFiles []) entries) ->
  exists tr,
    In tr (fst (Downloader.downloadFromS3 store id localDir t'))
    /\ tr_path tr = Path.join localDir (String.concat "/" segs)
    /\ tr_body tr = content.
Proof.
  intros Hfile.
  destruct (proj2 (uploaded_under_prefix (keyOf id segs) content)
              (ex_intro _ segs (conj Hfile eq_refl))) as [Hlook Hprefix].
  destruct (download_object_is_transferred pageSize uploaded latency listLatency id localDir
              t' positivePageSize uploaded_objects_eligible _ _ Hlook Hprefix)
    as (tr & Hin & Hkey & Hbody & Hpath).
  destruct (treeSegments_plain entries segs _ wellFormedEntries Hfile) as [Hne Hplain].
  exists tr. split; [done|]. split; [|done].
  rewrite Hpath. by apply localFilePathOf_keyOf.
Qed.

Lemma filesBelow_In localDir' path content :
  In (path, content) (filesBelow localDir' entries)
  <-> exists segs,
        In (segs, content) (flat_map (entryFiles []) entries)
        /\ path = Path.join localDir' (String.concat "/" segs).
Proof.
  unfold filesBelow, treeFiles. rewrite map_map. rewrite in_map_iff. split.
  - intros ([segs c] & [= <- <-] & Hin). eauto.
  - intros (segs & Hin & ->). by exists (segs, content).
Qed.

Lemma filesBelow_NoDup localDir' : NoDup (map fst (filesBelow localDir' entries)).
Proof.
  unfold filesBelow, treeFiles. rewrite !map_map. cbn [fst].
  pose proof (treeSegments_NoDup entries wellFormedEntries) as Hnodup.
  assert (Hplain : forall file, In file (flat_map (entryFiles []) entries) ->
            fst file <> [] /\ Forall (fun seg => plainName seg = true) (fst file)).
  { intros [segs c] Hin. by apply (treeSegments_plain entries segs c). }
  induction (flat_map (entryFiles []) entries) as [|file files IH]; [constructor|].
  cbn [map] in *. apply NoDup_cons in Hnodup as [Hnotin Hnodup].
  apply NoDup_cons. split; [|apply IH; [done|intros; apply Hplain; by right]].
  intros Hin. apply Hnotin.
  apply list_elem_of_In, in_map_iff in Hin as (file' & Heq & Hin').
  apply list_elem_of_In, in_map_iff. exists file'. split; [|done].
  destruct (Hplain file (or_introl eq_refl)) as [Hne Hpl].
  destruct (Hplain file' (or_intror Hin')) as [Hne' Hpl'].
  by apply (join_injective localDir').
Qed.

Lemma round_trip_files :
  applyWrites (fst (Downloader.downloadFromS3 store id localDir t')) ∅
  = list_to_map (filesBelow localDir entries).
Proof.
  apply map_eq. intros path. apply option_eq. intros content.
  rewrite <- elem_of_list_to_map by exact (filesBelow_NoDup localDir).
  rewrite list_elem_of_In, filesBelow_In.
  rewrite applyWrites_lookup.
  - split.
    + intros (tr & Hin & <- & <-).
      destruct (round_trip_transfer tr Hin) as (segs & Hfile & Hpath & _). eauto.
    + intros (segs & Hfile & ->).
      destruct (round_trip_file segs content Hfile) as (tr & Hin & Hpath & Hbody). eauto.
  - apply List.Forall_forall. intros tr Hin.
    by destruct (round_trip_transfer tr Hin) as (_ & _ & _ & Hnone).
  - intros tr1 tr2 Hin1 Hin2 Hpath.
    destruct (round_trip_transfer tr1 Hin1) as (segs1 & Hfile1 & Hpath1 & _).
    destruct (round_trip_transfer tr2 Hin2) as (segs2 & Hfile2 & Hpath2 & _).
    destruct (treeSegments_plain entries segs1 _ wellFormedEntries Hfile1) as [Hne1 Hplain1].
    destruct (treeSegments_plain entries segs2 _ wellFormedEntries Hfile2) as [Hne2 Hplain2].
    assert (segs1 = segs2) as <-.
    { apply (join_injective localDir); try done. congruence. }
    exact (NoDup_fst_functional _ _ _ _ (treeSegments_NoDup entries wellFormedEntries)
             Hfile1 Hfile2).
Qed.

End RoundTrip.

Lemma entryFiles_length entry relativePath :
  Z.of_nat (length (entryFiles relativePath entry)) = entryFileCount entry.
Proof.
  revert relativePath. induction entry as [name body|name entries IH] using Dirent_induction;
    intros relativePath; [done|].
  cbn [entryFiles entryFileCount]. generalize (relativePath ++ [name]). intros prefix.
  induction IH as [|e es He _ IHes]; [done|].
  cbn [flat_map map fold_right]. rewrite length_app, Nat2Z.inj_add, He, IHes. done.
Qed.

Lemma filesBelow_length localDir entries :
  Z.of_nat (length (filesBelow localDir entries)) = fileCount entries.
Proof.
  unfold filesBelow, treeFiles, fileCount. rewrite !length_map.
  induction entries as [|e es IH]; [done|].
  cbn [flat_map map fold_right]. by rewrite length_app, Nat2Z.inj_add, entryFiles_length, IH.
Qed.

(** C4.  What the code does on the failing inputs of the claim: a tree
    with an empty file at [segments], uploaded over a transport that
    rejects no call.  The upload succeeds and stores the empty object
    under the key of the file; whatever else the bucket holds, the download
    from a store that serves it requests no object under that key; and when
    the prefix held nothing before, the download succeeds although it has
    written nothing at the path of the file, which the tree has. *)
Theorem empty_file_is_uploaded_but_not_restored
    (s3 : S3) (pageSize : nat) (latency : string -> nat) (listLatency : nat)
    (dirPath id localDir : string) (entries : list Dirent)
    (bucket : gmap string (list byte)) (t t' : nat) (segments : list string) :
  (forall key, s3_fail s3 key = None) ->
  (0 < pageSize)%nat ->
  wellFormedTree entries = true ->
  In (segments, []) (flat_map (entryFiles []) entries) ->
  let up := Uploader.uploadDirectory s3 dirPath entries id t in
  let store :=
    serving pageSize (applyPuts (fst up) bucket) (fun _ => None) latency listLatency in
  let down := Downloader.downloadFromS3 store id localDir t' in
  snd (snd up) = Ok tt
  /\ applyPuts (fst up) bucket !! keyOf id segments = Some []
  /\ In (Path.join localDir (String.concat "/" segments), []) (filesBelow localDir entries)
  /\ (forall tr, In tr (fst down) -> tr_key tr <> keyOf id segments)
  /\ ((forall key, is_Some (bucket !! key) -> Js.startsWith id key = false) ->
      snd (snd down) = Ok tt
      /\ applyWrites (fst down) ∅ !! Path.join localDir (String.concat "/" segments) = None).
Proof.
  intros Hreliable Hpage Hwf Hfile up store down.
  assert (Hstored : applyPuts (fst up) bucket !! keyOf id segments = Some []).
  { apply (uploaded_bucket_lookup s3 dirPath id entries t Hreliable Hwf). left. eauto. }
  assert (Hskipped : forall tr, In tr (fst down) -> tr_key tr <> keyOf id segments).
  { intros tr Hin Hkey.
    destruct (served_transfer_is_an_object _ _ _ _ _ _ _ _ _ Hpage Hin)
      as (Hlook & _ & _ & Hbody & _).
    rewrite Hkey in Hlook. fold up in Hlook. rewrite Hstored in Hlook. congruence. }
  split; [by apply upload_succeeds|]. split; [exact Hstored|].
  split; [apply filesBelow_In; eauto|]. split; [exact Hskipped|].
  intros Hfresh. split; [by apply served_download_succeeds|].
  destruct (applyWrites (fst down) ∅ !! Path.join localDir (String.concat "/" segments))
    as [content|] eqn:Hwritten; [exfalso|done].
  apply applyWrites_origin in Hwritten as [Hempty|(tr & Hin & Hpath & _)];
    [by rewrite lookup_empty in Hempty|].
  destruct (served_transfer_is_an_object _ _ _ _ _ _ _ _ _ Hpage Hin)
    as (Hlook & Hprefix & _ & _ & Hlocal & _).
  apply (uploaded_bucket_lookup s3 dirPath id entries t Hreliable Hwf) in Hlook
    as [(segs & Hsegs & Hkey)|[Hold _]].
  - destruct (treeSegments_plain entries segs _ Hwf Hsegs) as [Hne Hplain].
    destruct (treeSegments_plain entries segments _ Hwf Hfile) as [Hne' Hplain'].
    rewrite Hlocal, Hkey, localFilePathOf_keyOf in Hpath by done.
    apply join_injective in Hpath; try done. subst segs. by apply (Hskipped tr).
  - rewrite Hfresh in Hprefix by eauto. done.
Qed.

Lemma empty_file_is_uploaded_but_not_restored_witness :
  snd (snd (Uploader.uploadDirectory reliable "/srv/output/job"
              [Directory "public" [File ".gitkeep" []]; File "index.js" (bytesOf "x")]
              "job" 0%nat)) = Ok tt
  /\ snd (snd (Downloader.downloadFromS3
                 (serving 1
                    (applyPuts
                       (fst (Uploader.uploadDirectory reliable "/srv/output/job"
                               [Directory "public" [File ".gitkeep" []];
                                File "index.js" (bytesOf "x")] "job" 0%nat)) ∅)
                    (fun _ => None) (fun _ => 0%nat) 0%nat)
                 "job" "output/job" 1%nat)) = Ok tt
  /\ In ("output/job/public/.gitkeep", [])
        (filesBelow "output/job"
           [Directory "public" [File ".gitkeep" []]; File "index.js" (bytesOf "x")])
  /\ applyWrites
       (fst (Downloader.downloadFromS3
               (serving 1
                  (applyPuts
                     (fst (Uploader.uploadDirectory reliable "/srv/output/job"
                             [Directory "public" [File ".gitkeep" []];
                              File "index.js" (bytesOf "x")] "job" 0%nat)) ∅)
                  (fun _ => None) (fun _ => 0%nat) 0%nat)
               "job" "output/job" 1%nat)) ∅
     !! "output/job/public/.gitkeep" = None.
Proof.
  destruct (empty_file_is_uploaded_but_not_restored reliable 1 (fun _ => 0%nat) 0%nat
              "/srv/output/job" "job" "output/job"
              [Directory "public" [File ".gitkeep" []]; File "index.js" (bytesOf "x")]
              ∅ 0%nat 1%nat ["public"; ".gitkeep"])
    as (Hup & _ & Hfile & _ & Hdown).
  - reflexivity.
  - lia.
  - reflexivity.
  - left. reflexivity.
  - destruct Hdown as [Hok Hnone].
    { intros key [content Hlook]. by rewrite lookup_empty in Hlook. }
    split; [exact Hup|]. split; [exact Hok|]. split; [exact Hfile|exact Hnone].
Defined.

(** The tree that holds the single empty file [.gitkeep]: the upload
    stores the object, the download succeeds without a transfer. *)
Example empty_file_is_not_restored :
  snd (snd (Uploader.uploadDirectory reliable "/srv/output/job" keepTree "job" 0%nat)) = Ok tt
  /\ uploadedBucket keepTree "job" !! "job/.gitkeep" = Some []
  /\ Downloader.downloadFromS3 (storeOf (uploadedBucket keepTree "job")) "job" "output/job"
       1%nat
     = ([], (3%nat, Ok tt))
  /\ filesBelow "output/job" keepTree = [("output/job/.gitkeep", [])]
  /\ fileCount keepTree = 1.
Proof.
  split; [vm_compute; reflexivity|]. split; [vm_compute; reflexivity|].
  split; [vm_compute; reflexivity|]. split; vm_compute; reflexivity.
Qed.

(** ** A sync call in which a transfer fails *)








(* ===================================================================== *)
(** * Part III.  Further properties of the code                           *)
(* ===================================================================== *)

(** ** The content server *)

Lemma length_append a b : String.length (a +:+ b) = (String.length a + String.length b)%nat.
Proof. induction a as [|c a IH]; [done|]. cbn [String.length]. rewrite append_cons. cbn [String.length]. by rewrite IH. Qed.

Lemma slice_app_add a n b : Js.slice (String.length a + n) (a +:+ b) = Js.slice n b.
Proof. induction a as [|c a IH]; [done|exact IH]. Qed.

Lemma slice_split n s :
  (n <= String.length s)%nat ->
  exists p, s = p +:+ Js.slice n s /\ String.length p = n.
Proof.
  revert s. induction n as [|n IH]; intros s Hn.
  - exists "". by destruct s.
  - destruct s as [|c s]; [cbn in Hn; lia|]. cbn [String.length] in Hn.
    destruct (IH s ltac:(lia)) as (p & Hp & Hlen).
    exists (String c p). cbn [Js.slice String.length]. rewrite append_cons.
    split; [by rewrite <- Hp|by rewrite Hlen].
Qed.

Lemma endsWith_spec suffix s :
  ServeContent.endsWith suffix s = true <-> exists p, s = p +:+ suffix.
Proof.
  unfold ServeContent.endsWith. rewrite andb_true_iff, Nat.leb_le, String.eqb_eq. split.
  - intros [Hlen Heq].
    destruct (slice_split (String.length s - String.length suffix) s ltac:(lia))
      as (p & Hp & _).
    exists p. by rewrite <- Heq.
  - intros [p ->]. rewrite length_append. split; [lia|].
    replace (String.length p + String.length suffix - String.length suffix)%nat
      with (String.length p + 0)%nat by lia.
    by rewrite slice_app_add.
Qed.

Lemma endsWith_app suffix p s :
  (String.length suffix <= String.length s)%nat ->
  ServeContent.endsWith suffix (p +:+ s) = ServeContent.endsWith suffix s.
Proof.
  intros Hlen. unfold ServeContent.endsWith. rewrite length_append.
  replace (String.length p + String.length s - String.length suffix)%nat
    with (String.length p + (String.length s - String.length suffix))%nat by lia.
  rewrite slice_app_add.
  destruct (Nat.leb_spec (String.length suffix) (String.length s)) as [_|H]; [|lia].
  destruct (Nat.leb_spec (String.length suffix) (String.length p + String.length s))
    as [_|H]; [done|lia].
Qed.

(** Two suffixes of one string: the shorter is a suffix of the longer. *)
Lemma endsWith_nested a b s :
  ServeContent.endsWith a s = true -> ServeContent.endsWith b s = true ->
  ServeContent.endsWith a b = true \/ ServeContent.endsWith b a = true.
Proof.
  intros Ha Hb.
  destruct (Nat.le_ge_cases (String.length a) (String.length b)) as [Hle|Hle].
  - left. apply endsWith_spec in Hb as [p ->]. by rewrite endsWith_app in Ha.
  - right. apply endsWith_spec in Ha as [p ->]. by rewrite endsWith_app in Hb.
Qed.

(** X1.  The extension tests of [serveFileController] exclude one another, so
    a path with a known extension gets the type of that extension
    wherever the test stands in the chain; every other path is served as
    [application/octet-stream]. *)
Theorem content_type_by_extension filePath :
  (forall extension type,
     In (extension, type) knownExtensions ->
     ServeContent.endsWith extension filePath = true ->
     ServeContent.contentTypeOf filePath = type)
  /\ ((forall extension type,
         In (extension, type) knownExtensions ->
         ServeContent.endsWith extension filePath = false) ->
      ServeContent.contentTypeOf filePath = "application/octet-stream").
Proof.
  split.
  - intros extension type Hin Hends.
    assert (Hexcl : forall other,
              ServeContent.endsWith other filePath = true ->
              ServeContent.endsWith extension other = false ->
              ServeContent.endsWith other extension = false -> False).
    { intros other Hother H1 H2.
      destruct (endsWith_nested extension other filePath Hends Hother); congruence. }
    unfold ServeContent.contentTypeOf.
    cbn [knownExtensions In] in Hin.
    repeat match type of Hin with
           | _ \/ _ => destruct Hin as [Hin|Hin]
           end;
      try (exfalso; exact Hin);
      injection Hin as <- <-; rewrite ?Hends;
      repeat match goal with
             | |- context [ServeContent.endsWith ?o filePath] =>
                 let H := fresh in
                 destruct (ServeContent.endsWith o filePath) eqn:H;
                 [exfalso; exact (Hexcl o H eq_refl eq_refl)|]
             end;
      reflexivity.
  - intros Hnone. unfold ServeContent.contentTypeOf.
    repeat match goal with
           | |- context [ServeContent.endsWith ?o filePath] =>
               rewrite (Hnone o _ ltac:(cbn [knownExtensions In]; eauto 10))
           end.
    reflexivity.
Qed.

Example content_type_examples :
  map ServeContent.contentTypeOf
      ["/index.html"; "/assets/app.js"; "/manifest.json"; "/logo.jpeg"; "/"; "/INDEX.HTML";
       "/fonts/inter.woff2"]
  = ["text/html"; "application/javascript"; "application/json"; "image/jpeg";
     "application/octet-stream"; "application/octet-stream"; "application/octet-stream"].
Proof. reflexivity. Qed.

Lemma hasChar_split_head c s : forall h rest, Js.split c s = h :: rest -> hasChar c h = false.
Proof.
  induction s as [|a s IH]; intros h rest Hsplit.
  - cbn in Hsplit. by injection Hsplit as <- _.
  - cbn [Js.split] in Hsplit. destruct (Ascii.eqb a c) eqn:Hac.
    + by injection Hsplit as <- _.
    + destruct (Js.split c s) as [|h' rest'] eqn:Hs.
      * injection Hsplit as <- _. cbn. by rewrite Hac.
      * injection Hsplit as <- _. cbn [hasChar]. rewrite Hac. cbn [orb]. by eapply IH.
Qed.

Lemma idOfHost_no_dot host : hasChar "."%char (Serve.idOfHost host) = false.
Proof.
  unfold Serve.idOfHost. destruct (Js.split "."%char host) as [|h rest] eqn:Hsplit; [done|].
  by eapply hasChar_split_head.
Qed.

(** X2.  A site is addressed as [<id>.<domain>]: for an identifier without
    a dot the content server recovers exactly that identifier from the
    host name, whatever the domain, and asks the store for
    [dist/<id><path>]; a host name without a dot is its own identifier. *)
Theorem host_label_is_the_identifier (id domain filePath : string) :
  hasChar "."%char id = false ->
  Serve.idOfHost (id +:+ "." +:+ domain) = id
  /\ Serve.objectKey (id +:+ "." +:+ domain) filePath = "dist/" +:+ id +:+ filePath
  /\ Serve.idOfHost id = id.
Proof.
  intros Hid.
  assert (Hhost : Serve.idOfHost (id +:+ "." +:+ domain) = id).
  { unfold Serve.idOfHost. rewrite append_cons, append_nil_l, split_app_sep.
    by rewrite (split_no_sep _ _ Hid). }
  split; [done|]. split; [unfold Serve.objectKey; by rewrite Hhost|].
  unfold Serve.idOfHost. by rewrite (split_no_sep _ _ Hid).
Qed.

Lemma host_label_is_the_identifier_witness :
  Serve.idOfHost ("3f2a-77" +:+ "." +:+ "shipflow.example.com") = "3f2a-77"
  /\ Serve.objectKey ("3f2a-77" +:+ "." +:+ "shipflow.example.com") "/index.html"
     = "dist/" +:+ "3f2a-77" +:+ "/index.html"
  /\ Serve.idOfHost "3f2a-77" = "3f2a-77".
Proof.
  apply (host_label_is_the_identifier "3f2a-77" "shipflow.example.com" "/index.html").
  reflexivity.
Defined.

(** ** What the publisher leaves in the bucket *)

Lemma fold_put_lookup s3 uploads :
  forall bucket key,
    (forall u, In u uploads -> s3_fail s3 (snd (fst u)) = None -> snd (fst u) <> key) ->
    fold_left (DeployUploader.put s3) uploads bucket !! key = bucket !! key.
Proof.
  induction uploads as [|[[path k] content] uploads IH]; intros bucket key Hother; [done|].
  cbn [fold_left]. rewrite IH by (intros u Hu; apply Hother; by right).
  unfold DeployUploader.put. destruct (s3_fail s3 k) eqn:Hfail; [done|].
  apply lookup_insert_ne. apply (Hother (path, k, content)); [by left|done].
Qed.

Lemma fold_put_is_Some s3 uploads :
  forall bucket key,
    is_Some (fold_left (DeployUploader.put s3) uploads bucket !! key)
    <-> is_Some (bucket !! key)
        \/ exists u, In u uploads /\ snd (fst u) = key /\ s3_fail s3 key = None.
Proof.
  induction uploads as [|[[path k] content] uploads IH]; intros bucket key.
  - cbn. split; [by left|]. intros [H|(u & [] & _)]. done.
  - cbn [fold_left]. rewrite IH. unfold DeployUploader.put. split.
    + intros [Hsome|(u & Hu & Hkey & Hfail)].
      * destruct (s3_fail s3 k) eqn:Hfail; [by left|].
        destruct (decide (k = key)) as [->|Hne].
        -- right. exists (path, key, content). split; [by left|done].
        -- rewrite lookup_insert_ne in Hsome by done. by left.
      * right. exists u. split; [by right|done].
    + intros [Hsome|(u & [<-|Hu] & Hkey & Hfail)].
      * left. destruct (s3_fail s3 k); [done|].
        destruct (decide (k = key)) as [->|Hne].
        -- rewrite lookup_insert_eq. eauto.
        -- by rewrite lookup_insert_ne.
      * left. cbn [fst snd] in Hkey. subst k. rewrite Hfail, lookup_insert_eq. eauto.
      * right. eauto.
Qed.

Lemma firstFailure_None s3 uploads :
  DeployUploader.firstFailure s3 uploads = None
  <-> forall u, In u uploads -> s3_fail s3 (snd (fst u)) = None.
Proof.
  induction uploads as [|[[path k] content] uploads IH]; cbn [DeployUploader.firstFailure].
  - split; [intros _ u []|done].
  - destruct (s3_fail s3 k) eqn:Hfail.
    + split; [done|]. intros H. specialize (H (path, k, content) (or_introl eq_refl)).
      cbn in H. congruence.
    + rewrite IH. split.
      * intros H u [<-|Hu]; [done|by apply H].
      * intros H u Hu. apply H. by right.
Qed.

(** X4.  The two ends of the pipeline do not meet: when the bucket holds
    nothing under [dist/], it still holds nothing the content server can
    ask for after [uploadDistFolder] has published a build, so every
    request, for every host name and path, is answered with the 404 reply. *)
Theorem published_build_is_not_served
    (s3 : S3) (dist : list Dirent) (id : string) (deploymentId : option string)
    (bucket : gmap string (list byte))
    (pageSize : nat) (fail : string -> option Error) (latency : string -> nat)
    (listLatency : nat) (hostname filePath : string) :
  plainName id = true ->
  validDeploymentId deploymentId = true ->
  forallb plainTree dist = true ->
  (forall key, is_Some (bucket !! key) -> Js.startsWith "dist/" key = false) ->
  exists message,
    ServeContent.respond
      (serving pageSize
         (fst (DeployUploader.uploadDistFolder s3 (Some dist) id deploymentId bucket))
         fail latency listLatency)
      hostname filePath
    = ServeContent.Reply404 message.
Proof.
  intros Hid Hdep Hdist Hbucket.
  assert (Hnone : fst (DeployUploader.uploadDistFolder s3 (Some dist) id deploymentId bucket)
                  !! Serve.objectKey hostname filePath = None).
  { apply eq_None_not_Some. unfold DeployUploader.uploadDistFolder.
    unfold DeployUploader.uploadDirectory. cbn [fst].
    rewrite fold_put_is_Some. intros [Hsome|(u & Hu & Hkey & _)].
    - apply Hbucket in Hsome. by rewrite served_key_prefix in Hsome.
    - assert (Hpub : In (Serve.objectKey hostname filePath)
                        (DeployUploader.publishedKeys dist id deploymentId)).
      { unfold DeployUploader.publishedKeys. apply in_map_iff. exists u. split; done. }
      apply (published_key_prefix dist id deploymentId _ Hid Hdep Hdist) in Hpub.
      apply prefixes_disjoint in Hpub. by rewrite served_key_prefix in Hpub. }
  unfold ServeContent.respond, Serve.serveFileController, serving. cbn [s3_fail s3_body].
  rewrite Hnone. destruct (fail (Serve.objectKey hostname filePath)); eauto.
Qed.

Lemma published_build_is_not_served_witness :
  exists message,
    ServeContent.respond
      (serving 1000
         (fst (DeployUploader.uploadDistFolder reliable
                 (Some [File "index.html" (bytesOf "<html>")]) "abc123"
                 (Some "2024-05-01T10-20-30-456Z") (uploadedBucket threeFiles "abc123")))
         (fun _ => None) (fun _ => 0%nat) 0%nat)
      "abc123.shipflow.example.com" "/index.html"
    = ServeContent.Reply404 message.
Proof.
  apply (published_build_is_not_served reliable [File "index.html" (bytesOf "<html>")]
           "abc123" (Some "2024-05-01T10-20-30-456Z") (uploadedBucket threeFiles "abc123")).
  - reflexivity.
  - reflexivity.
  - reflexivity.
  - intros key [content Hlook]. apply elem_of_map_to_list, list_elem_of_In in Hlook.
    assert (Hkeys : Forall (fun object => Js.startsWith "dist/" (fst object) = false)
                           (map_to_list (uploadedBucket threeFiles "abc123"))).
    { vm_compute. repeat constructor. }
    exact (proj1 (List.Forall_forall _ _) Hkeys (key, content) Hlook).
Defined.

(** ** The worker and the queue *)

Lemma popped_app l1 l2 : popped (l1 ++ l2) = popped l1 ++ popped l2.
Proof. unfold popped. apply omap_app. Qed.

Lemma pushed_app l1 l2 : pushed (l1 ++ l2) = pushed l1 ++ pushed l2.
Proof. unfold pushed. apply omap_app. Qed.

Lemma popRight_snoc q x : popRight (q ++ [x]) = Some (x, q).
Proof.
  induction q as [|y q IH]; [done|].
  cbn [app popRight]. rewrite IH. by destruct (q ++ [x]) eqn:Hq; [destruct q|].
Qed.

Lemma submitAll_queue ids : forall w, queue (submitAll ids w) = rev ids ++ queue w.
Proof.
  induction ids as [|id ids IH]; intros w; [done|].
  cbn [submitAll fold_left rev]. fold (submitAll ids (lPush id w)).
  rewrite IH. cbn. by rewrite <- app_assoc.
Qed.

Lemma submitAll_popped ids : forall w, popped (trace (submitAll ids w)) = popped (trace w).
Proof.
  induction ids as [|id ids IH]; intros w; [done|].
  cbn [submitAll fold_left]. fold (submitAll ids (lPush id w)).
  rewrite IH. cbn. rewrite popped_app. cbn. by rewrite app_nil_r.
Qed.

Lemma buildProject_pushed host id w :
  pushed (trace (fst (Orchestrator.buildProject host id w))) = pushed (trace w).
Proof.
  unfold Orchestrator.buildProject.
  destruct (negb (Orchestrator.host_outputDirExists host id)).
  { cbn. rewrite !pushed_app. cbn. by rewrite !app_nil_r. }
  destruct (Orchestrator.host_exitCode host id =? 0).
  2: { cbn. rewrite !pushed_app. cbn. by rewrite !app_nil_r. }
  destruct (Orchestrator.host_dist host id) as [entries|].
  2: { cbn. rewrite !pushed_app. cbn. by rewrite !app_nil_r. }
  destruct (DeployUploader.uploadDistFolder _ _ _ _ _) as [b [[]|e]];
    cbn; rewrite !pushed_app; cbn; by rewrite !app_nil_r.
Qed.

Lemma loopBody_pushed host n w :
  pushed (trace (fst (Orchestrator.loopBody host n w))) = pushed (trace w).
Proof.
  unfold Orchestrator.loopBody, Orchestrator.tryBlock.
  destruct (Orchestrator.host_brPopError host n) as [e|].
  { cbn. rewrite !pushed_app. cbn. by rewrite !app_nil_r. }
  destruct (popRight (queue w)) as [[element rest]|]; [|done].
  destruct (Js.truthy element).
  2: { cbn. rewrite pushed_app. cbn. by rewrite app_nil_r. }
  destruct (Downloader.unhandledRejection _ _ _ _) as [[t' e]|].
  { cbn. rewrite !pushed_app. cbn. by rewrite !app_nil_r. }
  destruct (snd (snd (Downloader.downloadS3Folder _ _ _))) as [[]|e].
  2: { cbn. rewrite !pushed_app. cbn. by rewrite !app_nil_r. }
  match goal with
  | |- context [Orchestrator.buildProject host element ?w0] =>
      pose proof (buildProject_pushed host element w0) as Hp;
      destruct (Orchestrator.buildProject host element w0) as [w' [[]|e]]
  end; cbn [fst snd] in *; cbn; rewrite !pushed_app, Hp; cbn; rewrite !pushed_app; cbn;
    by rewrite !app_nil_r.
Qed.

Lemma main_pushed host fuel : forall n w,
  pushed (trace (fst (Orchestrator.main host fuel n w))) = pushed (trace w).
Proof.
  induction fuel as [|fuel IH]; intros n w; [done|].
  cbn [Orchestrator.main]. pose proof (loopBody_pushed host n w) as Hbody.
  destruct (Orchestrator.loopBody host n w) as [w' [| | |]]; cbn [fst] in *;
    [|done|done|done].
  by rewrite IH.
Qed.

Lemma submitAll_pushed ids : forall w, pushed (trace (submitAll ids w)) = pushed (trace w) ++ ids.
Proof.
  induction ids as [|id ids IH]; intros w; [by rewrite app_nil_r|].
  cbn [submitAll fold_left]. fold (submitAll ids (lPush id w)).
  rewrite IH. cbn. rewrite pushed_app. cbn. by rewrite <- app_assoc.
Qed.

Lemma buildProject_frame host id w :
  queue (fst (Orchestrator.buildProject host id w)) = queue w
  /\ popped (trace (fst (Orchestrator.buildProject host id w))) = popped (trace w).
Proof.
  unfold Orchestrator.buildProject.
  destruct (negb (Orchestrator.host_outputDirExists host id)).
  { cbn. rewrite !popped_app. cbn. by rewrite !app_nil_r. }
  destruct (Orchestrator.host_exitCode host id =? 0).
  2: { cbn. rewrite !popped_app. cbn. by rewrite !app_nil_r. }
  destruct (Orchestrator.host_dist host id) as [entries|].
  2: { cbn. rewrite !popped_app. cbn. by rewrite !app_nil_r. }
  destruct (DeployUploader.uploadDistFolder _ _ _ _ _) as [b [[]|e]];
    cbn; rewrite !popped_app; cbn; by rewrite !app_nil_r.
Qed.

Lemma tryBlock_pops host n w id rest :
  Orchestrator.host_brPopError host n = None ->
  queue w = rest ++ [id] ->
  queue (fst (Orchestrator.loopBody host n w)) = rest
  /\ popped (trace (fst (Orchestrator.loopBody host n w))) = popped (trace w) ++ [id]
  /\ (snd (Orchestrator.loopBody host n w) = Orchestrator.Normal
      \/ exists e, snd (Orchestrator.loopBody host n w) = Orchestrator.Crashed e).
Proof.
  intros Hpop Hqueue. unfold Orchestrator.loopBody, Orchestrator.tryBlock.
  rewrite Hpop, Hqueue, popRight_snoc.
  destruct (Js.truthy id).
  2: { cbn. rewrite popped_app. eauto. }
  destruct (Downloader.unhandledRejection _ _ _ _) as [[t' e]|].
  { cbn. rewrite !popped_app. cbn. rewrite !app_nil_r. eauto. }
  destruct (snd (snd (Downloader.downloadS3Folder _ _ _))) as [[]|e].
  2: { cbn. rewrite !popped_app. cbn. rewrite !app_nil_r. eauto. }
  match goal with
  | |- context [Orchestrator.buildProject host id ?w0] =>
      destruct (buildProject_frame host id w0) as [Hq Hp];
      destruct (Orchestrator.buildProject host id w0) as [w' [[]|e]]
  end; cbn [fst snd] in *.
  - cbn. rewrite popped_app, Hp. cbn. rewrite !popped_app. cbn.
    rewrite !app_nil_r. eauto.
  - cbn. rewrite !popped_app, Hp. cbn. rewrite !popped_app. cbn.
    rewrite !app_nil_r. eauto.
Qed.

Lemma main_pops host fuel : forall ids w n,
  (forall k, Orchestrator.host_brPopError host k = None) ->
  queue w = rev ids ->
  exists taken,
    (taken <= length ids)%nat
    /\ popped (trace (fst (Orchestrator.main host fuel n w)))
       = popped (trace w) ++ take taken ids
    /\ queue (fst (Orchestrator.main host fuel n w)) = rev (drop taken ids)
    /\ (snd (Orchestrator.main host fuel n w) = Orchestrator.Waiting -> taken = length ids).
Proof.
  induction fuel as [|fuel IH]; intros ids w n Hpop Hqueue.
  { exists 0%nat. cbn [Orchestrator.main fst snd take drop]. rewrite app_nil_r.
    split; [lia|]. split; [done|]. split; [done|]. done. }
  destruct ids as [|id ids].
  { exists 0%nat. cbn [Orchestrator.main]. unfold Orchestrator.loopBody, Orchestrator.tryBlock.
    rewrite Hpop, Hqueue. cbn. rewrite app_nil_r. done. }
  cbn [rev] in Hqueue.
  destruct (tryBlock_pops host n w id (rev ids) (Hpop n) Hqueue) as (Hq & Hp & Hend).
  cbn [Orchestrator.main].
  destruct (Orchestrator.loopBody host n w) as [w' c]. cbn [fst snd] in *.
  destruct Hend as [->|[e ->]].
  - destruct (IH ids w' (S n) Hpop Hq) as (taken & Hle & Hp' & Hq' & Hs').
    exists (S taken). cbn [take drop length]. rewrite Hp', Hp, <- app_assoc.
    split; [lia|]. split; [done|]. split; [done|]. intros Hw. by rewrite (Hs' Hw).
  - exists 1%nat. cbn [fst snd take drop length]. rewrite take_0, drop_0.
    split; [lia|]. split; [done|]. split; [done|]. done.
Qed.

(** X5.  The build queue is first in, first out: however long the worker
    has run, the identifiers it has taken are the first of those that the
    submissions pushed, in the order of the pushes and each once, and the
    others are still queued in that order; the worker pushes nothing
    itself, so a job whose download or build failed is not taken again.
    When the worker waits in [brPop], it has taken every identifier. *)
Theorem jobs_are_taken_in_submission_order
    (host : Orchestrator.Host) (ids : list string) (w : World) (fuel n : nat) :
  (forall k, Orchestrator.host_brPopError host k = None) ->
  queue w = [] ->
  let run := Orchestrator.main host fuel n (submitAll ids w) in
  exists taken,
    (taken <= length ids)%nat
    /\ popped (trace (fst run)) = popped (trace w) ++ take taken ids
    /\ queue (fst run) = rev (drop taken ids)
    /\ pushed (trace (fst run)) = pushed (trace w) ++ ids
    /\ (snd run = Orchestrator.Waiting -> taken = length ids).
Proof.
  intros Hpop Hempty run. unfold run. clear run.
  rewrite main_pushed, submitAll_pushed.
  destruct (main_pops host fuel ids (submitAll ids w) n Hpop) as (taken & Hle & Hp & Hq & Hs).
  { by rewrite submitAll_queue, Hempty, app_nil_r. }
  exists taken. rewrite Hp, submitAll_popped. done.
Qed.

Lemma jobs_are_taken_in_submission_order_witness :
  exists taken,
    (taken <= 3)%nat
    /\ popped (trace (fst (Orchestrator.main (workerHost 1 None) 4 0%nat
                             (submitAll ["abc123"; ""; "def456"] emptyWorld))))
       = popped (trace emptyWorld) ++ take taken ["abc123"; ""; "def456"]
    /\ queue (fst (Orchestrator.main (workerHost 1 None) 4 0%nat
                     (submitAll ["abc123"; ""; "def456"] emptyWorld)))
       = rev (drop taken ["abc123"; ""; "def456"])
    /\ pushed (trace (fst (Orchestrator.main (workerHost 1 None) 4 0%nat
                             (submitAll ["abc123"; ""; "def456"] emptyWorld))))
       = pushed (trace emptyWorld) ++ ["abc123"; ""; "def456"]
    /\ (snd (Orchestrator.main (workerHost 1 None) 4 0%nat
               (submitAll ["abc123"; ""; "def456"] emptyWorld)) = Orchestrator.Waiting ->
        taken = 3%nat).
Proof.
  apply (jobs_are_taken_in_submission_order (workerHost 1 None) ["abc123"; ""; "def456"]
           emptyWorld 4 0%nat).
  - intros k. reflexivity.
  - reflexivity.
Defined.

(** The three submissions on that worker: all of them are taken, in the
    order of the pushes, and the worker waits. *)
Example three_jobs_are_taken :
  let run := Orchestrator.main (workerHost 1 None) 4 0%nat
               (submitAll ["abc123"; ""; "def456"] emptyWorld) in
  popped (trace (fst run)) = ["abc123"; ""; "def456"]
  /\ queue (fst run) = []
  /\ snd run = Orchestrator.Waiting.
Proof. vm_compute. repeat split; reflexivity. Qed.

(** ** The status hash *)





(** X7.  A submission never writes the status hash, so the status
    endpoint answers for every identifier what it answered before; and it
    puts at most one identifier on the build queue, its own, and none at
    all when it answers with the 500 reply. *)
Theorem submission_effects (host : UploadController.Host) (repoUrl : string) (w : World) :
  let run := UploadController.uploadController host repoUrl w in
  (forall id, statusEndpoint id (fst run) = statusEndpoint id w)
  /\ (queue (fst run) = queue w /\ pushed (trace (fst run)) = pushed (trace w)
      \/ queue (fst run) = UploadController.host_uuid host :: queue w
         /\ pushed (trace (fst run)) = pushed (trace w) ++ [UploadController.host_uuid host]
         /\ exists ms, snd run = UploadController.Json200 (UploadController.host_uuid host) ms)
  /\ (forall error message ms,
        snd run = UploadController.Json500 error message ms ->
        queue (fst run) = queue w /\ pushed (trace (fst run)) = pushed (trace w)).
Proof.
  intros run. unfold run, UploadController.uploadController, UploadController.failure.
  destruct (UploadController.host_clone host repoUrl _) as [tree|cloneError].
  2: { cbn. rewrite !pushed_app. cbn. rewrite !app_nil_r. split; [done|]. split; [by left|done]. }
  destruct (Uploader.uploadDirectory _ _ _ _ _) as [transfers [t' [[]|uploadError]]].
  2: { cbn. rewrite !pushed_app. cbn. rewrite !app_nil_r. split; [done|]. split; [by left|done]. }
  destruct (UploadController.host_lPushError host) as [e|].
  - cbn. rewrite !pushed_app. cbn. rewrite !app_nil_r. split; [done|]. split; [by left|done].
  - cbn. rewrite !pushed_app. cbn. rewrite !app_nil_r. split; [done|].
    split; [right; eauto|done].
Qed.

(** ** Where an upload writes *)

Lemma prefix_trans a b c :
  String.prefix a b = true -> String.prefix b c = true -> String.prefix a c = true.
Proof.
  revert b c. induction a as [|x a IH]; intros b c Hab Hbc; [by destruct c|].
  destruct b as [|y b]; [done|]. destruct c as [|z c]; [done|].
  apply prefix_cons in Hab as [<- Hab]. apply prefix_cons in Hbc as [<- Hbc].
  cbn [String.prefix]. destruct (ascii_dec x x); [|done]. by eapply IH.
Qed.

Lemma entryPayloads_below s3 entry :
  forall dirPath s3Prefix x,
    Js.truthy s3Prefix = true ->
    In x (entryPayloads s3 dirPath s3Prefix entry) ->
    Js.startsWith (s3Prefix +:+ "/") (fst (fst (fst x))) = true.
Proof.
  induction entry as [name content|name entries IH] using Dirent_induction;
    intros dirPath s3Prefix x Htruthy Hin.
  - cbn [entryPayloads dirent_name] in Hin. destruct Hin as [<-|[]]. cbn [fst].
    unfold Uploader.entryS3Key. rewrite Htruthy, <- append_assoc. apply prefix_app.
  - cbn [entryPayloads dirent_name] in Hin.
    apply in_flat_map in Hin as (e & He & Hin).
    assert (Hkey : Uploader.entryS3Key s3Prefix name = s3Prefix +:+ "/" +:+ name).
    { unfold Uploader.entryS3Key. by rewrite Htruthy. }
    assert (Htruthy' : Js.truthy (Uploader.entryS3Key s3Prefix name) = true).
    { rewrite Hkey. apply truthy_spec. apply truthy_spec in Htruthy.
      by destruct s3Prefix. }
    pose proof (proj1 (List.Forall_forall _ _) IH e He _ _ x Htruthy' Hin) as Hbelow.
    unfold Js.startsWith in *. eapply prefix_trans; [|exact Hbelow].
    rewrite Hkey, <- !append_assoc, append_assoc. apply prefix_app.
Qed.

Lemma applyPuts_lookup_other trs :
  forall bucket key,
    (forall tr, In tr trs -> tr_key tr <> key) ->
    applyPuts trs bucket !! key = bucket !! key.
Proof.
  unfold applyPuts. induction trs as [|tr trs IH]; intros bucket key Hother; [done|].
  cbn [fold_left]. rewrite IH by (intros tr' Hin; apply Hother; by right).
  unfold applyPut. destruct (tr_error tr); [done|].
  apply lookup_insert_ne. apply Hother. by left.
Qed.

(** X8.  An upload writes only below its own prefix: whatever the tree
    and whatever the transport does, every object whose key does not
    start with [<s3Prefix>/] is after the upload what it was before, so
    the upload of one job cannot touch the objects of another job, even
    one whose identifier extends its own. *)
Theorem upload_writes_only_below_its_prefix
    (s3 : S3) (dirPath s3Prefix : string) (entries : list Dirent) (t : nat)
    (bucket : gmap string (list byte)) (key : string) :
  Js.truthy s3Prefix = true ->
  Js.startsWith (s3Prefix +:+ "/") key = false ->
  applyPuts (fst (Uploader.uploadDirectory s3 dirPath entries s3Prefix t)) bucket !! key
  = bucket !! key.
Proof.
  intros Htruthy Hkey. apply applyPuts_lookup_other. intros tr Hin Heq.
  apply (in_map payload) in Hin.
  apply (uploadDirectory_payloads s3 dirPath entries s3Prefix t) in Hin.
  apply in_flat_map in Hin as (e & He & Hin).
  apply (entryPayloads_below s3 e dirPath s3Prefix _ Htruthy) in Hin.
  unfold payload in Hin. cbn [fst] in Hin. congruence.
Qed.

Lemma upload_writes_only_below_its_prefix_witness :
  applyPuts (fst (Uploader.uploadDirectory reliable "/srv/output/abc" threeFiles "abc" 0%nat))
            (uploadedBucket keepTree "abcd") !! "abcd/.gitkeep"
  = uploadedBucket keepTree "abcd" !! "abcd/.gitkeep".
Proof.
  apply (upload_writes_only_below_its_prefix reliable "/srv/output/abc" "abc" threeFiles
           0%nat (uploadedBucket keepTree "abcd") "abcd/.gitkeep").
  - reflexivity.
  - reflexivity.
Defined.

(** ** A download whose listing fails *)

(** X9.  When a listing call of the statistics pass is rejected, the
    download is rejected before any object is requested: no transfer is
    started and no file is written. *)
Theorem failed_listing_starts_no_download
    (s3 : S3) (s3Prefix localDir : string) (t : nat) (files : gmap string (list byte)) :
  listingCompletes (s3_list s3 s3Prefix) = false ->
  fst (Downloader.downloadFromS3 s3 s3Prefix localDir t) = []
  /\ is_ok (snd (snd (Downloader.downloadFromS3 s3 s3Prefix localDir t))) = false
  /\ applyWrites (fst (Downloader.downloadFromS3 s3 s3Prefix localDir t)) files = files.
Proof.
  intros Hfails. unfold Downloader.downloadFromS3.
  destruct (calculateS3Stats_fails _ (Downloader.resetStats 0) Hfails) as [e ->].
  done.
Qed.

Lemma failed_listing_starts_no_download_witness :
  fst (Downloader.downloadFromS3
         (mkS3 (fun _ => [Ok (mkListing (Some sixObjects) true (Some "next"));
                          Err "AccessDenied"])
               (fun _ => Some (bytesOf "0123456789")) (fun _ => None) (fun _ => 0%nat) 0%nat)
         "job" "output/job" 0%nat) = []
  /\ is_ok (snd (snd (Downloader.downloadFromS3
         (mkS3 (fun _ => [Ok (mkListing (Some sixObjects) true (Some "next"));
                          Err "AccessDenied"])
               (fun _ => Some (bytesOf "0123456789")) (fun _ => None) (fun _ => 0%nat) 0%nat)
         "job" "output/job" 0%nat))) = false
  /\ applyWrites (fst (Downloader.downloadFromS3
         (mkS3 (fun _ => [Ok (mkListing (Some sixObjects) true (Some "next"));
                          Err "AccessDenied"])
               (fun _ => Some (bytesOf "0123456789")) (fun _ => None) (fun _ => 0%nat) 0%nat)
         "job" "output/job" 0%nat)) ∅ = ∅.
Proof.
  apply (failed_listing_starts_no_download
           (mkS3 (fun _ => [Ok (mkListing (Some sixObjects) true (Some "next"));
                            Err "AccessDenied"])
                 (fun _ => Some (bytesOf "0123456789")) (fun _ => None) (fun _ => 0%nat) 0%nat)
           "job" "output/job" 0%nat ∅).
  reflexivity.
Defined.

(** ** Which objects a download takes *)



(** The download of job [abc] also takes the object of job [abcd], and
    writes it into the working directory of [abc]. *)
Example download_of_an_extended_identifier :
  map (fun tr => (tr_key tr, tr_path tr))
      (fst (Downloader.downloadS3Folder
              (serving 1000 twoJobsBucket (fun _ => None) (fun _ => 0%nat) 0%nat) "abc" 0%nat))
  = [("abc/a.txt", "output/abc/a.txt"); ("abcd/b.txt", "output/abc/d/b.txt")].
Proof. vm_compute. reflexivity. Qed.

(** ** The deployment identifier *)

Lemma replaceAll_hasChar p by_ c s :
  p c = true -> p by_ = false -> hasChar c (Js.replaceAll p by_ s) = false.
Proof.
  intros Hc Hby. induction s as [|a s IH]; [done|].
  cbn [Js.replaceAll]. destruct (p a) eqn:Ha; cbn [hasChar]; rewrite IH, orb_false_r.
  - apply Ascii.eqb_neq. intros ->. congruence.
  - apply Ascii.eqb_neq. intros ->. congruence.
Qed.

Lemma replaceAll_keeps_absent p by_ c s :
  by_ <> c -> hasChar c s = false -> hasChar c (Js.replaceAll p by_ s) = false.
Proof.
  intros Hby. induction s as [|a s IH]; [done|].
  cbn [hasChar Js.replaceAll]. intros [Ha Hs]%orb_false_iff.
  destruct (p a); cbn [hasChar]; rewrite (IH Hs), orb_false_r; [|done].
  by apply Ascii.eqb_neq.
Qed.

Lemma replaceAll_length p by_ s : String.length (Js.replaceAll p by_ s) = String.length s.
Proof.
  induction s as [|a s IH]; [done|]. cbn [Js.replaceAll].
  destruct (p a); cbn [String.length]; by rewrite IH.
Qed.

Lemma deployment_id_valid iso :
  hasChar Path.slash iso = false ->
  validDeploymentId (Some (Js.replaceAll Orchestrator.isColonOrDot "-"%char iso)) = true.
Proof.
  intros Hslash. cbn [validDeploymentId].
  destruct iso as [|a iso]; [done|].
  assert (Hdot : hasChar "."%char
            (Js.replaceAll Orchestrator.isColonOrDot "-"%char (String a iso)) = false).
  { by apply replaceAll_hasChar. }
  assert (Hplain : plainName (Js.replaceAll Orchestrator.isColonOrDot "-"%char (String a iso))
                   = true).
  { apply plainName_spec. split; [|split; [|split]].
    - intros Heq. apply (f_equal String.length) in Heq.
      by rewrite replaceAll_length in Heq.
    - intros Heq. by rewrite Heq in Hdot.
    - intros Heq. by rewrite Heq in Hdot.
    - by apply replaceAll_keeps_absent. }
  rewrite Hplain. apply orb_true_r.
Qed.

(** X11.  The deployment identifier that [buildProject] derives from the
    clock has the length of the time stamp and contains neither a colon
    nor a dot; when the time stamp is not empty and has no slash, the
    identifier is one path segment, as the key arithmetic of the publisher
    needs it. *)
Theorem deployment_identifier_is_a_segment (iso : string) :
  let deploymentId := Js.replaceAll Orchestrator.isColonOrDot "-"%char iso in
  String.length deploymentId = String.length iso
  /\ hasChar ":"%char deploymentId = false
  /\ hasChar "."%char deploymentId = false
  /\ (hasChar Path.slash iso = false -> validDeploymentId (Some deploymentId) = true)
  /\ (iso <> "" -> hasChar Path.slash iso = false -> plainName deploymentId = true).
Proof.
  intros deploymentId. unfold deploymentId.
  assert (Hcolon : hasChar ":"%char
            (Js.replaceAll Orchestrator.isColonOrDot "-"%char iso) = false).
  { by apply replaceAll_hasChar. }
  assert (Hdot : hasChar "."%char
            (Js.replaceAll Orchestrator.isColonOrDot "-"%char iso) = false).
  { by apply replaceAll_hasChar. }
  assert (Hplain : iso <> "" -> hasChar Path.slash iso = false ->
            plainName (Js.replaceAll Orchestrator.isColonOrDot "-"%char iso) = true).
  { intros Hne Hslash. apply plainName_spec. split; [|split; [|split]].
    - intros Heq. apply (f_equal String.length) in Heq.
      rewrite replaceAll_length in Heq. by destruct iso.
    - intros Heq. by rewrite Heq in Hdot.
    - intros Heq. by rewrite Heq in Hdot.
    - by apply replaceAll_keeps_absent. }
  split; [apply replaceAll_length|]. split; [done|]. split; [done|]. split; [|done].
  intros Hslash. cbn [validDeploymentId].
  destruct iso as [|a iso]; [done|]. rewrite Hplain by done. apply orb_true_r.
Qed.

Example deployment_identifier_example :
  Js.replaceAll Orchestrator.isColonOrDot "-"%char "2024-05-01T10:20:30.456Z"
  = "2024-05-01T10-20-30-456Z".
Proof. reflexivity. Qed.

(** ** What the worker writes into the bucket *)

Lemma popRight_Some q x rest : popRight q = Some (x, rest) -> q = rest ++ [x].
Proof.
  revert x rest. induction q as [|y q IH]; intros x rest Hpop; [done|].
  cbn [popRight] in Hpop. destruct q as [|z q].
  - by injection Hpop as <- <-.
  - destruct (popRight (z :: q)) as [[x' rest']|] eqn:Hq; [|done].
    injection Hpop as <- <-. cbn [app]. f_equal. by apply IH.
Qed.

Lemma buildProject_bucket host id w key :
  plainName id = true ->
  hasChar Path.slash (Orchestrator.host_isoString host) = false ->
  (forall entries, Orchestrator.host_dist host id = Some entries ->
                   forallb plainTree entries = true) ->
  Js.startsWith "deployments/" key = false ->
  bucket (fst (Orchestrator.buildProject host id w)) !! key = bucket w !! key.
Proof.
  intros Hid Hiso Hdist Hkey. unfold Orchestrator.buildProject.
  destruct (negb (Orchestrator.host_outputDirExists host id)); [done|].
  destruct (Orchestrator.host_exitCode host id =? 0); [|done].
  destruct (Orchestrator.host_dist host id) as [entries|] eqn:Hentries; [|done].
  specialize (Hdist entries eq_refl).
  match goal with
  | |- context [DeployUploader.uploadDistFolder ?s3 ?d id ?dep ?b] =>
      assert (Hput : fst (DeployUploader.uploadDistFolder s3 d id dep b) !! key = b !! key);
      [|destruct (DeployUploader.uploadDistFolder s3 d id dep b) as [b' [[]|e]];
        cbn [fst snd] in *; exact Hput]
  end.
  unfold DeployUploader.uploadDistFolder, DeployUploader.uploadDirectory. cbn [fst].
  apply fold_put_lookup. intros u Hu _ Heq.
  assert (Hpub : In key (DeployUploader.publishedKeys entries id
                           (Some (Js.replaceAll Orchestrator.isColonOrDot "-"%char
                                    (Orchestrator.host_isoString host))))).
  { unfold DeployUploader.publishedKeys. apply in_map_iff. exists u. split; done. }
  apply published_key_prefix in Hpub; [congruence|done| |done].
  by apply deployment_id_valid.
Qed.

Lemma loopBody_bucket host n w key :
  Forall (fun id => plainName id = true) (queue w) ->
  hasChar Path.slash (Orchestrator.host_isoString host) = false ->
  (forall id entries, Orchestrator.host_dist host id = Some entries ->
                      forallb plainTree entries = true) ->
  Js.startsWith "deployments/" key = false ->
  bucket (fst (Orchestrator.loopBody host n w)) !! key = bucket w !! key
  /\ Forall (fun id => plainName id = true) (queue (fst (Orchestrator.loopBody host n w))).
Proof.
  intros Hqueue Hiso Hdist Hkey. unfold Orchestrator.loopBody, Orchestrator.tryBlock.
  destruct (Orchestrator.host_brPopError host n); [done|].
  destruct (popRight (queue w)) as [[element rest]|] eqn:Hpop; [|done].
  apply popRight_Some in Hpop. rewrite Hpop in Hqueue.
  apply Forall_app in Hqueue as [Hrest Helement].
  apply Forall_inv in Helement.
  destruct (Js.truthy element); [|done].
  destruct (Downloader.unhandledRejection _ _ _ _) as [[t' e]|]; [done|].
  destruct (snd (snd (Downloader.downloadS3Folder _ _ _))) as [[]|e]; [|done].
  match goal with
  | |- context [Orchestrator.buildProject host element ?w0] =>
      pose proof (buildProject_bucket host element w0 key Helement Hiso
                    (Hdist element) Hkey) as Hbucket;
      destruct (buildProject_frame host element w0) as [Hq _];
      destruct (Orchestrator.buildProject host element w0) as [w' [[]|e]]
  end; cbn [fst snd] in *; cbn; rewrite ?Hbucket, ?Hq; done.
Qed.

(** X12.  The worker changes the bucket only below [deployments/]: when
    the queued identifiers are single path segments, the clock string has
    no slash and the build outputs are trees of plain names, every object
    under any other key (the uploaded sources among them) is after any
    number of iterations of [main] what it was before. *)
Theorem worker_writes_only_below_deployments
    (host : Orchestrator.Host) (fuel n : nat) (w : World) (key : string) :
  Forall (fun id => plainName id = true) (queue w) ->
  hasChar Path.slash (Orchestrator.host_isoString host) = false ->
  (forall id entries, Orchestrator.host_dist host id = Some entries ->
                      forallb plainTree entries = true) ->
  Js.startsWith "deployments/" key = false ->
  bucket (fst (Orchestrator.main host fuel n w)) !! key = bucket w !! key.
Proof.
  intros Hqueue Hiso Hdist Hkey. revert n w Hqueue.
  induction fuel as [|fuel IH]; intros n w Hqueue; [done|].
  cbn [Orchestrator.main].
  destruct (loopBody_bucket host n w key Hqueue Hiso Hdist Hkey) as [Hbucket Hqueue'].
  destruct (Orchestrator.loopBody host n w) as [w' [| | |]]; cbn [fst] in *;
    [|done|done|done].
  by rewrite IH.
Qed.

Lemma worker_writes_only_below_deployments_witness :
  bucket (fst (Orchestrator.main
                 (workerHost 0 (Some [File "index.html" (bytesOf "<html>")])) 3 0%nat
                 (mkWorld (uploadedBucket threeFiles "abc123") ∅ ["abc123"] [])))
    !! "abc123/src/c.txt"
  = bucket (mkWorld (uploadedBucket threeFiles "abc123") ∅ ["abc123"] []) !! "abc123/src/c.txt".
Proof.
  apply (worker_writes_only_below_deployments
           (workerHost 0 (Some [File "index.html" (bytesOf "<html>")])) 3 0%nat
           (mkWorld (uploadedBucket threeFiles "abc123") ∅ ["abc123"] []) "abc123/src/c.txt").
  - repeat constructor.
  - reflexivity.
  - intros id entries [= <-]. reflexivity.
  - reflexivity.
Defined.

(** ** Concurrency of the upload of a flat directory *)

Lemma inFlight_nil tick : inFlight [] tick = 0%nat.
Proof. reflexivity. Qed.

Lemma inFlight_singleton tr tick :
  inFlight [tr] tick = if inFlightAt tick tr then 1%nat else 0%nat.
Proof.
  unfold inFlight. rewrite filter_cons, filter_nil.
  destruct (decide (inFlightAt tick tr = true)) as [->|Hno]; [done|].
  apply not_true_is_false in Hno. by rewrite Hno.
Qed.

Lemma chain_sequential entries :
  Forall singleTransfer entries ->
  forall fuel index t tick,
    (inFlight (fst (Uploader.processEntry fuel entries index t)) tick <= 1)%nat
    /\ ((tick < t)%nat ->
        inFlight (fst (Uploader.processEntry fuel entries index t)) tick = 0%nat).
Proof.
  intros Hsingle. induction fuel as [|fuel IH]; intros index t tick;
    [cbn; split; [lia|done]|].
  cbn [Uploader.processEntry].
  destruct (entries !! index) as [entry|] eqn:Hentry; [|cbn; split; [lia|done]].
  destruct (Forall_lookup_1 _ _ _ _ Hsingle Hentry t) as (tr & Htrs & Hstart & Hend & Hlt).
  cbn [fst]. rewrite Htrs, inFlight_app, inFlight_singleton.
  destruct (IH (index + Uploader.concurrencyLimit)%nat (fst (snd (entry t))) tick)
    as [Hle Hzero].
  unfold inFlightAt. rewrite Hstart, <- Hend in *.
  destruct (Nat.leb_spec t tick) as [Htick|Htick];
    destruct (Nat.ltb_spec tick (tr_end tr)) as [Htick'|Htick']; cbn [andb]; split; try lia.
  all: intros; rewrite Hzero by lia; lia.
Qed.

Lemma inFlight_concat_le (runs : list (list Transfer)) tick :
  Forall (fun trs => (inFlight trs tick <= 1)%nat) runs ->
  (inFlight (concat runs) tick <= length runs)%nat.
Proof.
  induction 1 as [|trs runs Htrs _ IH]; [done|].
  cbn [concat length]. rewrite inFlight_app. lia.
Qed.

Lemma transferPass_in_flight entries t tick :
  Forall singleTransfer entries ->
  (inFlight (fst (Uploader.transferPass entries t)) tick <= Uploader.concurrencyLimit)%nat.
Proof.
  intros Hsingle. unfold Uploader.transferPass. cbn [fst].
  etrans; [apply inFlight_concat_le|].
  - rewrite map_map. apply List.Forall_forall. intros trs Hin.
    apply in_map_iff in Hin as (i & <- & _). apply chain_sequential. exact Hsingle.
  - rewrite !length_map, length_seq. lia.
Qed.

Lemma uploadFile_single s3 filePath s3Key content :
  singleTransfer (Uploader.uploadFile s3 filePath s3Key content).
Proof.
  intros t. eexists. unfold Uploader.uploadFile. cbn [fst snd].
  split; [reflexivity|]. cbn [tr_start tr_end]. split; [done|]. split; [done|lia].
Qed.

(** X13.  The upload of a directory that holds files only keeps at most
    five transfers in flight at any tick, whatever the latencies and the
    failures of the transport: the five chains of [processEntry] each
    await one [PutObject] at a time. *)
Theorem flat_upload_keeps_five_in_flight
    (s3 : S3) (dirPath s3Prefix : string) (entries : list Dirent) (t : nat) :
  flat entries = true ->
  (forall tick,
     (inFlight (fst (Uploader.uploadDirectory s3 dirPath entries s3Prefix t)) tick <= 5)%nat)
  /\ (highWaterMark (fst (Uploader.uploadDirectory s3 dirPath entries s3Prefix t)) <= 5)%nat.
Proof.
  intros Hflat.
  assert (Hbound : forall tick,
            (inFlight (fst (Uploader.uploadDirectory s3 dirPath entries s3Prefix t)) tick
             <= 5)%nat).
  { intros tick. unfold Uploader.uploadDirectory.
    apply (transferPass_in_flight _ t tick).
    apply List.Forall_forall. intros op Hop.
    apply in_map_iff in Hop as (entry & <- & Hentry).
    pose proof (proj1 (forallb_forall _ _) Hflat entry Hentry) as Hfile.
    destruct entry as [name content|name sub]; [|done].
    apply uploadFile_single. }
  split; [exact Hbound|].
  unfold highWaterMark.
  generalize (fst (Uploader.uploadDirectory s3 dirPath entries s3Prefix t)) at 2.
  intros starts. induction starts as [|tr starts IH]; cbn [map fold_right]; [lia|].
  specialize (Hbound (tr_start tr)). lia.
Qed.

Lemma flat_upload_keeps_five_in_flight_witness :
  (forall tick,
     (inFlight (fst (Uploader.uploadDirectory f0Fails "/srv/output/job" sixFiles "job" 0%nat))
               tick <= 5)%nat)
  /\ (highWaterMark (fst (Uploader.uploadDirectory f0Fails "/srv/output/job" sixFiles "job"
                            0%nat)) <= 5)%nat.
Proof.
  apply (flat_upload_keeps_five_in_flight f0Fails "/srv/output/job" "job" sixFiles 0%nat).
  reflexivity.
Defined.

(** ** Every file is handed to the transport once *)

Lemma chainIndices_spec fuel n index j :
  In j (chainIndices fuel n index)
  <-> exists k, (k < fuel)%nat /\ j = (index + Uploader.concurrencyLimit * k)%nat
                /\ (j < n)%nat.
Proof.
  revert index. induction fuel as [|fuel IH]; intros index; cbn [chainIndices].
  - split; [intros []|intros (k & Hk & _); lia].
  - destruct (Nat.ltb_spec index n) as [Hlt|Hge].
    + cbn [In]. rewrite IH. unfold Uploader.concurrencyLimit. split.
      * intros [<-|(k & Hk & -> & Hj)]; [exists 0%nat; lia|exists (S k); lia].
      * intros (k & Hk & -> & Hj). destruct k as [|k]; [left; lia|].
        right. exists k. lia.
    + split; [intros []|]. intros (k & Hk & -> & Hj). lia.
Qed.

Lemma chainIndices_NoDup fuel n index : NoDup (chainIndices fuel n index).
Proof.
  revert index. induction fuel as [|fuel IH]; intros index; cbn [chainIndices];
    [constructor|].
  destruct (index <? n)%nat; [|constructor].
  apply NoDup_cons. split; [|apply IH].
  rewrite list_elem_of_In, chainIndices_spec. unfold Uploader.concurrencyLimit.
  intros (k & _ & Heq & _). lia.
Qed.

Lemma chains_cover n :
  Permutation
    (concat (map (chainIndices n n) (seq 0 (Nat.min Uploader.concurrencyLimit n))))
    (seq 0 n).
Proof.
  apply NoDup_Permutation.
  - assert (Hgen : forall m, (m <= Uploader.concurrencyLimit)%nat ->
              NoDup (concat (map (chainIndices n n) (seq 0 m)))).
    { induction m as [|m IH]; intros Hm; [constructor|].
      rewrite seq_S, map_app, concat_app. cbn [map concat plus]. rewrite app_nil_r.
      apply NoDup_app. split; [apply IH; lia|]. split; [|apply chainIndices_NoDup].
      intros j Hin Hin'. apply list_elem_of_In in Hin, Hin'.
      apply in_concat in Hin as (chain & Hchain & Hin).
      apply in_map_iff in Hchain as (i & <- & Hi). apply in_seq in Hi.
      apply chainIndices_spec in Hin as (k & _ & Hj & _).
      apply chainIndices_spec in Hin' as (k' & _ & Hj' & _).
      unfold Uploader.concurrencyLimit in *. lia. }
    apply Hgen. lia.
  - apply NoDup_seq.
  - intros j. rewrite !list_elem_of_In, in_seq. split.
    + intros Hin. apply in_concat in Hin as (chain & Hchain & Hin).
      apply in_map_iff in Hchain as (i & <- & Hi).
      apply chainIndices_spec in Hin as (k & _ & _ & Hj). lia.
    + intros [_ Hj]. apply in_concat.
      exists (chainIndices n n (j mod Uploader.concurrencyLimit)). split.
      * apply in_map. apply in_seq. unfold Uploader.concurrencyLimit.
        pose proof (Nat.mod_upper_bound j 5 ltac:(lia)).
        pose proof (Nat.Div0.mod_le j 5). lia.
      * apply chainIndices_spec. exists (j / Uploader.concurrencyLimit)%nat.
        unfold Uploader.concurrencyLimit.
        pose proof (Nat.div_mod_eq j 5).
        pose proof (Nat.mod_upper_bound j 5 ltac:(lia)). lia.
Qed.

Lemma processEntry_exactly entries payloads :
  Forall2 transfersExactly entries payloads ->
  forall fuel index t,
    Permutation
      (map payload (fst (Uploader.processEntry fuel entries index t)))
      (flat_map (fun j => default [] (payloads !! j))
                (chainIndices fuel (length entries) index)).
Proof.
  intros Hall. induction fuel as [|fuel IH]; intros index t; [done|].
  cbn [Uploader.processEntry chainIndices].
  destruct (entries !! index) as [entry|] eqn:Hentry.
  - pose proof (lookup_lt_Some _ _ _ Hentry) as Hlt.
    destruct (Nat.ltb_spec index (length entries)) as [_|Hge];
      [|exfalso; exact (Nat.lt_irrefl _ (Nat.lt_le_trans _ _ _ Hlt Hge))].
    destruct (Forall2_lookup_l _ _ _ _ _ Hall Hentry) as (ps & Hps & Hexact).
    cbn [fst flat_map]. rewrite map_app, Hps. cbn [default].
    apply Permutation_app; [apply Hexact|apply IH].
  - apply lookup_ge_None in Hentry.
    destruct (Nat.ltb_spec index (length entries)) as [Hlt|_];
      [exfalso; exact (Nat.lt_irrefl _ (Nat.lt_le_trans _ _ _ Hlt Hentry))|done].
Qed.

Lemma flat_map_lookup {A} (pre l : list (list A)) :
  flat_map (fun j => default [] ((pre ++ l) !! j)) (seq (length pre) (length l)) = concat l.
Proof.
  revert pre. induction l as [|x l IH]; intros pre; [done|].
  cbn [length seq flat_map concat].
  rewrite lookup_app_r by lia. rewrite Nat.sub_diag. cbn [lookup list_lookup default].
  f_equal. specialize (IH (pre ++ [x])).
  rewrite <- app_assoc, length_app in IH. cbn [length app] in IH.
  by rewrite Nat.add_1_r in IH.
Qed.

Lemma transferPass_exactly entries payloads :
  Forall2 transfersExactly entries payloads ->
  transfersExactly (Uploader.transferPass entries) (concat payloads).
Proof.
  intros Hall t. unfold Uploader.transferPass. cbn [fst].
  rewrite <- (flat_map_lookup [] payloads). cbn [app length].
  rewrite <- (Forall2_length _ _ _ Hall).
  etrans; [|apply Permutation_flat_map, chains_cover].
  generalize (seq 0 (Nat.min Uploader.concurrencyLimit (length entries))). intros starts.
  induction starts as [|i starts IH]; [done|].
  cbn [map concat]. rewrite map_app, flat_map_app.
  apply Permutation_app; [by apply processEntry_exactly|exact IH].
Qed.

Lemma uploadEntry_exactly s3 entry :
  forall dirPath s3Prefix,
    transfersExactly (Uploader.uploadEntry s3 dirPath s3Prefix entry)
                     (entryPayloads s3 dirPath s3Prefix entry).
Proof.
  induction entry as [name content|name entries IH] using Dirent_induction;
    intros dirPath s3Prefix.
  - intros t. done.
  - cbn [Uploader.uploadEntry entryPayloads dirent_name].
    rewrite flat_map_concat_map. apply transferPass_exactly.
    apply Forall2_fmap. apply Forall_Forall2_diag.
    eapply Forall_impl; [exact IH|]. intros e He. apply He.
Qed.

Lemma entryPayloads_length s3 entry :
  forall dirPath s3Prefix,
    Z.of_nat (length (entryPayloads s3 dirPath s3Prefix entry)) = entryFileCount entry.
Proof.
  induction entry as [name content|name entries IH] using Dirent_induction;
    intros dirPath s3Prefix; [done|].
  cbn [entryPayloads entryFileCount dirent_name].
  generalize (Path.join dirPath name) (Uploader.entryS3Key s3Prefix name). intros d p.
  induction IH as [|e es He _ IHes]; [done|].
  cbn [flat_map map fold_right]. rewrite length_app, Nat2Z.inj_add, He, IHes. done.
Qed.

(** X14.  An upload hands every file of the tree to the transport exactly
    once, also when transfers fail: the transfers of a run are, in some
    order, the files of the tree, each under the key and with the bytes
    the traversal gives it, so there are as many [PutObject] calls as the
    tree has files. *)
Theorem every_file_is_uploaded_once
    (s3 : S3) (dirPath s3Prefix : string) (entries : list Dirent) (t : nat) :
  Permutation
    (map payload (fst (Uploader.uploadDirectory s3 dirPath entries s3Prefix t)))
    (flat_map (entryPayloads s3 dirPath s3Prefix) entries)
  /\ Z.of_nat (length (fst (Uploader.uploadDirectory s3 dirPath entries s3Prefix t)))
     = fileCount entries.
Proof.
  assert (Hperm : Permutation
            (map payload (fst (Uploader.uploadDirectory s3 dirPath entries s3Prefix t)))
            (flat_map (entryPayloads s3 dirPath s3Prefix) entries)).
  { unfold Uploader.uploadDirectory. rewrite flat_map_concat_map.
    apply transferPass_exactly. apply Forall2_fmap. apply Forall_Forall2_diag.
    apply List.Forall_forall. intros e _. apply uploadEntry_exactly. }
  split; [exact Hperm|].
  apply Permutation_length in Hperm. rewrite length_map in Hperm. rewrite Hperm.
  unfold fileCount. clear Hperm.
  induction entries as [|e es IH]; [done|].
  cbn [flat_map map fold_right].
  by rewrite length_app, Nat2Z.inj_add, entryPayloads_length, IH.
Qed.

(** ** Where a downloaded file lands *)

(** X15.  The worker writes the object that the upload service stored
    for the file at [segments] of job [id] to [output/<id>/<segments>]:
    cutting the prefix off the key, dropping the slash and joining with
    the target directory gives back the relative path of the file. *)
Theorem downloaded_file_path (id : string) (segments : list string) :
  plainName id = true ->
  segments <> [] ->
  Forall (fun seg => plainName seg = true) segments ->
  Downloader.localFilePathOf id ("output/" +:+ id) (keyOf id segments)
  = String.concat "/" ("output" :: id :: segments).
Proof.
  intros Hid Hne Hplain. rewrite localFilePathOf_keyOf by done.
  change ("output/" +:+ id) with (String.concat "/" ["output"; id]).
  rewrite join_plain; [done|done|done| |done].
  by repeat constructor.
Qed.

Lemma downloaded_file_path_witness :
  Downloader.localFilePathOf "abc123" ("output/" +:+ "abc123")
    (keyOf "abc123" ["src"; "c.txt"])
  = String.concat "/" ["output"; "abc123"; "src"; "c.txt"].
Proof.
  apply (downloaded_file_path "abc123" ["src"; "c.txt"]).
  - reflexivity.
  - discriminate.
  - repeat constructor.
Defined.

(** ** The keys of a publication *)

Lemma map_flat_map {A B C} (f : B -> C) (g : A -> list B) l :
  map f (flat_map g l) = flat_map (fun x => map f (g x)) l.
Proof. induction l as [|x l IH]; [done|]. cbn [flat_map]. by rewrite map_app, IH. Qed.

Lemma deploy_processEntry_layout prefix entry :
  prefix <> [] ->
  Forall (fun seg => plainName seg = true) prefix ->
  forall rel dir,
    Forall (fun seg => plainName seg = true) rel ->
    plainTree entry = true ->
    map (fun u => (snd (fst u), snd u))
        (DeployUploader.processEntry (String.concat "/" prefix) dir
           (String.concat "/" rel) entry)
    = map (fun file =>
             (Js.replaceAll DeployUploader.isBackslash Path.slash
                (String.concat "/" (prefix ++ fst file)), snd file))
          (entryFiles rel entry).
Proof.
  intros Hne Hprefix.
  induction entry as [name content|name entries IH] using Dirent_induction;
    intros rel dir Hrel Hplain; cbn [plainTree dirent_name] in Hplain;
    apply andb_true_iff in Hplain as [Hname Hentries];
    cbn [DeployUploader.processEntry dirent_name entryFiles];
    rewrite (entryRelPath_plain rel name Hrel Hname).
  - cbn [map fst snd]. unfold DeployUploader.s3KeyOf.
    rewrite join_plain; [done|done|by destruct rel|done|].
    apply Forall_app. split; [done|by constructor].
  - rewrite !map_flat_map. apply forallb_plainTree in Hentries.
    assert (Hrel' : Forall (fun seg => plainName seg = true) (rel ++ [name])).
    { apply Forall_app. split; [done|by constructor]. }
    generalize (Path.join dir name). intros dir'.
    induction IH as [|e es He _ IHes]; [done|].
    apply Forall_cons in Hentries as [Hentry Hentries].
    cbn [flat_map]. rewrite (He (rel ++ [name]) dir' Hrel' Hentry). f_equal. by apply IHes.
Qed.

Lemma dist_layout dist id deploymentId :
  plainName id = true ->
  plainName deploymentId = true ->
  forallb plainTree dist = true ->
  map (fun u => (snd (fst u), snd u))
      (DeployUploader.processDirectory (DeployUploader.distPrefix id (Some deploymentId))
         (Path.join ("output/" +:+ id) "dist") "" dist)
  = map (fun file => (publishedKeyOf id deploymentId (fst file), snd file))
        (flat_map (entryFiles []) dist).
Proof.
  intros Hid Hdep Hdist.
  assert (Hprefix : DeployUploader.distPrefix id (Some deploymentId)
                    = String.concat "/" ["deployments"; id; deploymentId]).
  { unfold DeployUploader.distPrefix.
    apply plainName_spec in Hdep as (Hne & _).
    apply truthy_spec in Hne. by rewrite Hne. }
  rewrite Hprefix. unfold DeployUploader.processDirectory.
  rewrite !map_flat_map. apply forallb_plainTree in Hdist.
  generalize (Path.join ("output/" +:+ id) "dist"). intros dir.
  induction Hdist as [|e es He _ IHes]; [done|].
  cbn [flat_map]. f_equal; [|exact IHes].
  pose proof (deploy_processEntry_layout ["deployments"; id; deploymentId] e
                ltac:(done) ltac:(by repeat constructor) [] dir ltac:(constructor) He)
    as Hentry.
  change (String.concat "/" []) with "" in Hentry. exact Hentry.
Qed.

(** X16.  The publisher stores the file of the build output at the
    relative path [segments] under
    [deployments/<id>/<deploymentId>/<segments>], every backslash turned
    into a slash: the keys and contents of a publication are those of the
    files of the output, in traversal order. *)
Theorem publication_layout (dist : list Dirent) (id deploymentId : string) :
  plainName id = true ->
  plainName deploymentId = true ->
  forallb plainTree dist = true ->
  map (fun u => (snd (fst u), snd u))
      (DeployUploader.processDirectory (DeployUploader.distPrefix id (Some deploymentId))
         (Path.join ("output/" +:+ id) "dist") "" dist)
  = map (fun file => (publishedKeyOf id deploymentId (fst file), snd file))
        (flat_map (entryFiles []) dist)
  /\ DeployUploader.publishedKeys dist id (Some deploymentId)
     = map (fun file => publishedKeyOf id deploymentId (fst file))
           (flat_map (entryFiles []) dist).
Proof.
  intros Hid Hdep Hdist.
  pose proof (dist_layout dist id deploymentId Hid Hdep Hdist) as Hlayout.
  split; [exact Hlayout|].
  unfold DeployUploader.publishedKeys.
  apply (f_equal (map fst)) in Hlayout. rewrite !map_map in Hlayout. exact Hlayout.
Qed.

Lemma publication_layout_witness :
  map (fun u => (snd (fst u), snd u))
      (DeployUploader.processDirectory
         (DeployUploader.distPrefix "abc123" (Some "2024-05-01T10-20-30-456Z"))
         (Path.join ("output/" +:+ "abc123") "dist") "" threeFiles)
  = map (fun file => (publishedKeyOf "abc123" "2024-05-01T10-20-30-456Z" (fst file), snd file))
        (flat_map (entryFiles []) threeFiles)
  /\ DeployUploader.publishedKeys threeFiles "abc123" (Some "2024-05-01T10-20-30-456Z")
     = map (fun file => publishedKeyOf "abc123" "2024-05-01T10-20-30-456Z" (fst file))
           (flat_map (entryFiles []) threeFiles).
Proof.
  apply (publication_layout threeFiles "abc123" "2024-05-01T10-20-30-456Z");
    reflexivity.
Defined.

(** A name with a backslash is published under the key of a file one
    directory deeper. *)
Example backslash_in_a_name :
  DeployUploader.publishedKeys
    [File (String "a" (String "\" "b")) (bytesOf "x"); Directory "a" [File "b" (bytesOf "y")]]
    "abc123" (Some "t")
  = ["deployments/abc123/t/a/b"; "deployments/abc123/t/a/b"].
Proof. reflexivity. Qed.

(** ** An accepted submission *)

(** X17.  When the clone gives a tree, the transport rejects no call and
    the broker takes the push, the submission answers 200 with the new
    identifier and the measured duration, the bucket then holds every
    file of the clone under [<id>/<relative path>] with its bytes, and the
    identifier is at the head of the build queue. *)
Theorem accepted_submission_is_stored_and_queued
    (host : UploadController.Host) (repoUrl : string) (w : World) (tree : list Dirent) :
  UploadController.host_clone host repoUrl ("output/" +:+ UploadController.host_uuid host)
  = Ok tree ->
  (forall key, s3_fail (UploadController.host_s3 host) key = None) ->
  wellFormedTree tree = true ->
  UploadController.host_lPushError host = None ->
  let run := UploadController.uploadController host repoUrl w in
  snd run
  = UploadController.Json200 (UploadController.host_uuid host)
      (UploadController.host_endTime host - UploadController.host_startTime host)
  /\ queue (fst run) = UploadController.host_uuid host :: queue w
  /\ (forall segments content,
        In (segments, content) (flat_map (entryFiles []) tree) ->
        bucket (fst run) !! keyOf (UploadController.host_uuid host) segments = Some content).
Proof.
  intros Hclone Hreliable Hwf Hpush run. unfold run, UploadController.uploadController.
  rewrite Hclone.
  pose proof (upload_succeeds (UploadController.host_s3 host)
                (Path.join (UploadController.host_cwd host)
                   ("output/" +:+ UploadController.host_uuid host))
                (UploadController.host_uuid host) tree 0%nat Hreliable Hwf) as Hok.
  pose proof (uploaded_bucket_lookup (UploadController.host_s3 host)
                (Path.join (UploadController.host_cwd host)
                   ("output/" +:+ UploadController.host_uuid host))
                (UploadController.host_uuid host) tree 0%nat Hreliable Hwf (bucket w))
    as Hlookup.
  destruct (Uploader.uploadDirectory _ _ _ _ _) as [transfers [t' uploaded]].
  cbn [fst snd] in Hok, Hlookup. subst uploaded. rewrite Hpush. cbn.
  split; [done|]. split; [done|].
  intros segments content Hfile. apply Hlookup. left. eauto.
Qed.

Lemma accepted_submission_is_stored_and_queued_witness :
  snd (UploadController.uploadController (submissionHost None) "https://example/repo.git"
         emptyWorld)
  = UploadController.Json200 "abc123" (1450 - 1000)
  /\ queue (fst (UploadController.uploadController (submissionHost None)
                   "https://example/repo.git" emptyWorld)) = "abc123" :: queue emptyWorld
  /\ (forall segments content,
        In (segments, content) (flat_map (entryFiles []) threeFiles) ->
        bucket (fst (UploadController.uploadController (submissionHost None)
                       "https://example/repo.git" emptyWorld))
          !! keyOf "abc123" segments = Some content).
Proof.
  apply (accepted_submission_is_stored_and_queued (submissionHost None)
           "https://example/repo.git" emptyWorld threeFiles).
  - reflexivity.
  - intros key. reflexivity.
  - reflexivity.
  - reflexivity.
Defined.

(** ** A fulfilled promise leaves no transfer in flight *)

Lemma fold_max_from t (ps : list (nat * result unit)) :
  (t <= fold_right Nat.max t (map fst ps))%nat
  /\ forall p, In p ps -> (fst p <= fold_right Nat.max t (map fst ps))%nat.
Proof.
  induction ps as [|q ps [IHt IHp]]; cbn [map fold_right].
  - split; [lia|intros p []].
  - split; [lia|]. intros p [<-|Hin]; [lia|]. specialize (IHp p Hin). lia.
Qed.

Lemma promiseAll_orderly (runs : list (list Transfer * (nat * result unit))) t :
  Forall quiescent runs ->
  (t <= fst (promiseAll (map snd runs) t))%nat
  /\ quiescent (concat (map fst runs), promiseAll (map snd runs) t).
Proof.
  intros Hruns. unfold promiseAll.
  destruct (firstRejection (map snd runs)) as [[t' e]|] eqn:Hfirst.
  - cbn [fst snd]. split; [lia|]. intros Hok. done.
  - destruct (fold_max_from t (map snd runs)) as [Hfrom Hmember].
    cbn [fst snd]. split; [exact Hfrom|]. intros _ tr Hin. cbn [fst snd] in *.
    apply in_concat in Hin as (trs & Htrs & Hin).
    apply in_map_iff in Htrs as ([trs' [t' r]] & Heq & Hrun). cbn [fst] in Heq. subst trs'.
    assert (Hok : is_ok r = true).
    { apply (firstRejection_None _ t' r Hfirst).
      apply in_map_iff. exists (trs, (t', r)). split; [done|exact Hrun]. }
    pose proof (proj1 (List.Forall_forall _ _) Hruns _ Hrun Hok tr Hin) as Hend.
    cbn [fst snd] in Hend.
    specialize (Hmember (t', r)). cbn [fst] in Hmember.
    etrans; [exact Hend|]. apply Hmember.
    apply in_map_iff. exists (trs, (t', r)). split; [done|exact Hrun].
Qed.

Lemma processEntry_orderly fuel entries :
  Forall orderly entries ->
  forall index, orderly (Uploader.processEntry fuel entries index).
Proof.
  intros Hentries. induction fuel as [|fuel IH]; intros index t;
    cbn [Uploader.processEntry].
  - split; [cbn; lia|]. intros _ tr [].
  - destruct (entries !! index) as [entry|] eqn:Hentry; [|split; [cbn; lia|intros _ tr []]].
    destruct (Forall_lookup_1 _ _ _ _ Hentries Hentry t) as [Hstart Hquiet].
    cbv zeta. destruct (entry t) as [trs1 [t1 r1]]. cbn [fst snd] in *.
    destruct (IH (index + Uploader.concurrencyLimit)%nat t1) as [Hstart' Hquiet'].
    destruct (Uploader.processEntry fuel entries _ t1) as [trs2 [t2 r2]].
    cbn [fst snd] in *. split; [lia|].
    intros Hok tr Hin. cbn [fst snd] in *.
    destruct r2 as [[]|e2]; [|done].
    apply in_app_or in Hin as [Hin|Hin].
    + specialize (Hquiet Hok tr Hin). cbn [fst snd] in Hquiet. lia.
    + exact (Hquiet' eq_refl tr Hin).
Qed.

Lemma transferPass_orderly entries :
  Forall orderly entries -> orderly (Uploader.transferPass entries).
Proof.
  intros Hentries t. unfold Uploader.transferPass.
  apply (promiseAll_orderly
           (map (fun i => Uploader.processEntry (length entries) entries i t)
                (seq 0 (Nat.min Uploader.concurrencyLimit (length entries)))) t).
  apply List.Forall_forall. intros run Hrun.
  apply in_map_iff in Hrun as (i & <- & _).
  by apply processEntry_orderly.
Qed.

Lemma uploadEntry_orderly s3 entry :
  forall dirPath s3Prefix, orderly (Uploader.uploadEntry s3 dirPath s3Prefix entry).
Proof.
  induction entry as [name content|name entries IH] using Dirent_induction;
    intros dirPath s3Prefix.
  - intros t. cbn. split; [lia|]. intros _ tr [<-|[]]. cbn. lia.
  - cbn [Uploader.uploadEntry]. apply transferPass_orderly.
    apply List.Forall_forall. intros op Hop.
    apply in_map_iff in Hop as (e & <- & He).
    exact (proj1 (List.Forall_forall _ _) IH e He _ _).
Qed.

(** X19.  When the promise of an upload is fulfilled, every transfer of
    the run, at any depth of the tree, has ended: no [PutObject] is still
    in flight when [uploadDirectory] returns, so the caller may queue the
    job. *)
Theorem fulfilled_upload_has_ended
    (s3 : S3) (dirPath s3Prefix : string) (entries : list Dirent) (t : nat) (tr : Transfer) :
  is_ok (snd (snd (Uploader.uploadDirectory s3 dirPath entries s3Prefix t))) = true ->
  In tr (fst (Uploader.uploadDirectory s3 dirPath entries s3Prefix t)) ->
  (tr_end tr <= fst (snd (Uploader.uploadDirectory s3 dirPath entries s3Prefix t)))%nat
  /\ inFlightAt (fst (snd (Uploader.uploadDirectory s3 dirPath entries s3Prefix t))) tr
     = false.
Proof.
  intros Hok Hin.
  assert (Horderly : orderly (Uploader.uploadDirectory s3 dirPath entries s3Prefix)).
  { unfold Uploader.uploadDirectory. apply transferPass_orderly.
    apply List.Forall_forall. intros op Hop.
    apply in_map_iff in Hop as (e & <- & _). apply uploadEntry_orderly. }
  destruct (Horderly t) as [_ Hquiet]. specialize (Hquiet Hok tr Hin).
  split; [exact Hquiet|]. unfold inFlightAt.
  destruct (Nat.ltb_spec (fst (snd (Uploader.uploadDirectory s3 dirPath entries s3Prefix t)))
              (tr_end tr)) as [Hlt|_]; [lia|apply andb_false_r].
Qed.

Lemma fulfilled_upload_has_ended_witness :
  (tr_end (mkTransfer "abc123/a.txt" "/srv/output/abc123/a.txt" (repeat "a"%byte 100)
             0%nat 1%nat None)
   <= fst (snd (Uploader.uploadDirectory reliable "/srv/output/abc123" threeFiles "abc123"
                  0%nat)))%nat
  /\ inFlightAt
       (fst (snd (Uploader.uploadDirectory reliable "/srv/output/abc123" threeFiles "abc123"
                    0%nat)))
       (mkTransfer "abc123/a.txt" "/srv/output/abc123/a.txt" (repeat "a"%byte 100)
          0%nat 1%nat None)
     = false.
Proof.
  apply (fulfilled_upload_has_ended reliable "/srv/output/abc123" "abc123" threeFiles 0%nat).
  - reflexivity.
  - left. reflexivity.
Defined.

Lemma transferLoop_quiescent s3 s3Prefix localDir replies t promises :
  Forall (Forall quiescent) promises ->
  Forall (Forall quiescent)
         (fst (Downloader.transferLoop s3 s3Prefix localDir replies t promises)).
Proof.
  revert t promises. induction replies as [|[response|e] rest IH]; intros t promises Hp;
    cbn [Downloader.transferLoop]; try done.
  assert (Hpage : Forall (Forall quiescent)
            (promises ++ match Contents response with
                         | Some objs =>
                             Downloader.pageLoop s3 s3Prefix localDir
                               (t + 1 + s3_listLatency s3) objs []
                         | None => []
                         end)).
  { apply Forall_app. split; [done|].
    destruct (Contents response) as [objs|]; [|constructor].
    apply Forall_concat.
    rewrite pageLoop_concat. cbn [app]. unfold pageDownloads.
    apply List.Forall_forall. intros run Hrun.
    apply in_map_iff in Hrun as (key & <- & _).
    intros _ tr [<-|[]]. cbn. lia. }
  destruct (IsTruncated response); [by apply IH|done].
Qed.

(** X20.  When the promise of a download is fulfilled, every transfer of
    the run has ended: the worker starts the build only after the last
    file has been written. *)
Theorem fulfilled_download_has_ended
    (s3 : S3) (s3Prefix localDir : string) (t : nat) (tr : Transfer) :
  is_ok (snd (snd (Downloader.downloadFromS3 s3 s3Prefix localDir t))) = true ->
  In tr (fst (Downloader.downloadFromS3 s3 s3Prefix localDir t)) ->
  (tr_end tr <= fst (snd (Downloader.downloadFromS3 s3 s3Prefix localDir t)))%nat
  /\ inFlightAt (fst (snd (Downloader.downloadFromS3 s3 s3Prefix localDir t))) tr = false.
Proof.
  intros Hok Hin.
  assert (Hend : (tr_end tr
                  <= fst (snd (Downloader.downloadFromS3 s3 s3Prefix localDir t)))%nat).
  { revert Hok Hin. unfold Downloader.downloadFromS3.
    destruct (Downloader.calculateS3Stats _ _) as [stats|e]; [|done].
    set (t1 := (t + _)%nat).
    pose proof (transferLoop_quiescent s3 s3Prefix localDir (s3_list s3 s3Prefix) t1 []
                  ltac:(constructor)) as Hmembers.
    destruct (Downloader.transferLoop _ _ _ _ _ _) as [batches [t2 [[]|e]]]; [|done].
    cbn [fst snd] in *. intros Hok Hin.
    assert (Htrs : Downloader.transfersOf batches
                   = concat (map fst (map (fun batch =>
                               (concat (map fst batch), Downloader.batchPromise t2 batch))
                               batches))).
    { unfold Downloader.transfersOf. rewrite map_map. cbn [fst].
      clear. induction batches as [|b bs IH]; [done|].
      cbn [concat map]. rewrite map_app, concat_app. by rewrite IH. }
    assert (Hres : map (Downloader.batchPromise t2) batches
                   = map snd (map (fun batch =>
                               (concat (map fst batch), Downloader.batchPromise t2 batch))
                               batches)).
    { by rewrite map_map. }
    rewrite Htrs in Hin. rewrite Hres in Hok |- *.
    eapply (proj2 (promiseAll_orderly _ t2 _)); [exact Hok|exact Hin]. Unshelve.
    apply List.Forall_forall. intros run Hrun.
    apply in_map_iff in Hrun as (batch & <- & Hbatch).
    unfold Downloader.batchPromise. apply promiseAll_orderly.
    exact (proj1 (List.Forall_forall _ _) Hmembers batch Hbatch). }
  split; [exact Hend|]. unfold inFlightAt.
  destruct (Nat.ltb_spec (fst (snd (Downloader.downloadFromS3 s3 s3Prefix localDir t)))
              (tr_end tr)) as [Hlt|_]; [lia|apply andb_false_r].
Qed.

Lemma fulfilled_download_has_ended_witness :
  (tr_end (mkTransfer "job/f0" "output/job/f0" (repeat "x"%byte 10) 2%nat 3%nat None)
   <= fst (snd (Downloader.downloadFromS3
                  (sixObjectStore (fun _ => None) (fun _ => 0%nat) 0%nat)
                  "job" "output/job" 0%nat)))%nat
  /\ inFlightAt
       (fst (snd (Downloader.downloadFromS3
                    (sixObjectStore (fun _ => None) (fun _ => 0%nat) 0%nat)
                    "job" "output/job" 0%nat)))
       (mkTransfer "job/f0" "output/job/f0" (repeat "x"%byte 10) 2%nat 3%nat None)
     = false.
Proof.
  apply (fulfilled_download_has_ended
           (sixObjectStore (fun _ => None) (fun _ => 0%nat) 0%nat) "job" "output/job" 0%nat).
  - reflexivity.
  - left. reflexivity.
Defined.

(** ** The listing is read before the first object is requested *)

Lemma transferLoop_starts s3 s3Prefix localDir t0 replies :
  forall t promises,
    (t0 <= t + 1 + s3_listLatency s3)%nat ->
    Forall (fun tr => (t0 <= tr_start tr)%nat) (Downloader.transfersOf promises) ->
    Forall (fun tr => (t0 <= tr_start tr)%nat)
           (Downloader.transfersOf
              (fst (Downloader.transferLoop s3 s3Prefix localDir replies t promises))).
Proof.
  induction replies as [|[response|e] rest IH]; intros t promises Ht Hp;
    cbn [Downloader.transferLoop]; try done.
  assert (Hpage : Forall (fun tr => (t0 <= tr_start tr)%nat)
            (Downloader.transfersOf
               (promises ++ match Contents response with
                            | Some objs =>
                                Downloader.pageLoop s3 s3Prefix localDir
                                  (t + 1 + s3_listLatency s3) objs []
                            | None => []
                            end))).
  { unfold Downloader.transfersOf in *. rewrite concat_app, map_app, concat_app.
    apply Forall_app. split; [done|].
    destruct (Contents response) as [objs|]; [|constructor].
    rewrite pageLoop_concat. cbn [app].
    eapply Forall_impl; [apply pageDownloads_started|].
    intros tr [Hstart _]. cbn beta in Hstart. lia. }
  destruct (IsTruncated response); [|done].
  apply IH; [lia|done].
Qed.

(** X21.  A download requests its first object only after it has read
    the whole listing once, for the statistics, and the first page a
    second time: every transfer starts at least one listing call after the
    statistics pass has ended. *)
Theorem download_starts_after_the_statistics_pass
    (s3 : S3) (s3Prefix localDir : string) (t : nat) (tr : Transfer) :
  In tr (fst (Downloader.downloadFromS3 s3 s3Prefix localDir t)) ->
  (t + Downloader.listingCalls (s3_list s3 s3Prefix) * (1 + s3_listLatency s3)
   + 1 + s3_listLatency s3 <= tr_start tr)%nat.
Proof.
  unfold Downloader.downloadFromS3.
  destruct (Downloader.calculateS3Stats _ _) as [stats|e]; [|intros []].
  pose proof (transferLoop_starts s3 s3Prefix localDir
                (t + Downloader.listingCalls (s3_list s3 s3Prefix) * (1 + s3_listLatency s3)
                 + 1 + s3_listLatency s3)
                (s3_list s3 s3Prefix)
                (t + Downloader.listingCalls (s3_list s3 s3Prefix) * (1 + s3_listLatency s3))
                [] ltac:(lia) ltac:(constructor)) as Hstarts.
  destruct (Downloader.transferLoop _ _ _ _ _ _) as [batches [t2 [[]|e]]];
    cbn [fst snd] in *; intros Hin;
    exact (proj1 (List.Forall_forall _ _) Hstarts tr Hin).
Qed.

Lemma download_starts_after_the_statistics_pass_witness :
  (0 + Downloader.listingCalls
         (s3_list (sixObjectStore (fun _ => None) (fun _ => 0%nat) 3%nat) "job")
       * (1 + s3_listLatency (sixObjectStore (fun _ => None) (fun _ => 0%nat) 3%nat))
   + 1 + s3_listLatency (sixObjectStore (fun _ => None) (fun _ => 0%nat) 3%nat)
   <= tr_start (mkTransfer "job/f0" "output/job/f0" (repeat "x"%byte 10) 8%nat 9%nat None))%nat.
Proof.
  apply (download_starts_after_the_statistics_pass
           (sixObjectStore (fun _ => None) (fun _ => 0%nat) 3%nat) "job" "output/job" 0%nat).
  left. reflexivity.
Defined.

(** ** What a rejected upload leaves behind *)

Lemma applyPuts_successes trs :
  forall bucket,
    applyPuts trs bucket = applyPuts (filter (fun tr => tr_error tr = None) trs) bucket.
Proof.
  unfold applyPuts. induction trs as [|tr trs IH]; intros bucket; [done|].
  rewrite filter_cons. cbn [fold_left].
  destruct (decide (tr_error tr = None)) as [Hok|Hfailed].
  - cbn [fold_left]. apply IH.
  - rewrite <- IH. f_equal. unfold applyPut. by destruct (tr_error tr).
Qed.

Lemma upload_transfer_origin s3 dirPath s3Prefix entries t tr :
  wellFormedTree entries = true ->
  In tr (fst (Uploader.uploadDirectory s3 dirPath entries s3Prefix t)) ->
  exists segs,
    In (segs, tr_body tr) (flat_map (entryFiles []) entries)
    /\ tr_key tr = keyOf s3Prefix segs
    /\ tr_error tr = s3_fail s3 (tr_key tr).
Proof.
  intros Hwf Hin. apply (in_map payload) in Hin.
  apply (uploadDirectory_payloads s3 dirPath entries s3Prefix t) in Hin.
  apply in_flat_map in Hin as (e & He & Hin).
  destruct (wellFormedTree_spec entries Hwf) as [_ Hall].
  change s3Prefix with (prefixAt s3Prefix []) in Hin.
  destruct (entryPayloads_sound s3 s3Prefix e [] dirPath (payload tr) ltac:(constructor)
              (proj1 (List.Forall_forall _ _) Hall e He) Hin)
    as (segs & content & path & Hfile & Heq).
  unfold payload in Heq. injection Heq as Hkey Hpath Hbody Herr.
  exists segs. rewrite Hbody, Hkey, Herr. split; [|done].
  apply in_flat_map. eauto.
Qed.

(** X22.  An upload has no rollback: every file of the tree whose own
    [PutObject] is not rejected is in the bucket afterwards, under
    [<s3Prefix>/<relative path>] and with its bytes, whether or not other
    transfers failed and the call as a whole was rejected. *)
Theorem upload_keeps_what_went_through
    (s3 : S3) (dirPath s3Prefix : string) (entries : list Dirent) (t : nat)
    (bucket : gmap string (list byte)) (segments : list string) (content : list byte) :
  wellFormedTree entries = true ->
  In (segments, content) (flat_map (entryFiles []) entries) ->
  s3_fail s3 (keyOf s3Prefix segments) = None ->
  applyPuts (fst (Uploader.uploadDirectory s3 dirPath entries s3Prefix t)) bucket
    !! keyOf s3Prefix segments
  = Some content.
Proof.
  intros Hwf Hfile Hok. rewrite applyPuts_successes. apply applyPuts_lookup.
  - apply List.Forall_forall. intros tr Hin.
    apply list_elem_of_In, list_elem_of_filter in Hin as [Hnone _]. exact Hnone.
  - intros tr tr' Hin Hin' Hkey.
    apply list_elem_of_In, list_elem_of_filter in Hin as [_ Hin%list_elem_of_In].
    apply list_elem_of_In, list_elem_of_filter in Hin' as [_ Hin'%list_elem_of_In].
    destruct (upload_transfer_origin s3 dirPath s3Prefix entries t tr Hwf Hin)
      as (segs & Hsegs & Hk & _).
    destruct (upload_transfer_origin s3 dirPath s3Prefix entries t tr' Hwf Hin')
      as (segs' & Hsegs' & Hk' & _).
    destruct (treeSegments_plain entries segs _ Hwf Hsegs) as [Hne Hplain].
    destruct (treeSegments_plain entries segs' _ Hwf Hsegs') as [Hne' Hplain'].
    assert (segs = segs') as <-.
    { apply (keyOf_injective s3Prefix); try done. congruence. }
    exact (NoDup_fst_functional _ _ _ _ (treeSegments_NoDup entries Hwf) Hsegs Hsegs').
  - left.
    destruct (wellFormedTree_spec entries Hwf) as [_ Hall].
    apply in_flat_map in Hfile as (e & He & Hfile).
    destruct (entryPayloads_complete s3 s3Prefix e [] dirPath segments content
                ltac:(constructor) (proj1 (List.Forall_forall _ _) Hall e He) Hfile)
      as [path Hpath].
    change (prefixAt s3Prefix []) with s3Prefix in Hpath.
    assert (Hin : In (keyOf s3Prefix segments, path, content,
                      s3_fail s3 (keyOf s3Prefix segments))
                     (flat_map (entryPayloads s3 dirPath s3Prefix) entries)).
    { apply in_flat_map. eauto. }
    apply (uploadDirectory_payloads s3 dirPath entries s3Prefix t) in Hin.
    apply in_map_iff in Hin as (tr & Heq & Hin).
    unfold payload in Heq. injection Heq as Hkey Hpath' Hbody Herr.
    exists tr. split; [|done].
    apply list_elem_of_In, list_elem_of_filter. split; [congruence|].
    by apply list_elem_of_In.
Qed.

Lemma upload_keeps_what_went_through_witness :
  applyPuts (fst (Uploader.uploadDirectory f0Fails "/srv/output/job" sixFiles "job" 0%nat)) ∅
    !! keyOf "job" ["f5"]
  = Some (bytesOf "5").
Proof.
  apply (upload_keeps_what_went_through f0Fails "/srv/output/job" "job" sixFiles 0%nat ∅
           ["f5"] (bytesOf "5")).
  - reflexivity.
  - cbn. tauto.
  - reflexivity.
Defined.

(** ** Reading a publication back *)

Lemma hasChar_append c a b : hasChar c (a +:+ b) = hasChar c a || hasChar c b.
Proof.
  induction a as [|x a IH]; [done|].
  rewrite append_cons. cbn [hasChar]. by rewrite IH, orb_assoc.
Qed.

Lemma hasChar_concat c segs :
  c <> Path.slash ->
  Forall (fun seg => hasChar c seg = false) segs ->
  hasChar c (String.concat "/" segs) = false.
Proof.
  intros Hc Hsegs. induction Hsegs as [|seg segs Hseg Hsegs IH]; [done|].
  destruct segs as [|seg' segs]; [exact Hseg|].
  assert (Hslash : hasChar c "/" = false).
  { cbn [hasChar]. rewrite orb_false_r. apply Ascii.eqb_neq. intros Heq. by apply Hc. }
  rewrite concat_cons by done. by rewrite !hasChar_append, Hseg, IH, Hslash.
Qed.

Lemma replaceAll_absent by_ s :
  hasChar "\"%char s = false -> Js.replaceAll DeployUploader.isBackslash by_ s = s.
Proof.
  induction s as [|a s IH]; [done|]. cbn [hasChar Js.replaceAll].
  intros [Ha Hs]%orb_false_iff. unfold DeployUploader.isBackslash at 1.
  by rewrite Ha, (IH Hs).
Qed.

Lemma entryFiles_backslashFree entry :
  forall rel segs content,
    Forall (fun seg => hasChar "\"%char seg = false) rel ->
    backslashFree entry = true ->
    In (segs, content) (entryFiles rel entry) ->
    Forall (fun seg => hasChar "\"%char seg = false) segs.
Proof.
  induction entry as [name body|name entries IH] using Dirent_induction;
    intros rel segs content Hrel Hfree Hin; cbn [backslashFree dirent_name] in Hfree;
    apply andb_true_iff in Hfree as [Hname Hentries]; apply negb_true_iff in Hname;
    cbn [entryFiles] in Hin.
  - destruct Hin as [[= <- <-]|[]]. apply Forall_app. split; [done|by constructor].
  - apply in_flat_map in Hin as (e & He & Hin).
    apply (proj1 (List.Forall_forall _ _) IH e He (rel ++ [name]) segs content);
      [|exact (proj1 (forallb_forall _ _) Hentries e He)|done].
    apply Forall_app. split; [done|by constructor].
Qed.

Lemma wellFormed_plainTree entry : wellFormed entry = true -> plainTree entry = true.
Proof.
  induction entry as [name body|name entries IH] using Dirent_induction; [done|].
  intros Hwf. pose proof (wellFormed_name _ Hwf) as Hname.
  apply wellFormed_directory in Hwf as [_ Hall].
  cbn [plainTree dirent_name] in *. rewrite Hname. cbn [andb].
  apply forallb_forall. intros e He.
  apply (proj1 (List.Forall_forall _ _) IH e He).
  exact (proj1 (List.Forall_forall _ _) Hall e He).
Qed.

Lemma fold_put_stored s3 uploads :
  (forall key, s3_fail s3 key = None) ->
  NoDup (map (fun u => snd (fst u)) uploads) ->
  forall bucket key content,
    In (key, content) (map (fun u => (snd (fst u), snd u)) uploads) ->
    fold_left (DeployUploader.put s3) uploads bucket !! key = Some content.
Proof.
  intros Hreliable. induction uploads as [|[[path k] c] uploads IH];
    intros Hnodup bucket key content Hin; [done|].
  cbn [map fst snd] in Hnodup, Hin. apply NoDup_cons in Hnodup as [Hnotin Hnodup].
  cbn [fold_left]. unfold DeployUploader.put at 2. rewrite Hreliable.
  destruct Hin as [[= <- <-]|Hin]; [|by apply IH].
  rewrite fold_put_lookup; [apply lookup_insert_eq|].
  intros u Hu _ Heq. apply Hnotin. apply list_elem_of_In, in_map_iff. by exists u.
Qed.

(** X23.  A publication can be read back: over a transport that rejects
    no call, [uploadDistFolder] is fulfilled and the bucket then holds,
    for every file of the build output, the bytes of the file under
    [deployments/<id>/<deploymentId>/<relative path>] (names and
    identifiers being single path segments without a backslash, no two
    entries of a directory having the same name). *)
Theorem publication_can_be_read_back
    (s3 : S3) (dist : list Dirent) (id deploymentId : string)
    (bucket : gmap string (list byte)) (segments : list string) (content : list byte) :
  (forall key, s3_fail s3 key = None) ->
  plainName id = true -> hasChar "\"%char id = false ->
  plainName deploymentId = true -> hasChar "\"%char deploymentId = false ->
  wellFormedTree dist = true -> forallb backslashFree dist = true ->
  In (segments, content) (flat_map (entryFiles []) dist) ->
  snd (DeployUploader.uploadDistFolder s3 (Some dist) id (Some deploymentId) bucket) = Ok tt
  /\ fst (DeployUploader.uploadDistFolder s3 (Some dist) id (Some deploymentId) bucket)
       !! String.concat "/" ("deployments" :: id :: deploymentId :: segments)
     = Some content.
Proof.
  intros Hreliable Hid Hid' Hdep Hdep' Hwf Hfree Hfile.
  assert (Hplain : forallb plainTree dist = true).
  { apply forallb_forall. intros e He. apply wellFormed_plainTree.
    destruct (wellFormedTree_spec dist Hwf) as [_ Hall].
    exact (proj1 (List.Forall_forall _ _) Hall e He). }
  assert (Hkey : forall segs c,
            In (segs, c) (flat_map (entryFiles []) dist) ->
            publishedKeyOf id deploymentId segs
            = String.concat "/" ("deployments" :: id :: deploymentId :: segs)).
  { intros segs c Hin. unfold publishedKeyOf. apply replaceAll_absent.
    apply hasChar_concat; [done|].
    repeat (constructor; [done|]).
    apply in_flat_map in Hin as (e & He & Hin).
    apply (entryFiles_backslashFree e [] segs c); [constructor| |done].
    exact (proj1 (forallb_forall _ _) Hfree e He). }
  pose proof (dist_layout dist id deploymentId Hid Hdep Hplain) as Hlayout.
  unfold DeployUploader.uploadDistFolder, DeployUploader.uploadDirectory. cbn [fst snd].
  split.
  - assert (Hnone : DeployUploader.firstFailure s3
                      (DeployUploader.processDirectory
                         (DeployUploader.distPrefix id (Some deploymentId))
                         (Path.join ("output/" +:+ id) "dist") "" dist) = None).
    { apply firstFailure_None. intros u _. apply Hreliable. }
    by rewrite Hnone.
  - apply fold_put_stored; [done| |].
    + replace (map (fun u => snd (fst u))
                 (DeployUploader.processDirectory
                    (DeployUploader.distPrefix id (Some deploymentId))
                    (Path.join ("output/" +:+ id) "dist") "" dist))
        with (map (publishedKeyOf id deploymentId)
                  (map fst (flat_map (entryFiles []) dist))).
      2: { apply (f_equal (map fst)) in Hlayout. rewrite !map_map in Hlayout.
           rewrite map_map. symmetry. exact Hlayout. }
      apply (NoDup_fmap_2_strong (publishedKeyOf id deploymentId));
        [|exact (treeSegments_NoDup dist Hwf)].
      intros segs segs' Hin Hin' Heq.
      apply list_elem_of_In, in_map_iff in Hin as ([segs0 c] & <- & Hin).
      apply list_elem_of_In, in_map_iff in Hin' as ([segs0' c'] & <- & Hin').
      cbn [fst] in *.
      rewrite (Hkey _ _ Hin), (Hkey _ _ Hin') in Heq.
      destruct (treeSegments_plain dist _ _ Hwf Hin) as [_ Hsegs].
      destruct (treeSegments_plain dist _ _ Hwf Hin') as [_ Hsegs'].
      apply concat_plain_injective in Heq; [by injection Heq|done|done| |];
        by repeat (constructor; [done|]).
    + rewrite Hlayout, <- (Hkey segments content Hfile).
      apply in_map_iff. by exists (segments, content).
Qed.

Lemma publication_can_be_read_back_witness :
  snd (DeployUploader.uploadDistFolder reliable (Some threeFiles) "abc123"
         (Some "2024-05-01T10-20-30-456Z") ∅) = Ok tt
  /\ fst (DeployUploader.uploadDistFolder reliable (Some threeFiles) "abc123"
            (Some "2024-05-01T10-20-30-456Z") ∅)
       !! String.concat "/"
            ("deployments" :: "abc123" :: "2024-05-01T10-20-30-456Z" :: ["src"; "c.txt"])
     = Some (repeat "c"%byte 200).
Proof.
  apply (publication_can_be_read_back reliable threeFiles "abc123"
           "2024-05-01T10-20-30-456Z" ∅ ["src"; "c.txt"] (repeat "c"%byte 200));
    try reflexivity.
  cbn. tauto.
Defined.

(** ** Upload, then download, of a tree without empty files *)

(** X24.  Upload, then download: a tree of [F] files as a file system
    holds it, none of them empty, is uploaded over a transport that rejects
    no call, to a prefix under which the bucket holds nothing; the
    download of that prefix into an empty directory, from a store that
    serves the bucket in pages of any size and rejects no call, then
    succeeds and leaves exactly the files of the tree: the same [F] paths
    below the target directory, each with the bytes of the original. *)
Theorem upload_then_download_restores_tree
    (s3 : S3) (pageSize : nat) (latency : string -> nat) (listLatency : nat)
    (dirPath id localDir : string) (entries : list Dirent)
    (bucket : gmap string (list byte)) (t t' : nat) :
  (forall key, s3_fail s3 key = None) ->
  (0 < pageSize)%nat ->
  wellFormedTree entries = true ->
  forallb noEmptyFile entries = true ->
  (forall key, is_Some (bucket !! key) -> Js.startsWith id key = false) ->
  let up := Uploader.uploadDirectory s3 dirPath entries id t in
  let store :=
    serving pageSize (applyPuts (fst up) bucket) (fun _ => None) latency listLatency in
  let down := Downloader.downloadFromS3 store id localDir t' in
  snd (snd up) = Ok tt
  /\ snd (snd down) = Ok tt
  /\ applyWrites (fst down) ∅ = list_to_map (filesBelow localDir entries)
  /\ NoDup (map fst (filesBelow localDir entries))
  /\ Z.of_nat (size (applyWrites (fst down) ∅)) = fileCount entries.
Proof.
  intros Hreliable Hpage Hwf Hnonempty Hfresh up store down.
  pose proof (round_trip_files s3 pageSize latency listLatency dirPath id localDir entries
                bucket t t' Hreliable Hpage Hwf Hnonempty Hfresh) as Hfiles.
  pose proof (filesBelow_NoDup entries Hwf localDir) as Hnodup.
  split; [by apply upload_succeeds|].
  split.
  { apply download_succeeds; [done|].
    by apply (uploaded_objects_eligible s3 dirPath id entries bucket t). }
  split; [exact Hfiles|]. split; [exact Hnodup|].
  unfold down, store, up. rewrite Hfiles.
  rewrite map_size_list_to_map by exact Hnodup. apply filesBelow_length.
Qed.

Lemma upload_then_download_restores_tree_witness :
  wellFormedTree threeFiles = true
  /\ forallb noEmptyFile threeFiles = true
  /\ applyWrites
       (fst (Downloader.downloadFromS3
               (serving 2
                  (applyPuts
                     (fst (Uploader.uploadDirectory reliable "/srv/output/abc123" threeFiles
                             "abc123" 0%nat)) ∅)
                  (fun _ => None) (fun _ => 0%nat) 0%nat)
               "abc123" "output/abc123" 3%nat)) ∅
     = list_to_map (filesBelow "output/abc123" threeFiles).
Proof.
  split; [reflexivity|]. split; [reflexivity|].
  apply (upload_then_download_restores_tree reliable 2 (fun _ => 0%nat) 0%nat
           "/srv/output/abc123" "abc123" "output/abc123" threeFiles ∅ 0%nat 3%nat).
  - reflexivity.
  - lia.
  - reflexivity.
  - reflexivity.
  - intros key [content Hlook]. by rewrite lookup_empty in Hlook.
Defined.
